(** * unIMG 2: the WRLD extraction pipeline of [unimg.c]

    A shallow embedding of the extraction pipeline (index decompression,
    signature scan, sort and dedupe, record reconstruction, driver) and the
    properties its specification states about it.

    Conventions.  A [uint8_t] buffer together with its length is a
    [list byte]; positions inside a buffer ([size_t]) are [Z] values between
    [0] and the length; a [uint32_t] is a [Z] in [0, 2^32) and every narrowing
    cast of the source is written out as a [mod].  Loops of the source are
    fuelled fixpoints that answer [None] when the fuel runs out.  The scan
    loops and the copy loop get their fuel from their caller and are proved
    to end within it ([find_marker_spec], [scan_loop_spec],
    [copy_loop_total]); whether the inflate loop ends is up to the decoder,
    so its fuel is an argument of [main]. *)

From Stdlib Require Import ZArith Lia List Sorted Permutation.
From Stdlib Require Import Strings.Byte.
From stdpp Require Import base tactics option list sorting numbers gmap.

Local Open Scope Z_scope.

(** ** Bytes and little-endian words *)

#[global] Instance byte_eq_decision : EqDecision byte := Byte.byte_eq_dec.

(** The value of a [uint8_t]. *)
Definition u8 (b : byte) : Z := Z.of_N (Byte.to_N b).

(** [d[off]].  The scanner only reads below [n] (four bytes when
    [j + 4 <= n], the seven fields when [j + 32 <= n]); the default makes the
    function total and is never what a read of the source yields. *)
Definition byte_at (d : list byte) (off : Z) : byte :=
  default "000"%byte (d !! Z.to_nat off).

Definition U32_MOD : Z := 2 ^ 32.
Definition SIZE_MOD : Z := 2 ^ 64.

(** [(uint32_t)x] *)
Definition to_u32 (x : Z) : Z := x mod U32_MOD.

(** [read_u32le]: the four bytes are widened to [uint32_t] before the
    shifts, so no bit is lost. *)
Definition read_u32le (b : list byte) (off : Z) : Z :=
  Z.lor (Z.lor (Z.lor (u8 (byte_at b off))
                      (Z.shiftl (u8 (byte_at b (off + 1))) 8))
               (Z.shiftl (u8 (byte_at b (off + 2))) 16))
        (Z.shiftl (u8 (byte_at b (off + 3))) 24).

(** ** Headers *)

Record WrldHeader : Type := mkWrldHeader {
  lvz_off : Z;
  wrld_type : Z;
  total_size : Z;
  global0 : Z;
  global1 : Z;
  global_count : Z;
  continuation : Z;
  reserved : Z
}.

#[global] Instance WrldHeader_eq_decision : EqDecision WrldHeader.
Proof. solve_decision. Defined.

(** The diagnostic log is a sequence of structured lines, one constructor per
    [fprintf(log, ...)] of the source, carrying the values it prints. *)
Inductive log_line : Type :=
  | LogScanHit (idx : Z) (h : WrldHeader)
  | LogScanTotal (count : Z)
  | LogCannotWrite (file : nat)
  | LogHeaderFailed (file : nat)
  | LogBeyond (start img_size : Z)
  | LogClipped (end_ img_size : Z)
  | LogBuild (file : nat) (body total_out expected : Z)
  | LogFailed (file : nat) (rc : Z)
  | LogBanner
  | LogIo (lvz_len decomp_len : Z)
  | LogTooSmall
  | LogNoDLRW
  | LogNoHeaders
  | LogCannotOpenImg
  | LogImgBytes (img_size : Z)
  | LogDone (written : Z).

(** ** The signature scanner: [scan_slave_headers], lines 246-276 *)

Definition is_marker (d : list byte) (j : Z) : bool :=
  bool_decide (byte_at d j = "D"%byte)
  && bool_decide (byte_at d (j + 1) = "L"%byte)
  && bool_decide (byte_at d (j + 2) = "R"%byte)
  && bool_decide (byte_at d (j + 3) = "W"%byte).

(** The inner [for (; j + 4 <= n; ++j)] loop: the first marker at or after
    [j], or the first position with fewer than four bytes left. *)
Fixpoint find_marker (fuel : nat) (d : list byte) (n j : Z) : option Z :=
  match fuel with
  | O => None
  | S fuel' =>
      if j + 4 <=? n then
        if is_marker d j then Some j else find_marker fuel' d n (j + 1)
      else Some j
  end.

(** The header the scanner builds at match position [j]:
    [{ (uint32_t)j, wrld_type, total, g0, g1, gcnt, cont, resv }]. *)
Definition header_at (d : list byte) (j : Z) : WrldHeader :=
  {| lvz_off := to_u32 j;
     wrld_type := read_u32le d (j + 0x04);
     total_size := read_u32le d (j + 0x08);
     global0 := read_u32le d (j + 0x0C);
     global1 := read_u32le d (j + 0x10);
     global_count := read_u32le d (j + 0x14);
     continuation := read_u32le d (j + 0x18);
     reserved := read_u32le d (j + 0x1C) |}.

(** [total >= 32 && cont != 0] *)
Definition header_ok (h : WrldHeader) : bool :=
  (32 <=? total_size h) && negb (continuation h =? 0).

(** The growable array [HeaderList] is its sequence of items; [count] is the
    length and the capacity doubling of [header_list_push] is not observable. *)
Definition header_list_push (hl : list WrldHeader) (h : WrldHeader) : list WrldHeader :=
  hl ++ [h].

(** A [FILE* log] that may be [NULL]: every [fprintf(log, ...)] of the
    source below [main] is guarded by [if (log)]. *)
Definition logfile : Type := option (list log_line).

Definition fprintf (log : logfile) (l : log_line) : logfile :=
  (λ ls, ls ++ [l]) <$> log.

Record scan_state : Type := mkScan {
  ss_out : list WrldHeader;
  ss_hits : Z;
  ss_log : logfile
}.

(** One turn of the [while (1)] body once the inner loop stopped at [j] with
    [j + 32 <= n]. *)
Definition scan_visit (d : list byte) (j : Z) (st : scan_state) : scan_state :=
  let h := header_at d j in
  if header_ok h then
    let out := header_list_push (ss_out st) h in
    {| ss_out := out;
       ss_hits := ss_hits st + 1;
       ss_log := if ss_hits st <? 50
                 then fprintf (ss_log st) (LogScanHit (Z.of_nat (length out) - 1) h)
                 else ss_log st |}
  else st.

Fixpoint scan_loop (fuel : nat) (d : list byte) (n i : Z) (st : scan_state)
  : option scan_state :=
  match fuel with
  | O => None
  | S fuel' =>
      match find_marker (S (Z.to_nat n)) d n i with
      | None => None
      | Some j =>
          if n <? j + 32 then Some st
          else scan_loop fuel' d n (j + 4) (scan_visit d j st)
      end
  end.

Definition scan_init (log : logfile) : scan_state :=
  {| ss_out := []; ss_hits := 0; ss_log := log |}.

(** The scan proper, before the sort: the loop run from [i = 0] on the whole
    buffer. *)
Definition scan_raw (d : list byte) (log : logfile) : option scan_state :=
  let n := Z.of_nat (length d) in
  scan_loop (S (Z.to_nat n)) d n 0 (scan_init log).

(** ** Sort and dedupe: [scan_slave_headers], lines 278-289 *)

Definition cmp_by_lvz_off (x y : WrldHeader) : Z :=
  if lvz_off x <? lvz_off y then -1
  else if lvz_off y <? lvz_off x then 1
  else 0.

(** What [qsort] guarantees of its result for a comparison function [cmp]:
    consecutive items are in order.  [qsort] itself is the C library's; the
    development is parametric in it and assumes only this and that the result
    is a rearrangement of the array. *)
Definition cmp_le (x y : WrldHeader) : Prop := cmp_by_lvz_off x y <= 0.

#[global] Instance cmp_le_dec x y : Decision (cmp_le x y).
Proof. unfold cmp_le. apply _. Defined.

(** The compaction loop works in place on [items]: [w] is the write index,
    [r] the read index. *)
Definition dedupe_step (st : list WrldHeader * nat) (r : nat)
  : list WrldHeader * nat :=
  let '(items, w) := st in
  match items !! r with
  | Some x =>
      if bool_decide (w = 0%nat)
         || negb (bool_decide (Some (lvz_off x) = lvz_off <$> items !! (w - 1)%nat))
      then (<[w := x]> items, S w)
      else (items, w)
  | None => st
  end.

Definition dedupe (items : list WrldHeader) : list WrldHeader :=
  let '(items', w) := foldl dedupe_step (items, 0%nat) (seq 0 (length items)) in
  take w items'.

Definition finalize (qsort : list WrldHeader → list WrldHeader)
    (hs : list WrldHeader) : list WrldHeader :=
  dedupe (qsort hs).

(** [scan_slave_headers]: the headers left in [out] and the log. *)
Definition scan_slave_headers (qsort : list WrldHeader → list WrldHeader)
    (d : list byte) (log : logfile) : option (list WrldHeader * logfile) :=
  st ← scan_raw d log;
  let out := finalize qsort (ss_out st) in
  Some (out, fprintf (ss_log st) (LogScanTotal (Z.of_nat (length out)))).

(** ** The decompression resolver: [try_inflate] and [maybe_decompress_lvz] *)

(** What [inflate] returns: [Z_OK], [Z_STREAM_END], or any other code. *)
Inductive zret : Type :=
  | Z_OK
  | Z_STREAM_END
  | Z_ERROR (code : Z).

(** The decoder is zlib's, not this program's: the development is parametric
    in it.  [inflateInit2 wb] is [None] when the call does not return [Z_OK];
    [inflate s next_in avail_out] is one call with [Z_NO_FLUSH] on a stream
    whose state is [s], with the input left in [next_in] and room for
    [avail_out] bytes: it answers the return code, the new state, the input
    it leaves and the bytes it has put at [next_out]. *)
Record zlib : Type := mkZlib {
  zstream : Type;
  inflateInit2 : Z → option zstream;
  inflate : zstream → list byte → Z → zret * zstream * list byte * list byte
}.

Inductive try_result : Type :=
  | TryOk (data : list byte)
  | TryFail (rc : Z).

(** [size_t cap = in_len * 3 + 1024; if (cap < 4096) cap = 4096;] with
    [size_t] 64 bits wide. *)
Definition initial_cap (in_len : Z) : Z :=
  let cap := (in_len * 3 + 1024) mod SIZE_MOD in
  if cap <? 4096 then 4096 else cap.

(** [if (total == cap) cap = cap * 2 + 8192;] *)
Definition grow_cap (cap total : Z) : Z :=
  if total =? cap then (cap * 2 + 8192) mod SIZE_MOD else cap.

Record inflate_state (z : zlib) : Type := mkInflate {
  is_cap : Z;
  is_total : Z;
  is_out : list byte;
  is_strm : zstream z;
  is_next_in : list byte
}.
Arguments mkInflate {z} _ _ _ _ _.
Arguments is_cap {z} _.
Arguments is_total {z} _.
Arguments is_out {z} _.
Arguments is_strm {z} _.
Arguments is_next_in {z} _.

(** One turn of the [for (;;)] body.  The decoder writes at [out + total];
    bytes of [out] below [total] that no call has written are indeterminate
    in the source and read as zero here (there are none unless
    [cap - total] does not fit [unsigned]). *)
Definition inflate_iter {z : zlib} (st : inflate_state z)
  : inflate_state z + try_result :=
  let cap := grow_cap (is_cap st) (is_total st) in
  let avail_out := to_u32 (cap - is_total st) in
  let '(ret, strm, next_in, produced) :=
    inflate z (is_strm st) (is_next_in st) avail_out in
  let out := resize (Z.to_nat (is_total st)) "000"%byte (is_out st) ++ produced in
  let total := cap - (avail_out - Z.of_nat (length produced)) in
  match ret with
  | Z_STREAM_END => inr (TryOk (resize (Z.to_nat total) "000"%byte out))
  | Z_OK => inl (mkInflate cap total out strm next_in)
  | Z_ERROR _ => inr (TryFail (-2))
  end.

Fixpoint inflate_loop {z : zlib} (fuel : nat) (st : inflate_state z)
  : option try_result :=
  match fuel with
  | O => None
  | S fuel' =>
      match inflate_iter st with
      | inl st' => inflate_loop fuel' st'
      | inr r => Some r
      end
  end.

(** The state in which [try_inflate] enters its loop:
    [strm.avail_in = (unsigned)in_len]. *)
Definition inflate_start {z : zlib} (input : list byte) (strm : zstream z)
  : inflate_state z :=
  let in_len := Z.of_nat (length input) in
  mkInflate (initial_cap in_len) 0 [] strm (take (Z.to_nat (to_u32 in_len)) input).

Definition try_inflate (z : zlib) (fuel : nat) (input : list byte)
    (window_bits : Z) : option try_result :=
  match inflateInit2 z window_bits with
  | None => Some (TryFail (-1))
  | Some strm => inflate_loop fuel (inflate_start input strm)
  end.

(** [maybe_decompress_lvz]: zlib, then gzip, then raw DEFLATE, else a copy of
    the input. *)
Definition maybe_decompress_lvz (z : zlib) (fuel : nat) (input : list byte)
  : option (list byte) :=
  ok ← try_inflate z fuel input 15;
  match ok with
  | TryOk d => Some d
  | TryFail _ =>
      ok ← try_inflate z fuel input (16 + 15);
      match ok with
      | TryOk d => Some d
      | TryFail _ =>
          ok ← try_inflate z fuel input (-15);
          match ok with
          | TryOk d => Some d
          | TryFail _ => Some input
          end
      end
  end.

(** ** Record reconstruction: [copy_img_slice] and [write_wrld] *)

(** How the file system answers for one output path: whether
    [fopen(out_path, "wb")] succeeds and the item count the 32-byte header
    [fwrite] returns (the bytes that reach the file).  The [fwrite] of body
    chunks is not checked by the source and is taken to append. *)
Record sink : Type := mkSink {
  fopen_ok : bool;
  header_fwrite : Z
}.

Definition sink_good (s : sink) : bool :=
  fopen_ok s && (header_fwrite s =? 32).

(** The part of the world [write_wrld] changes: the output files, keyed by the
    sequence index that [main] prints into the file name
    ([wrld_%04zu.wrld], one name per index), the log, the position of the
    payload stream, and the read requests made on it, each with the position
    it was made at and the number of bytes asked for. *)
Record world : Type := mkWorld {
  w_files : gmap nat (list byte);
  w_log : logfile;
  w_img_pos : Z;
  w_reads : list (Z * Z)
}.

Definition w_fprintf (l : log_line) (w : world) : world :=
  {| w_files := w_files w; w_log := fprintf (w_log w) l;
     w_img_pos := w_img_pos w; w_reads := w_reads w |}.

Definition w_set_file (file : nat) (data : list byte) (w : world) : world :=
  {| w_files := <[file := data]> (w_files w); w_log := w_log w;
     w_img_pos := w_img_pos w; w_reads := w_reads w |}.

Definition w_append (file : nat) (data : list byte) (w : world) : world :=
  w_set_file file (default [] (w_files w !! file) ++ data) w.

Definition w_seek (pos : Z) (w : world) : world :=
  {| w_files := w_files w; w_log := w_log w;
     w_img_pos := pos; w_reads := w_reads w |}.

(** [fread(buf, 1, want, img)]: the bytes between the position and the end of
    the payload, at most [want] of them; the position moves past them. *)
Definition fread (img : list byte) (want : Z) (w : world) : list byte * world :=
  let data := take (Z.to_nat want) (drop (Z.to_nat (w_img_pos w)) img) in
  (data,
   {| w_files := w_files w; w_log := w_log w;
      w_img_pos := w_img_pos w + Z.of_nat (length data);
      w_reads := w_reads w ++ [(w_img_pos w, want)] |}).

Definition CHUNK : Z := Z.shiftl 1 20.

(** The [while (left)] loop of [copy_img_slice]. *)
Fixpoint copy_loop (fuel : nat) (img : list byte) (file : nat)
    (left total : Z) (w : world) : option (Z * world) :=
  match fuel with
  | O => None
  | S fuel' =>
      if left =? 0 then Some (total, w)
      else
        let want := if CHUNK <? left then CHUNK else left in
        let '(data, w1) := fread img want w in
        let got := Z.of_nat (length data) in
        if got =? 0 then Some (total, w1)
        else
          let w2 := w_append file data w1 in
          if got <? want then Some (total + got, w2)
          else copy_loop fuel' img file (left - got) (total + got) w2
  end.

(** [copy_img_slice(img, start, end, f)], the bytes written.  The seek is
    the one of a seekable stream at an offset [off_t] can hold,
    [0 <= start < 2^63], which is all [write_wrld] asks for (it passes a
    32-bit [continuation]); the source does not look at what [fseeko]
    returns, and for a larger [start] the seek fails and the stream stays
    where it was. *)
Definition copy_img_slice (img : list byte) (start end_ : Z) (file : nat)
    (w : world) : option (Z * world) :=
  let left := if start <? end_ then end_ - start else 0 in
  copy_loop (S (Z.to_nat left)) img file left 0 (w_seek start w).

(** The 32 bytes at [decomp_lvz + h->lvz_off].  The headers [main] passes
    lie inside the buffer ([scan_headers_in_buffer]); for any other the source
    reads out of bounds and this is the part of the 32 bytes that exists. *)
Definition header_bytes (h : WrldHeader) (decomp_lvz : list byte) : list byte :=
  take 32 (drop (Z.to_nat (lvz_off h)) decomp_lvz).

(** [write_wrld]: the return code and the world it leaves. *)
Definition write_wrld (s : sink) (h : WrldHeader) (decomp_lvz : list byte)
    (img : list byte) (img_size : Z) (file : nat) (w : world)
  : option (Z * world) :=
  if negb (fopen_ok s) then Some (-1, w_fprintf (LogCannotWrite file) w)
  else
    let hdr := header_bytes h decomp_lvz in
    let w := w_set_file file (take (Z.to_nat (header_fwrite s)) hdr) w in
    if negb (header_fwrite s =? 32) then Some (-2, w_fprintf (LogHeaderFailed file) w)
    else
      let start := continuation h in
      let need := if 32 <=? total_size h then total_size h - 32 else 0 in
      let end_ := start + need in
      if img_size <? start then Some (0, w_fprintf (LogBeyond start img_size) w)
      else
        let '(end_, w) :=
          if img_size <? end_
          then (img_size, w_fprintf (LogClipped end_ img_size) w)
          else (end_, w) in
        '(body, w) ← copy_img_slice img start end_ file w;
        Some (0, w_fprintf (LogBuild file body (32 + body) (total_size h)) w).

(** ** The driver: [main] *)

(** What [main] finds outside the program. *)
Record environment : Type := mkEnv {
  argc : Z;
  img_exists : bool;
  log_opens : bool;
  lvz_file : option (list byte);
  img_file : option (list byte);
  sinks : nat → sink
}.

(** The loop over the headers, lines 440-447. *)
Fixpoint write_all (env : environment) (decomp img : list byte) (img_size : Z)
    (hs : list WrldHeader) (i : nat) (written : Z) (w : world)
  : option (Z * world) :=
  match hs with
  | [] => Some (written, w)
  | h :: hs' =>
      '(rc, w) ← write_wrld (sinks env i) h decomp img img_size i w;
      if rc =? 0 then write_all env decomp img img_size hs' (S i) (written + 1) w
      else write_all env decomp img img_size hs' (S i) written
             (w_fprintf (LogFailed i rc) w)
  end.

Definition world_init (log : logfile) : world :=
  {| w_files := ∅; w_log := log; w_img_pos := 0; w_reads := [] |}.

(** [main]: the exit status and the world at exit.  [die] exits with status
    1; allocation is taken to succeed. *)
Definition main (z : zlib) (qsort : list WrldHeader → list WrldHeader)
    (fuel : nat) (env : environment) : option (Z * world) :=
  if negb (argc env =? 2) then Some (1, world_init None)
  else if negb (img_exists env) then Some (2, world_init None)
  else if negb (log_opens env) then Some (1, world_init None)
  else
    let log : logfile := Some [LogBanner] in
    match lvz_file env with
    | None => Some (1, world_init log)
    | Some lvz_raw =>
        decomp ← maybe_decompress_lvz z fuel lvz_raw;
        let decomp_len := Z.of_nat (length decomp) in
        let log := fprintf log (LogIo (Z.of_nat (length lvz_raw)) decomp_len) in
        if decomp_len <? 32 then Some (3, world_init (fprintf log LogTooSmall))
        else
          let log := if is_marker decomp 0 then log else fprintf log LogNoDLRW in
          '(headers, log) ← scan_slave_headers qsort decomp log;
          if bool_decide (length headers = 0%nat)
          then Some (4, world_init (fprintf log LogNoHeaders))
          else
            match img_file env with
            | None => Some (5, world_init (fprintf log LogCannotOpenImg))
            | Some img =>
                let img_size := Z.of_nat (length img) in
                let log := fprintf log (LogImgBytes img_size) in
                '(written, w) ← write_all env decomp img img_size headers 0 0
                                  (world_init log);
                Some (0, w_fprintf (LogDone written) w)
            end
    end.

(** ** Notions the statements use *)

(** A match position the scanner accepts in a buffer of [n] bytes: the marker
    is there, 32 bytes remain, and the two field checks pass. *)
Definition accepted (d : list byte) (n j : Z) : Prop :=
  0 ≤ j ∧ is_marker d j = true ∧ j + 32 ≤ n ∧ header_ok (header_at d j) = true.

#[global] Instance accepted_dec d n j : Decision (accepted d n j).
Proof. unfold accepted. apply _. Defined.

(** The accepted positions from [i] on, in ascending order. *)
Definition accepted_from (d : list byte) (n i : Z) : list Z :=
  filter (accepted d n) (seqZ i (n - i)).

(** [h] is a header at offset [j] of the collection [hs]. *)
Definition header_at_offset (hs : list WrldHeader) (j : Z) : Prop :=
  ∃ h, h ∈ hs ∧ lvz_off h = j.

(** Every match position of the buffer fits the 32-bit [lvz_off] field. *)
Definition offsets_fit_u32 (d : list byte) : Prop :=
  Z.of_nat (length d) < U32_MOD + 32.

(** The collapse as the specification words it: in a sequence, every entry
    whose offset equals that of the entry kept last is dropped, so of a run of
    consecutive entries of equal offset the first is kept.  [prev] is the
    offset of the entry kept last, if any. *)
Fixpoint dedupe_from (prev : option Z) (l : list WrldHeader) : list WrldHeader :=
  match l with
  | [] => []
  | x :: l' =>
      if bool_decide (prev = Some (lvz_off x)) then dedupe_from prev l'
      else x :: dedupe_from (Some (lvz_off x)) l'
  end.

(** Ascending by offset, no offset twice. *)
Definition strictly_ascending (hs : list WrldHeader) : Prop :=
  StronglySorted (λ x y, lvz_off x < lvz_off y) hs.

(** [h] is the first entry of [l] with its offset. *)
Definition first_with_offset (h : WrldHeader) (l : list WrldHeader) : Prop :=
  ∃ l1 l2, l = l1 ++ h :: l2 ∧ ∀ x, x ∈ l1 → lvz_off x ≠ lvz_off h.

(** The state of the compaction loop before the turn for read index [r]. *)
Definition dedupe_inv (items : list WrldHeader) (r : nat)
    (st : list WrldHeader * nat) : Prop :=
  length st.1 = length items
  ∧ (st.2 ≤ r)%nat
  ∧ drop r st.1 = drop r items
  ∧ take st.2 st.1 ++ dedupe_from (lvz_off <$> last (take st.2 st.1)) (drop r items)
    = dedupe_from None items.

(** What the development assumes of [qsort] called with [cmp_by_lvz_off]. *)
Definition sorts_by_offset (qsort : list WrldHeader → list WrldHeader) : Prop :=
  (∀ l, qsort l ≡ₚ l) ∧ (∀ l, Sorted cmp_le (qsort l)).

(** ** Concrete inputs *)

(** A sorting function to stand for [qsort] where a concrete run is needed. *)
Definition lib_qsort : list WrldHeader → list WrldHeader := merge_sort cmp_le.

Definition byte_of_Z (z : Z) : byte :=
  default "000"%byte (Byte.of_N (Z.to_N (z mod 256))).

(** The four bytes of a [uint32_t], least significant first. *)
Definition le32 (v : Z) : list byte :=
  [byte_of_Z v; byte_of_Z (Z.shiftr v 8); byte_of_Z (Z.shiftr v 16);
   byte_of_Z (Z.shiftr v 24)].

Definition DLRW : list byte := ["D"%byte; "L"%byte; "R"%byte; "W"%byte].

(** The 32 bytes of a header with the given fields. *)
Definition record_bytes (type total g0 g1 gcnt cont resv : Z) : list byte :=
  DLRW ++ le32 type ++ le32 total ++ le32 g0 ++ le32 g1 ++ le32 gcnt
       ++ le32 cont ++ le32 resv.

(** Two records back to back: a good one at 0 and one with [continuation = 0]
    at 32. *)
Definition two_records : list byte :=
  record_bytes 7 40 1 2 3 64 0 ++ record_bytes 7 40 1 2 3 0 0.

(** 36 bytes in which a header at 0 and a header at 4 both pass the checks:
    the second marker is the [wrld_type] field of the first header. *)
Definition nested_records : list byte :=
  DLRW ++ DLRW ++ le32 32 ++ le32 32 ++ le32 0 ++ le32 0 ++ le32 1 ++ le32 1
       ++ le32 0.

(** A buffer of [2^32 + 32] bytes: a marker at 0 with [total_size = 0], zeros
    up to [2^32], and a good header at [2^32]. *)
Definition pad_len : nat := Z.to_nat (2 ^ 32 - 32).
Definition wide_head : list byte := record_bytes 0 0 0 0 0 0 0.
Definition wide_tail : list byte := record_bytes 0 32 0 0 0 1 0.
Definition wide_buffer : list byte :=
  wide_head ++ replicate pad_len "000"%byte ++ wide_tail.

(** Two decoders to run the resolver on.  [reject_zlib] reports a data error
    on every call: no input is valid under any framing.  [runs_zlib] reads
    every input byte as a run of 8192 zero bytes, whatever the framing asked
    for; its state is the number of bytes still to put out. *)
Definition reject_zlib : zlib :=
  {| zstream := unit;
     inflateInit2 := λ _, Some tt;
     inflate := λ s next_in avail_out, (Z_ERROR (-3), s, next_in, []) |}.

Definition runs_zlib : zlib :=
  {| zstream := Z;
     inflateInit2 := λ _, Some 0;
     inflate := λ pending next_in avail_out,
       let pending := pending + 8192 * Z.of_nat (length next_in) in
       let k := Z.min avail_out pending in
       (if pending - k =? 0 then Z_STREAM_END else Z_OK,
        pending - k, [], replicate (Z.to_nat k) "000"%byte) |}.

(** The loop state of an attempt on three bytes with [runs_zlib] after its
    first turn: the 4096 bytes of the buffer are used up. *)
Definition runs_state_full : inflate_state runs_zlib :=
  @mkInflate runs_zlib 4096 4096 (replicate 4096 "000"%byte) 20480 [].

(** A sort has kept the entries of [l] with equal offset in the order they
    had in [l]; a stable sort does so on every array. *)
Definition stable_on (qsort : list WrldHeader → list WrldHeader)
    (l : list WrldHeader) : Prop :=
  ∀ o, filter (λ x, lvz_off x = o) (qsort l) = filter (λ x, lvz_off x = o) l.

(** A second sorting function, which meets [sorts_by_offset] as well: it
    sorts the array read backwards. *)
Definition backward_qsort (l : list WrldHeader) : list WrldHeader :=
  merge_sort cmp_le (reverse l).

(** Four headers with offsets 5, 5, 3, 9; [wrld_type] tells the two at 5
    apart. *)
Definition plain_header (off type : Z) : WrldHeader :=
  mkWrldHeader off type 32 0 0 0 1 0.

Definition dup_headers : list WrldHeader :=
  [plain_header 5 1; plain_header 5 2; plain_header 3 3; plain_header 9 4].

(** The outcomes of a run the specification lists, with the status [main]
    returns for each. *)
Inductive condition : Type :=
  | Success
  | BadInvocation
  | MissingPayload
  | IndexTooSmall
  | NoHeaders
  | PayloadOpenFailure.

Definition exit_status (c : condition) : Z :=
  match c with
  | Success => 0
  | BadInvocation => 1
  | MissingPayload => 2
  | IndexTooSmall => 3
  | NoHeaders => 4
  | PayloadOpenFailure => 5
  end.

(** When each outcome arises, in the order [main] meets them.  From
    [IndexTooSmall] on the run has got past the arguments, the payload check,
    the log and the reading of the index. *)
Inductive arises (z : zlib) (qsort : list WrldHeader → list WrldHeader)
    (fuel : nat) (env : environment) : condition → Prop :=
  | arises_bad_invocation :
      argc env ≠ 2 → arises z qsort fuel env BadInvocation
  | arises_missing_payload :
      argc env = 2 → img_exists env = false →
      arises z qsort fuel env MissingPayload
  | arises_index_too_small raw decomp :
      argc env = 2 → img_exists env = true → log_opens env = true →
      lvz_file env = Some raw →
      maybe_decompress_lvz z fuel raw = Some decomp →
      Z.of_nat (length decomp) < 32 →
      arises z qsort fuel env IndexTooSmall
  | arises_no_headers raw decomp :
      argc env = 2 → img_exists env = true → log_opens env = true →
      lvz_file env = Some raw →
      maybe_decompress_lvz z fuel raw = Some decomp →
      32 ≤ Z.of_nat (length decomp) →
      fst <$> scan_slave_headers qsort decomp None = Some [] →
      arises z qsort fuel env NoHeaders
  | arises_payload_open_failure raw decomp h hs :
      argc env = 2 → img_exists env = true → log_opens env = true →
      lvz_file env = Some raw →
      maybe_decompress_lvz z fuel raw = Some decomp →
      32 ≤ Z.of_nat (length decomp) →
      fst <$> scan_slave_headers qsort decomp None = Some (h :: hs) →
      img_file env = None →
      arises z qsort fuel env PayloadOpenFailure
  | arises_success raw decomp h hs img :
      argc env = 2 → img_exists env = true → log_opens env = true →
      lvz_file env = Some raw →
      maybe_decompress_lvz z fuel raw = Some decomp →
      32 ≤ Z.of_nat (length decomp) →
      fst <$> scan_slave_headers qsort decomp None = Some (h :: hs) →
      img_file env = Some img →
      arises z qsort fuel env Success.

(** A run to try [main] on: the index is [two_records] as it is, the payload
    has 100 bytes, every sink works. *)
Definition plain_env : environment :=
  {| argc := 2; img_exists := true; log_opens := true;
     lvz_file := Some two_records;
     img_file := Some (replicate 100 "042"%byte);
     sinks := λ _, mkSink true 32 |}.

(** The same with two bad sinks: the file of index 1 cannot be opened and the
    file of index 2 takes 7 bytes of the header. *)
Definition faulty_env : environment :=
  {| argc := 2; img_exists := true; log_opens := true;
     lvz_file := Some two_records;
     img_file := Some (replicate 100 "042"%byte);
     sinks := λ i, match i with
                   | 1%nat => mkSink false 32
                   | 2%nat => mkSink true 7
                   | _ => mkSink true 32
                   end |}.

(** ** The rest of [unimg.c] *)

(** The lines [scan_slave_headers] has put in the log when [out] holds the
    headers it has pushed: one per header for the first 50, with the index
    the header got. *)
Definition scan_hit_lines (out : list WrldHeader) : list log_line :=
  take 50 (imap (λ i h, LogScanHit (Z.of_nat i) h) out).

Definition scan_log_of (log : logfile) (out : list WrldHeader) : logfile :=
  foldl fprintf log (scan_hit_lines out).

(** [looks_like_zlib] *)
Definition looks_like_zlib (b : list byte) : bool :=
  if Z.of_nat (length b) <? 2 then false
  else (u8 (byte_at b 0) =? 0x78)
       && ((u8 (byte_at b 1) =? 0x01) || (u8 (byte_at b 1) =? 0x9C)
           || (u8 (byte_at b 1) =? 0xDA)).

(** The [HeaderList] struct with its capacity: [items] are the [count] slots
    in use, [cap] the slots allocated; [sizeof(WrldHeader)] is 32. *)
Module HeaderArray.
Record HeaderList : Type := mkHeaderList {
  items : list WrldHeader;
  cap : Z
}.

Definition count (hl : HeaderList) : Z := Z.of_nat (length (items hl)).

Definition header_list_init : HeaderList := {| items := []; cap := 0 |}.

(** [hl->cap = hl->cap ? hl->cap * 2 : 128] in [size_t], when
    [count == cap]. *)
Definition header_list_push (hl : HeaderList) (h : WrldHeader) : HeaderList :=
  let cap' :=
    if count hl =? cap hl
    then (if cap hl =? 0 then 128 else (cap hl * 2) mod SIZE_MOD)
    else cap hl in
  {| items := items hl ++ [h]; cap := cap' |}.

(** The bytes [xrealloc] is asked for when the array grows. *)
Definition alloc_bytes (hl : HeaderList) : Z := (cap hl * 32) mod SIZE_MOD.
End HeaderArray.

(** What the scan loop keeps true of its counters: [hits] is the number of
    headers pushed and the log holds the lines of the first 50. *)
Definition scan_inv (log : logfile) (st : scan_state) : Prop :=
  ss_hits st = Z.of_nat (length (ss_out st))
  ∧ ss_log st = scan_log_of log (ss_out st).

(** The body [write_wrld] appends for [h] from a payload stream [img] when
    told the payload has [img_size] bytes, and the whole file: nothing when
    the body starts past [img_size], else the stream from [continuation] up
    to [continuation + (total_size - 32)] or [img_size], whichever is less. *)
Definition wrld_need (h : WrldHeader) : Z :=
  if 32 <=? total_size h then total_size h - 32 else 0.

Definition wrld_body (h : WrldHeader) (img : list byte) (img_size : Z) : list byte :=
  if img_size <? continuation h then []
  else take (Z.to_nat (Z.min (continuation h + wrld_need h) img_size - continuation h))
            (drop (Z.to_nat (continuation h)) img).

Definition wrld_file (h : WrldHeader) (decomp img : list byte) (img_size : Z)
  : list byte :=
  header_bytes h decomp ++ wrld_body h img img_size.

(** A run of [main] that gets as far as the scan: the arguments are right,
    the payload file is there, the log opens, the index is read as [raw] and
    resolved to [decomp], of 32 bytes or more. *)
Definition reaches_scan (z : zlib) (fuel : nat) (env : environment)
    (raw decomp : list byte) : Prop :=
  argc env = 2 ∧ img_exists env = true ∧ log_opens env = true
  ∧ lvz_file env = Some raw
  ∧ maybe_decompress_lvz z fuel raw = Some decomp
  ∧ 32 ≤ Z.of_nat (length decomp).

(** The log of such a run when the scan starts. *)
Definition log_at_scan (raw decomp : list byte) : logfile :=
  let log := fprintf (Some [LogBanner])
               (LogIo (Z.of_nat (length raw)) (Z.of_nat (length decomp))) in
  if is_marker decomp 0 then log else fprintf log LogNoDLRW.

(** ** Paths ([path_dirname] .. [out_dir_default], the branch for POSIX)

    A C string is the list of its bytes before the terminating NUL. *)

Definition path_sep : byte := "/"%byte.

(** [strrchr(s, c)] for a [c] other than NUL: the index of the last [c]. *)
Fixpoint strrchr (s : list byte) (c : byte) : option nat :=
  match s with
  | [] => None
  | x :: s' =>
      match strrchr s' c with
      | Some n => Some (S n)
      | None => if bool_decide (x = c) then Some 0%nat else None
      end
  end.

(** [if (n >= outsz) n = outsz - 1;] in [size_t]. *)
Definition clamp (n outsz : Z) : Z :=
  if outsz <=? n then (outsz - 1) mod SIZE_MOD else n.

(** What [snprintf(out, outsz, ...)] leaves in [out] when the formatted text
    is [text]: its first [outsz - 1] bytes. *)
Definition snprintf (outsz : Z) (text : list byte) : list byte :=
  take (Z.to_nat (outsz - 1)) text.

Definition path_dirname (inp : list byte) (outsz : Z) : list byte :=
  match strrchr inp path_sep with
  | None => []
  | Some last => take (Z.to_nat (clamp (Z.of_nat last) outsz)) inp
  end.

Definition path_join (outsz : Z) (a b : list byte) : list byte :=
  snprintf outsz
    (a ++ (if negb (bool_decide (a = []))
              && negb (bool_decide (last a = Some path_sep))
           then [path_sep] else [])
       ++ b).

Definition path_stem (inp : list byte) (outsz : Z) : list byte :=
  let file := match strrchr inp path_sep with
              | Some slash => drop (S slash) inp
              | None => inp
              end in
  let len := match strrchr file "."%byte with
             | Some dot => Z.of_nat dot
             | None => Z.of_nat (length file)
             end in
  take (Z.to_nat (clamp len outsz)) file.

(** The string literals [".IMG"], [".img"] and ["out_wrld"]. *)
Definition EXT_UPPER : list byte := ["."%byte; "I"%byte; "M"%byte; "G"%byte].
Definition EXT_LOWER : list byte := ["."%byte; "i"%byte; "m"%byte; "g"%byte].
Definition OUT_WRLD : list byte :=
  ["o"%byte; "u"%byte; "t"%byte; "_"%byte; "w"%byte; "r"%byte; "l"%byte; "d"%byte].

(** [derive_img_path]; [file_exists] is what the file system answers. *)
Definition derive_img_path (file_exists : list byte → bool)
    (lvz_path : list byte) (outsz : Z) : list byte :=
  let dir := path_dirname lvz_path 1024 in
  let stem := path_stem lvz_path 512 in
  let with_ext ext :=
    if bool_decide (dir = []) then snprintf outsz (stem ++ ext)
    else snprintf outsz (dir ++ [path_sep] ++ stem ++ ext) in
  if file_exists (with_ext EXT_UPPER) then with_ext EXT_UPPER
  else if file_exists (with_ext EXT_LOWER) then with_ext EXT_LOWER
  else with_ext EXT_UPPER.

Definition out_dir_default (lvz_path : list byte) (outsz : Z) : list byte :=
  let dir := path_dirname lvz_path 1024 in
  if bool_decide (dir = []) then snprintf outsz (OUT_WRLD)
  else snprintf outsz (dir ++ [path_sep] ++ OUT_WRLD).

(** ** The name of a record's file ([main], ["wrld_%04zu.wrld"]) *)

(** ['0' + d] *)
Definition digit (d : Z) : byte := byte_of_Z (48 + d).

(** The decimal digits of [n], most significant first; a [size_t] has at
    most 20. *)
Fixpoint decimal (fuel : nat) (n : Z) : list byte :=
  match fuel with
  | O => []
  | S fuel' =>
      if n <? 10 then [digit n]
      else decimal fuel' (n / 10) ++ [digit (n mod 10)]
  end.

(** [%04zu]: the digits, padded with zeros on the left to four. *)
Definition fmt_04zu (i : Z) : list byte :=
  let d := decimal 20 i in
  replicate (4 - length d) "0"%byte ++ d.

Definition WRLD_PREFIX : list byte :=
  ["w"%byte; "r"%byte; "l"%byte; "d"%byte; "_"%byte].
Definition WRLD_SUFFIX : list byte :=
  ["."%byte; "w"%byte; "r"%byte; "l"%byte; "d"%byte].
Definition LOG_NAME : list byte :=
  ["w"%byte; "r"%byte; "l"%byte; "d"%byte; "_"%byte; "i"%byte; "m"%byte;
   "p"%byte; "o"%byte; "r"%byte; "t"%byte; "."%byte; "l"%byte; "o"%byte;
   "g"%byte].

(** [snprintf(name, sizeof(name), "wrld_%04zu.wrld", i)] with [char name[256]] *)
Definition wrld_name (i : Z) : list byte :=
  snprintf 256 (WRLD_PREFIX ++ fmt_04zu i ++ WRLD_SUFFIX).

(** [path_join(out_path, sizeof(out_path), out_dir, name)] with
    [char out_path[1400]], and the same for [char log_path[1200]]. *)
Definition out_path (out_dir : list byte) (i : Z) : list byte :=
  path_join 1400 out_dir (wrld_name i).

Definition log_path (out_dir : list byte) : list byte :=
  path_join 1200 out_dir LOG_NAME.

(** The number a string of decimal digits stands for. *)
Definition decimal_value (s : list byte) : Z :=
  foldl (λ acc b, 10 * acc + (u8 b - 48)) 0 s.

(** A decimal digit. *)
Definition is_digit (b : byte) : Prop := 48 ≤ u8 b ≤ 57.

(* ================================================================= *)
(** * Properties *)

(** ** Little-endian words *)

Lemma u8_range b : 0 ≤ u8 b < 256.
Proof.
  unfold u8. pose proof (Byte.to_N_bounded b) as Hb.
  apply N2Z.inj_le in Hb. change (Z.of_N 255) with 255 in Hb. lia.
Qed.

Lemma lor_shiftl_add a b n :
  0 ≤ n → 0 ≤ a < 2 ^ n → Z.lor a (Z.shiftl b n) = a + b * 2 ^ n.
Proof.
  intros Hn Ha. rewrite Z.shiftl_mul_pow2 by done.
  symmetry. apply Z.add_nocarry_lor.
  apply Z.bits_inj'. intros k Hk. rewrite Z.land_spec, Z.bits_0.
  destruct (Z.lt_ge_cases k n) as [Hlt | Hge].
  - rewrite (Z.mul_pow2_bits_low b n k) by done. apply andb_false_r.
  - destruct (Z.eq_dec a 0) as [-> | Hne]; [by rewrite Z.bits_0|].
    assert (Hlog : Z.log2 a < n) by (apply Z.log2_lt_pow2; lia).
    rewrite (Z.bits_above_log2 a k) by lia. done.
Qed.

(** What [read_u32le] computes with its shifts and ors is the number whose
    base-256 digits, least significant first, are the four bytes. *)
Lemma read_u32le_value b off :
  read_u32le b off =
    u8 (byte_at b off) + u8 (byte_at b (off + 1)) * 2 ^ 8
    + u8 (byte_at b (off + 2)) * 2 ^ 16 + u8 (byte_at b (off + 3)) * 2 ^ 24.
Proof.
  unfold read_u32le.
  pose proof (u8_range (byte_at b off)).
  pose proof (u8_range (byte_at b (off + 1))).
  pose proof (u8_range (byte_at b (off + 2))).
  rewrite (lor_shiftl_add _ _ 8) by lia.
  rewrite (lor_shiftl_add _ _ 16) by lia.
  rewrite (lor_shiftl_add _ _ 24) by lia. done.
Qed.

Lemma read_u32le_range b off : 0 ≤ read_u32le b off < U32_MOD.
Proof.
  rewrite read_u32le_value. unfold U32_MOD.
  pose proof (u8_range (byte_at b off)).
  pose proof (u8_range (byte_at b (off + 1))).
  pose proof (u8_range (byte_at b (off + 2))).
  pose proof (u8_range (byte_at b (off + 3))). lia.
Qed.

(** ** The scanner *)

Lemma is_marker_bytes d j :
  is_marker d j = true ↔
  byte_at d j = "D"%byte ∧ byte_at d (j + 1) = "L"%byte
  ∧ byte_at d (j + 2) = "R"%byte ∧ byte_at d (j + 3) = "W"%byte.
Proof.
  unfold is_marker. rewrite !andb_true_iff, !bool_decide_eq_true. tauto.
Qed.

(** The marker cannot overlap itself: no marker starts one, two or three
    bytes after a marker. *)
Lemma is_marker_no_overlap d j k :
  is_marker d j = true → j < k < j + 4 → is_marker d k = false.
Proof.
  intros Hj Hk. apply is_marker_bytes in Hj as (H0 & H1 & H2 & H3).
  apply not_true_is_false. intros Hm.
  apply is_marker_bytes in Hm as (K0 & _).
  assert (k = j + 1 ∨ k = j + 2 ∨ k = j + 3) as [-> | [-> | ->]] by lia;
    congruence.
Qed.

Lemma find_marker_spec d n fuel j :
  (Z.to_nat (n - j) < fuel)%nat →
  ∃ k, find_marker fuel d n j = Some k ∧ j ≤ k
       ∧ (∀ x, j ≤ x < k → is_marker d x = false)
       ∧ (k + 4 ≤ n → is_marker d k = true).
Proof.
  revert j. induction fuel as [|fuel IH]; intros j Hf; [lia|].
  simpl. destruct (Z.leb_spec (j + 4) n) as [Hle | Hgt].
  - destruct (is_marker d j) eqn:Hm.
    + exists j. repeat split; auto; intros; lia.
    + destruct (IH (j + 1)) as (k & Hk & Hjk & Hno & Hat); [lia|].
      exists k. repeat split; auto; [lia|].
      intros x Hx. destruct (decide (x = j)) as [-> | Hne]; [done|].
      apply Hno. lia.
  - exists j. repeat split; auto; intros; lia.
Qed.

Lemma filter_none {A} (P : A → Prop) `{!∀ x, Decision (P x)} (l : list A) :
  (∀ x, x ∈ l → ¬ P x) → filter P l = [].
Proof.
  induction l as [|x l IH]; intros Hall; [done|].
  rewrite filter_cons_False by (apply Hall; left).
  apply IH. intros y Hy. apply Hall. by right.
Qed.

Lemma accepted_from_nil d n i j :
  i ≤ j →
  (∀ x, i ≤ x < j → is_marker d x = false) →
  n < j + 32 →
  accepted_from d n i = [].
Proof.
  intros Hij Hno Hn. apply filter_none. intros x Hx (_ & Hm & Hb & _).
  apply elem_of_seqZ in Hx.
  destruct (Z.lt_ge_cases x j) as [Hlt | Hge]; [|lia].
  rewrite Hno in Hm by lia. done.
Qed.

Lemma accepted_from_step d n i j :
  0 ≤ i → i ≤ j →
  (∀ x, i ≤ x < j → is_marker d x = false) →
  is_marker d j = true → j + 32 ≤ n →
  accepted_from d n i =
    (if header_ok (header_at d j) then [j] else []) ++ accepted_from d n (j + 4).
Proof.
  intros Hi Hij Hno Hm Hn. unfold accepted_from.
  replace (n - i) with ((j - i) + (4 + (n - (j + 4)))) by lia.
  rewrite seqZ_app by lia. rewrite filter_app.
  rewrite (filter_none _ (seqZ i (j - i))); cycle 1.
  { intros x Hx (_ & Hx1 & _). apply elem_of_seqZ in Hx. rewrite Hno in Hx1 by lia. done. }
  replace (i + (j - i)) with j by lia.
  rewrite seqZ_app by lia. rewrite filter_app. simpl. f_equal.
  replace (seqZ j 4) with [j; j + 1; j + 2; j + 3]
    by (do 4 (rewrite seqZ_cons by lia); rewrite seqZ_nil by lia;
        repeat f_equal; lia).
  assert (Hskip : ∀ k, j < k < j + 4 → ¬ accepted d n k).
  { intros k Hk (_ & Hk1 & _). rewrite (is_marker_no_overlap d j k) in Hk1; done. }
  rewrite filter_cons.
  rewrite !filter_cons_False, filter_nil by (apply Hskip; lia).
  destruct (header_ok (header_at d j)) eqn:Hok.
  - rewrite decide_True; [done | repeat split; auto; lia].
  - rewrite decide_False; [done|]. intros (_ & _ & _ & ?). congruence.
Qed.

Lemma scan_visit_out d j st :
  ss_out (scan_visit d j st) =
    ss_out st ++ (header_at d <$> (if header_ok (header_at d j) then [j] else [])).
Proof.
  unfold scan_visit. destruct (header_ok (header_at d j)); simpl.
  - done.
  - by rewrite app_nil_r.
Qed.

Lemma scan_loop_S fuel d n i st :
  scan_loop (S fuel) d n i st =
    match find_marker (S (Z.to_nat n)) d n i with
    | None => None
    | Some j =>
        if n <? j + 32 then Some st
        else scan_loop fuel d n (j + 4) (scan_visit d j st)
    end.
Proof. reflexivity. Qed.

(** The scan loop never runs out of the fuel it is given, and what it adds to
    [out] are the headers at the accepted positions, in ascending order of
    position. *)
Lemma scan_loop_spec d n fuel i st :
  0 ≤ i → (Z.to_nat (n - i) < fuel)%nat →
  ∃ st', scan_loop fuel d n i st = Some st'
         ∧ ss_out st' = ss_out st ++ (header_at d <$> accepted_from d n i).
Proof.
  revert i st. induction fuel as [|fuel IH]; intros i st Hi Hf; [lia|].
  rewrite scan_loop_S.
  destruct (find_marker_spec d n (S (Z.to_nat n)) i) as (j & -> & Hij & Hno & Hat);
    [lia|].
  destruct (Z.ltb_spec n (j + 32)) as [Hlt | Hge].
  - exists st. split; [done|].
    rewrite (accepted_from_nil d n i j) by done. simpl. by rewrite app_nil_r.
  - destruct (IH (j + 4) (scan_visit d j st)) as (st' & Hrun & Hout); [lia | lia |].
    exists st'. split; [done|].
    rewrite Hout, scan_visit_out, (accepted_from_step d n i j) by (auto; apply Hat; lia).
    by rewrite fmap_app, app_assoc.
Qed.

Lemma scan_raw_spec d log :
  ∃ st, scan_raw d log = Some st
        ∧ ss_out st = header_at d <$> accepted_from d (Z.of_nat (length d)) 0.
Proof.
  unfold scan_raw.
  destruct (scan_loop_spec d (Z.of_nat (length d)) (S (Z.to_nat (Z.of_nat (length d))))
              0 (scan_init log)) as (st & Hrun & Hout); [lia | lia |].
  exists st. split; [done|]. by rewrite Hout.
Qed.


(** ** Sort and dedupe *)

Lemma dedupe_step_inv items r st :
  (r < length items)%nat →
  dedupe_inv items r st → dedupe_inv items (S r) (dedupe_step st r).
Proof.
  destruct st as [it w]. unfold dedupe_inv. simpl.
  intros Hr (Hlen & Hw & Hdrop & Hkeep).
  destruct (lookup_lt_is_Some_2 items r Hr) as [x Hx].
  assert (Hitx : it !! r = Some x).
  { rewrite <- (Nat.add_0_r r), <- lookup_drop, Hdrop, lookup_drop, Nat.add_0_r. done. }
  rewrite (drop_S items x r Hx) in Hkeep.
  assert (Hdrop' : drop (S r) it = drop (S r) items).
  { rewrite (drop_S it x r Hitx), (drop_S items x r Hx) in Hdrop. congruence. }
  rewrite Hitx.
  assert (Hlast : last (take w it) = if bool_decide (w = 0%nat) then None else it !! (w - 1)%nat).
  { rewrite last_lookup, length_take_le by lia. case_bool_decide as Hw0.
    - subst w. done.
    - rewrite lookup_take_lt by lia. f_equal. lia. }
  rewrite Hlast in Hkeep. simpl in Hkeep.
  destruct (bool_decide (w = 0%nat)
            || negb (bool_decide (Some (lvz_off x) = lvz_off <$> it !! (w - 1)%nat)))
    eqn:Hc; simpl.
  - rewrite length_insert. repeat split; [done | lia | |].
    + rewrite drop_insert_lt by lia. done.
    + assert (Htake : take (S w) (<[w:=x]> it) = take w it ++ [x]).
      { rewrite (take_S_r _ _ x) by (apply list_lookup_insert_eq; lia).
        rewrite take_insert_ge by lia. done. }
      rewrite Htake, last_snoc. simpl. rewrite <- Hkeep, <- app_assoc. f_equal.
      rewrite bool_decide_eq_false_2; [done|].
      case_bool_decide as Hw0; [done|]. simpl in Hc.
      apply negb_true_iff, bool_decide_eq_false in Hc. congruence.
  - repeat split; [done | lia | done |].
    rewrite Hlast. rewrite <- Hkeep. f_equal.
    apply orb_false_iff in Hc as [Hw0 Hc]. rewrite Hw0.
    apply negb_false_iff, bool_decide_eq_true in Hc.
    rewrite bool_decide_eq_true_2; [done | congruence].
Qed.

Lemma dedupe_fold_inv items k r st :
  (r + k = length items)%nat →
  dedupe_inv items r st →
  dedupe_inv items (r + k) (foldl dedupe_step st (seq r k)).
Proof.
  revert r st. induction k as [|k IH]; intros r st Hk Hinv; simpl.
  - by rewrite Nat.add_0_r.
  - replace (r + S k)%nat with (S r + k)%nat by lia.
    apply IH; [lia|]. apply dedupe_step_inv; [lia | done].
Qed.

(** The in-place compaction computes the collapse of the specification. *)
Lemma dedupe_refines items : dedupe items = dedupe_from None items.
Proof.
  unfold dedupe.
  pose proof (dedupe_fold_inv items (length items) 0 (items, 0%nat)) as Hinv.
  destruct (foldl dedupe_step (items, 0%nat) (seq 0 (length items))) as [it w].
  destruct Hinv as (Hlen & Hw & Hdrop & Hkeep); [done | |].
  { unfold dedupe_inv. simpl. by rewrite drop_0. }
  simpl in *. rewrite drop_all in Hkeep. simpl in Hkeep.
  by rewrite app_nil_r in Hkeep.
Qed.

Lemma cmp_le_iff x y : cmp_le x y ↔ lvz_off x ≤ lvz_off y.
Proof.
  unfold cmp_le, cmp_by_lvz_off.
  destruct (Z.ltb_spec (lvz_off x) (lvz_off y));
    destruct (Z.ltb_spec (lvz_off y) (lvz_off x)); lia.
Qed.

#[local] Instance cmp_le_trans : Transitive cmp_le.
Proof. intros x y z. rewrite !cmp_le_iff. lia. Qed.

#[local] Instance cmp_le_total : Total cmp_le.
Proof. intros x y. rewrite !cmp_le_iff. lia. Qed.

Lemma dedupe_from_sublist p l : dedupe_from p l `sublist_of` l.
Proof.
  revert p. induction l as [|x l IH]; intros p; simpl; [done|].
  case_bool_decide.
  - by apply sublist_cons.
  - by apply sublist_skip.
Qed.

Lemma dedupe_from_offsets p l x :
  x ∈ l → p = Some (lvz_off x) ∨ lvz_off x ∈ lvz_off <$> dedupe_from p l.
Proof.
  revert p. induction l as [|y l IH]; intros p Hx; [by inv Hx|].
  simpl. inv Hx.
  - case_bool_decide; [by left | right; simpl; left].
  - case_bool_decide.
    + by apply IH.
    + destruct (IH (Some (lvz_off y))) as [Heq | Hin]; [done | |].
      * right. simpl. injection Heq as ->. left.
      * right. simpl. by right.
Qed.

Lemma dedupe_from_ascending p l :
  StronglySorted cmp_le l →
  (∀ o, p = Some o → Forall (λ x, o ≤ lvz_off x) l) →
  strictly_ascending (dedupe_from p l)
  ∧ ∀ o, p = Some o → Forall (λ x, o < lvz_off x) (dedupe_from p l).
Proof.
  unfold strictly_ascending.
  revert p. induction l as [|x l IH]; intros p Hs Hp; simpl.
  { split; [constructor | by constructor]. }
  apply StronglySorted_cons in Hs as [Hx Hs].
  assert (Hx' : Forall (λ y, lvz_off x ≤ lvz_off y) l).
  { eapply Forall_impl; [done|]. intros y. by rewrite cmp_le_iff. }
  case_bool_decide as Hpx.
  - apply IH; [done|]. intros o Ho. by eapply Forall_cons_1, Hp.
  - destruct (IH (Some (lvz_off x)) Hs) as [IH1 IH2].
    { by intros o [= <-]. }
    specialize (IH2 _ eq_refl). split.
    + by constructor.
    + intros o Ho. specialize (Hp o Ho). apply Forall_cons_1 in Hp as [Hox _].
      assert (o ≠ lvz_off x) by congruence.
      constructor; [lia|]. eapply Forall_impl; [done|]. simpl. lia.
Qed.

Lemma dedupe_from_first p l h :
  StronglySorted cmp_le l →
  (∀ o, p = Some o → Forall (λ x, o ≤ lvz_off x) l) →
  h ∈ dedupe_from p l → first_with_offset h l.
Proof.
  unfold first_with_offset.
  revert p. induction l as [|x l IH]; intros p Hs Hp; simpl; [by inversion 1|].
  apply StronglySorted_cons in Hs as [Hx Hs].
  assert (Hx' : Forall (λ y, lvz_off x ≤ lvz_off y) l).
  { eapply Forall_impl; [done|]. intros y. by rewrite cmp_le_iff. }
  assert (Hlater : h ∈ dedupe_from (Some (lvz_off x)) l →
            ∃ l1 l2, x :: l = l1 ++ h :: l2 ∧ ∀ y, y ∈ l1 → lvz_off y ≠ lvz_off h).
  { intros Hh.
    destruct (IH (Some (lvz_off x)) Hs) as (l1 & l2 & -> & Hl1); [by intros o [= <-] | done |].
    destruct (dedupe_from_ascending (Some (lvz_off x)) (l1 ++ h :: l2) Hs) as [_ Hgt].
    { by intros o [= <-]. }
    specialize (Hgt _ eq_refl). rewrite Forall_forall in Hgt. specialize (Hgt h Hh).
    exists (x :: l1), l2. split; [done|].
    intros y Hy. inv Hy; [lia | by apply Hl1]. }
  case_bool_decide as Hpx.
  - subst p. exact Hlater.
  - intros Hh. inv Hh; [|by apply Hlater].
    exists [], l. split; [done|]. by inversion 1.
Qed.

Lemma strictly_ascending_NoDup hs :
  strictly_ascending hs → NoDup (lvz_off <$> hs).
Proof.
  induction 1 as [|x l Hs IH Hx]; simpl; constructor; [|done].
  rewrite list_elem_of_fmap. intros (y & Hxy & Hy).
  rewrite Forall_forall in Hx. specialize (Hx y Hy). lia.
Qed.

Lemma strictly_ascending_inj hs x y :
  strictly_ascending hs → x ∈ hs → y ∈ hs → lvz_off x = lvz_off y → x = y.
Proof.
  induction 1 as [|z l Hs IH Hz]; intros Hx Hy Hxy; [by inv Hx|].
  rewrite Forall_forall in Hz.
  inv Hx; inv Hy; auto.
  - match goal with H : y ∈ l |- _ => specialize (Hz y H) end. lia.
  - match goal with H : x ∈ l |- _ => specialize (Hz x H) end. lia.
Qed.

Lemma strictly_ascending_cmp_le hs :
  strictly_ascending hs → StronglySorted cmp_le hs.
Proof.
  induction 1 as [|x l Hs IH Hx]; constructor; [done|].
  eapply Forall_impl; [done|]. intros y Hy. apply cmp_le_iff. simpl in Hy. lia.
Qed.

Lemma ascending_Z_unique (l1 l2 : list Z) :
  StronglySorted Z.lt l1 → StronglySorted Z.lt l2 →
  (∀ x, x ∈ l1 ↔ x ∈ l2) → l1 = l2.
Proof.
  intros H1 H2 Hel.
  assert (Hnd : ∀ l, StronglySorted Z.lt l → NoDup l).
  { induction 1 as [|x l Hs IH Hx]; constructor; [|done].
    intros Hin. rewrite Forall_forall in Hx. specialize (Hx x Hin). lia. }
  apply (StronglySorted_unique_strong Z.lt); [intros; lia | done | done |].
  apply NoDup_Permutation; auto.
Qed.

Lemma lib_qsort_perm l : lib_qsort l ≡ₚ l.
Proof. apply merge_sort_Permutation. Qed.

Lemma lib_qsort_sorted l : Sorted cmp_le (lib_qsort l).
Proof. apply Sorted_merge_sort. apply _. Qed.

Lemma lib_qsort_sorts : sorts_by_offset lib_qsort.
Proof. split; [apply lib_qsort_perm | apply lib_qsort_sorted]. Qed.

Section finalize.
(** The C library's [qsort] with [cmp_by_lvz_off]: any function that
    rearranges the array so that consecutive items compare in order. *)
Variable qsort : list WrldHeader → list WrldHeader.
Hypothesis qsort_perm : ∀ l, qsort l ≡ₚ l.
Hypothesis qsort_sorted : ∀ l, Sorted cmp_le (qsort l).

Lemma qsort_strongly_sorted l : StronglySorted cmp_le (qsort l).
Proof. apply Sorted_StronglySorted; [apply _ | apply qsort_sorted]. Qed.

Lemma finalize_refines hs : finalize qsort hs = dedupe_from None (qsort hs).
Proof. apply dedupe_refines. Qed.

Lemma finalize_ascending hs : strictly_ascending (finalize qsort hs).
Proof.
  rewrite finalize_refines.
  apply dedupe_from_ascending; [apply qsort_strongly_sorted | done].
Qed.

Lemma finalize_subset hs h : h ∈ finalize qsort hs → h ∈ hs.
Proof.
  rewrite finalize_refines. intros Hh. rewrite <- (qsort_perm hs).
  eapply elem_of_sublist; [done | apply dedupe_from_sublist].
Qed.

Lemma finalize_offsets hs o :
  o ∈ lvz_off <$> finalize qsort hs ↔ o ∈ lvz_off <$> hs.
Proof.
  rewrite !list_elem_of_fmap. split.
  - intros (h & -> & Hh). exists h. split; [done | by apply finalize_subset].
  - intros (h & -> & Hh). apply list_elem_of_fmap. rewrite finalize_refines.
    rewrite <- (qsort_perm hs) in Hh.
    by destruct (dedupe_from_offsets None _ _ Hh).
Qed.

(** A sequence that is already strictly ascending comes out unchanged. *)
Lemma finalize_ascending_id hs : strictly_ascending hs → finalize qsort hs = hs.
Proof.
  intros Hs.
  assert (Hq : qsort hs = hs).
  { apply (StronglySorted_unique_strong cmp_le);
      [| apply qsort_strongly_sorted | by apply strictly_ascending_cmp_le
       | apply qsort_perm].
    intros x y Hx Hy Hxy Hyx. rewrite qsort_perm in Hx.
    apply (strictly_ascending_inj hs); auto.
    apply cmp_le_iff in Hxy, Hyx. lia. }
  rewrite finalize_refines, Hq. clear Hq.
  enough (Hgen : ∀ p, (∀ o, p = Some o → Forall (λ x, o < lvz_off x) hs) →
                      dedupe_from p hs = hs) by by apply Hgen.
  induction Hs as [|x l Hs IH Hx]; intros p Hp; simpl; [done|].
  rewrite bool_decide_eq_false_2.
  - f_equal. apply IH. by intros o [= <-].
  - intros Heq. specialize (Hp _ Heq). apply Forall_cons_1 in Hp as [? _]. lia.
Qed.

End finalize.

(** Which entry of the input the first of the sorted array is, is up to
    [qsort]: C leaves the order of entries that compare equal unspecified.
    When the sort has kept their order it is the first of the input. *)
Lemma first_with_offset_filter h l :
  first_with_offset h l ↔ head (filter (λ x, lvz_off x = lvz_off h) l) = Some h.
Proof.
  unfold first_with_offset. split.
  - intros (l1 & l2 & -> & Hl1). rewrite filter_app.
    rewrite (filter_none _ l1) by (intros x Hx; by apply Hl1).
    simpl. by rewrite filter_cons_True.
  - induction l as [|x l IH]; [done|]. rewrite filter_cons.
    case_decide as Hx; simpl.
    + intros [= ->]. exists [], l. split; [done|]. by inversion 1.
    + intros Hh. destruct (IH Hh) as (l1 & l2 & -> & Hl1).
      exists (x :: l1), l2. split; [done|].
      intros y Hy. inv Hy; [done | by apply Hl1].
Qed.

Lemma finalize_first_of_sorted qsort hs h :
  sorts_by_offset qsort →
  h ∈ finalize qsort hs → first_with_offset h (qsort hs).
Proof.
  intros [Hperm Hsorted] Hh. rewrite finalize_refines in Hh.
  eapply dedupe_from_first; [by apply qsort_strongly_sorted | | done]. done.
Qed.

Lemma finalize_first_of_input qsort hs h :
  sorts_by_offset qsort → stable_on qsort hs →
  h ∈ finalize qsort hs → first_with_offset h hs.
Proof.
  intros Hsorts Hstable Hh.
  apply first_with_offset_filter. rewrite <- Hstable.
  apply first_with_offset_filter. by apply finalize_first_of_sorted.
Qed.

Lemma backward_qsort_sorts : sorts_by_offset backward_qsort.
Proof.
  split; intros l; unfold backward_qsort.
  - by rewrite merge_sort_Permutation, reverse_Permutation.
  - apply Sorted_merge_sort. apply _.
Qed.

(** The library's sort has kept the order of the two entries at offset 5. *)
Lemma lib_qsort_stable_on_dup_headers : stable_on lib_qsort dup_headers.
Proof.
  intros o.
  change (lib_qsort dup_headers)
    with [plain_header 3 3; plain_header 5 1; plain_header 5 2; plain_header 9 4].
  unfold dup_headers. rewrite !filter_cons, !filter_nil. simpl.
  repeat case_decide; try done; lia.
Qed.

(** C4.  For every sequence of headers, sort and dedupe leave a collection
    that is ascending by [lvz_off] with no offset twice and that holds
    exactly the offsets of the input.  Its entry for an offset is an entry of
    the input: the first with that offset in the order [qsort] left them,
    and so the first occurrence in the input whenever [qsort] has kept the
    input order of the entries with equal offset, as a stable sort does.
    Headers with offsets 5, 5, 3, 9 come out with offsets 3, 5, 9. *)
Theorem finalize_sorted_unique qsort hs :
  sorts_by_offset qsort →
  strictly_ascending (finalize qsort hs)
  ∧ NoDup (lvz_off <$> finalize qsort hs)
  ∧ (∀ o, o ∈ lvz_off <$> finalize qsort hs ↔ o ∈ lvz_off <$> hs)
  ∧ (∀ h, h ∈ finalize qsort hs → h ∈ hs ∧ first_with_offset h (qsort hs))
  ∧ (stable_on qsort hs → ∀ h, h ∈ finalize qsort hs → first_with_offset h hs)
  ∧ (lvz_off <$> hs ≡ₚ [5; 5; 3; 9] → lvz_off <$> finalize qsort hs = [3; 5; 9]).
Proof.
  intros Hsorts. pose proof Hsorts as [Hperm Hsorted].
  pose proof (finalize_ascending qsort Hsorted hs) as Hasc.
  split; [exact Hasc|].
  split; [by apply strictly_ascending_NoDup|].
  split; [apply (finalize_offsets qsort Hperm)|].
  split; [|split].
  - intros h Hh. split; [by apply (finalize_subset qsort Hperm)|].
    by apply finalize_first_of_sorted.
  - intros Hstable h Hh. by apply (finalize_first_of_input qsort).
  - intros Hoffs. apply ascending_Z_unique.
    + eapply (StronglySorted_fmap lvz_off); [|exact Hasc]. done.
    + repeat constructor; lia.
    + intros o. rewrite (finalize_offsets qsort Hperm), Hoffs.
      rewrite !elem_of_cons, !elem_of_nil. tauto.
Qed.

(** On the headers with offsets 5, 5, 3, 9 and the library's sort, which has
    kept the order of the two at offset 5, the entry kept there is the first
    of the input. *)
Lemma finalize_sorted_unique_witness :
  (strictly_ascending (finalize lib_qsort dup_headers)
   ∧ NoDup (lvz_off <$> finalize lib_qsort dup_headers)
   ∧ (∀ o, o ∈ lvz_off <$> finalize lib_qsort dup_headers ↔ o ∈ lvz_off <$> dup_headers)
   ∧ (∀ h, h ∈ finalize lib_qsort dup_headers →
           h ∈ dup_headers ∧ first_with_offset h (lib_qsort dup_headers))
   ∧ (stable_on lib_qsort dup_headers →
      ∀ h, h ∈ finalize lib_qsort dup_headers → first_with_offset h dup_headers)
   ∧ (lvz_off <$> dup_headers ≡ₚ [5; 5; 3; 9] →
      lvz_off <$> finalize lib_qsort dup_headers = [3; 5; 9]))
  ∧ stable_on lib_qsort dup_headers
  ∧ lvz_off <$> dup_headers ≡ₚ [5; 5; 3; 9].
Proof.
  split; [|split].
  - apply (finalize_sorted_unique lib_qsort dup_headers). exact lib_qsort_sorts.
  - exact lib_qsort_stable_on_dup_headers.
  - reflexivity.
Defined.

(** The two runs on the headers with offsets 5, 5, 3, 9: the entry kept at
    offset 5 is the one the sort put first. *)
Example finalize_dup_headers :
  finalize lib_qsort dup_headers = [plain_header 3 3; plain_header 5 1; plain_header 9 4].
Proof. vm_compute. reflexivity. Qed.

Example finalize_dup_headers_backward :
  finalize backward_qsort dup_headers
  = [plain_header 3 3; plain_header 5 2; plain_header 9 4].
Proof. vm_compute. reflexivity. Qed.

(** C4 fails as stated, with the first occurrence taken in the input: a
    sorting function that meets the contract of [qsort] can put the second of
    the two entries at offset 5 first, and then that one is kept, which is
    not the first entry of the input with its offset. *)
Lemma finalize_keeps_later_entry :
  sorts_by_offset backward_qsort
  ∧ dup_headers = [plain_header 5 1; plain_header 5 2; plain_header 3 3; plain_header 9 4]
  ∧ finalize backward_qsort dup_headers
    = [plain_header 3 3; plain_header 5 2; plain_header 9 4]
  ∧ plain_header 5 2 ∈ finalize backward_qsort dup_headers
  ∧ ¬ first_with_offset (plain_header 5 2) dup_headers.
Proof.
  split; [exact backward_qsort_sorts|]. split; [reflexivity|].
  assert (Hrun : finalize backward_qsort dup_headers
                 = [plain_header 3 3; plain_header 5 2; plain_header 9 4])
    by (vm_compute; reflexivity).
  split; [exact Hrun|]. split.
  - rewrite Hrun. rewrite !elem_of_cons. right. by left.
  - rewrite first_with_offset_filter. vm_compute. discriminate.
Qed.


(** ** The scanner's output collection *)

Lemma elem_of_accepted_from d n j : j ∈ accepted_from d n 0 ↔ accepted d n j.
Proof.
  unfold accepted_from. rewrite list_elem_of_filter, elem_of_seqZ.
  unfold accepted. split; [tauto|]. intros (? & ? & ? & ?). repeat split; auto; lia.
Qed.

Lemma StronglySorted_sublist {A} (R : relation A) (l1 l2 : list A) :
  l1 `sublist_of` l2 → StronglySorted R l2 → StronglySorted R l1.
Proof.
  induction 1 as [|x l1 l2 Hsub IH|x l1 l2 Hsub IH]; intros Hs; [done| |].
  - apply StronglySorted_cons in Hs as [Hx Hs]. constructor; [by apply IH|].
    rewrite Forall_forall in Hx |- *. intros y Hy. apply Hx.
    by eapply elem_of_sublist.
  - apply StronglySorted_cons in Hs as [_ Hs]. by apply IH.
Qed.

Lemma seqZ_ascending m k : StronglySorted Z.lt (seqZ m k).
Proof.
  destruct (Z.le_gt_cases k 0) as [Hk | Hk].
  { rewrite seqZ_nil by done. constructor. }
  rewrite <- (Z2Nat.id k) by lia. generalize (Z.to_nat k). clear. intros n.
  revert m. induction n as [|n IH]; intros m.
  { rewrite seqZ_nil by done. constructor. }
  rewrite seqZ_cons by lia. constructor.
  - replace (Z.pred (Z.of_nat (S n))) with (Z.of_nat n) by lia. apply IH.
  - apply Forall_forall. intros x Hx. apply elem_of_seqZ in Hx. lia.
Qed.

Lemma accepted_from_ascending d n i : StronglySorted Z.lt (accepted_from d n i).
Proof.
  eapply StronglySorted_sublist; [apply sublist_filter | apply seqZ_ascending].
Qed.

Lemma to_u32_small j : 0 ≤ j < U32_MOD → to_u32 j = j.
Proof. intros. unfold to_u32. by apply Z.mod_small. Qed.

(** When every match position fits 32 bits the scan yields the headers in
    strictly ascending order of [lvz_off]. *)
Lemma scan_raw_ascending d :
  offsets_fit_u32 d →
  strictly_ascending (header_at d <$> accepted_from d (Z.of_nat (length d)) 0).
Proof.
  intros Hfit. unfold strictly_ascending.
  assert (Hin : Forall (accepted d (Z.of_nat (length d)))
                  (accepted_from d (Z.of_nat (length d)) 0)).
  { apply Forall_forall. intros j. by rewrite elem_of_accepted_from. }
  induction (accepted_from_ascending d (Z.of_nat (length d)) 0)
    as [|j l Hs IH Hj]; simpl; [constructor|].
  apply Forall_cons_1 in Hin as [Hacc Hin].
  constructor; [by apply IH|].
  rewrite Forall_fmap. rewrite Forall_forall in Hj, Hin |- *.
  intros k Hk. specialize (Hj k Hk). specialize (Hin k Hk). simpl.
  destruct Hacc as (? & _ & ? & _), Hin as (? & _ & ? & _).
  unfold offsets_fit_u32 in Hfit. rewrite !to_u32_small by lia. done.
Qed.

Section scanner_output.
Variable qsort : list WrldHeader → list WrldHeader.
Hypothesis qsort_perm : ∀ l, qsort l ≡ₚ l.
Hypothesis qsort_sorted : ∀ l, Sorted cmp_le (qsort l).

(** [scan_slave_headers] returns on every buffer: the collection is the
    sorted, deduped sequence of the headers at the accepted positions. *)
Lemma scan_slave_headers_spec d log :
  ∃ log',
    scan_slave_headers qsort d log =
      Some (finalize qsort (header_at d <$> accepted_from d (Z.of_nat (length d)) 0),
            log').
Proof.
  unfold scan_slave_headers.
  destruct (scan_raw_spec d log) as (st & Hrun & Hout).
  rewrite Hrun. simpl. rewrite Hout. eauto.
Qed.

Lemma scan_headers_accepted d log out log' h :
  scan_slave_headers qsort d log = Some (out, log') →
  h ∈ out → ∃ j, accepted d (Z.of_nat (length d)) j ∧ h = header_at d j.
Proof.
  destruct (scan_slave_headers_spec d log) as (log1 & ->). intros [= <- <-] Hh.
  apply (finalize_subset qsort qsort_perm) in Hh.
  apply list_elem_of_fmap in Hh as (j & -> & Hj).
  exists j. split; [by apply elem_of_accepted_from | done].
Qed.

Lemma scan_headers_offsets d log out log' j :
  scan_slave_headers qsort d log = Some (out, log') →
  accepted d (Z.of_nat (length d)) j → header_at_offset out (to_u32 j).
Proof.
  destruct (scan_slave_headers_spec d log) as (log1 & ->). intros [= <- <-] Hj.
  assert (Ho : to_u32 j ∈ lvz_off <$>
            finalize qsort (header_at d <$> accepted_from d (Z.of_nat (length d)) 0)).
  { apply (finalize_offsets qsort qsort_perm).
    apply list_elem_of_fmap. exists (header_at d j). split; [done|].
    apply list_elem_of_fmap. exists j. split; [done|].
    by apply elem_of_accepted_from. }
  apply list_elem_of_fmap in Ho as (h & Hoff & Hh). by exists h.
Qed.

(** Every header handed to [write_wrld] lies inside the buffer. *)
Lemma scan_headers_in_buffer d log out log' h :
  scan_slave_headers qsort d log = Some (out, log') →
  h ∈ out → 0 ≤ lvz_off h ∧ lvz_off h + 32 ≤ Z.of_nat (length d).
Proof.
  intros Hrun Hh.
  destruct (scan_headers_accepted d log out log' h Hrun Hh)
    as (j & (Hj0 & _ & Hj & _) & ->).
  simpl. unfold to_u32, U32_MOD.
  pose proof (Z.mod_pos_bound j (2 ^ 32) ltac:(lia)).
  pose proof (Z.mod_le j (2 ^ 32) ltac:(lia) ltac:(lia)). lia.
Qed.

(** On a buffer whose match positions fit 32 bits, sort and dedupe change
    nothing: the collection is the headers at the accepted positions in
    scan order. *)
Lemma scan_slave_headers_fit d log :
  offsets_fit_u32 d →
  ∃ log',
    scan_slave_headers qsort d log =
      Some (header_at d <$> accepted_from d (Z.of_nat (length d)) 0, log').
Proof.
  intros Hfit. destruct (scan_slave_headers_spec d log) as (log' & ->).
  exists log'. rewrite (finalize_ascending_id qsort qsort_perm qsort_sorted); [done|].
  by apply scan_raw_ascending.
Qed.
End scanner_output.

(** *** Reading through a concatenation *)

Lemma byte_at_app_l l1 l2 c :
  0 ≤ c < Z.of_nat (length l1) → byte_at (l1 ++ l2) c = byte_at l1 c.
Proof. intros Hc. unfold byte_at. rewrite lookup_app_l by lia. done. Qed.

Lemma byte_at_app_r l1 l2 c :
  0 ≤ c → byte_at (l1 ++ l2) (Z.of_nat (length l1) + c) = byte_at l2 c.
Proof.
  intros Hc. unfold byte_at. rewrite lookup_app_r by lia.
  do 2 f_equal. lia.
Qed.

Lemma read_u32le_app_l l1 l2 c :
  0 ≤ c → c + 4 ≤ Z.of_nat (length l1) →
  read_u32le (l1 ++ l2) c = read_u32le l1 c.
Proof. intros. unfold read_u32le. rewrite !byte_at_app_l by lia. done. Qed.

Lemma read_u32le_app_r l1 l2 c :
  0 ≤ c → read_u32le (l1 ++ l2) (Z.of_nat (length l1) + c) = read_u32le l2 c.
Proof.
  intros. unfold read_u32le. rewrite <- !Z.add_assoc.
  rewrite !byte_at_app_r by lia. done.
Qed.

Lemma is_marker_app_l l1 l2 c :
  0 ≤ c → c + 4 ≤ Z.of_nat (length l1) →
  is_marker (l1 ++ l2) c = is_marker l1 c.
Proof. intros. unfold is_marker. rewrite !byte_at_app_l by lia. done. Qed.

Lemma is_marker_app_r l1 l2 c :
  0 ≤ c → is_marker (l1 ++ l2) (Z.of_nat (length l1) + c) = is_marker l2 c.
Proof.
  intros. unfold is_marker. rewrite <- !Z.add_assoc.
  rewrite !byte_at_app_r by lia. done.
Qed.

Lemma header_ok_app_r l1 l2 c :
  0 ≤ c →
  header_ok (header_at (l1 ++ l2) (Z.of_nat (length l1) + c))
  = header_ok (header_at l2 c).
Proof.
  intros. unfold header_ok, header_at. simpl. rewrite <- !Z.add_assoc.
  rewrite !read_u32le_app_r by lia. done.
Qed.

(** *** The buffer of [2^32 + 32] bytes *)

Lemma pad_len_Z : Z.of_nat pad_len = U32_MOD - 32.
Proof. unfold pad_len. rewrite Z2Nat.id; [reflexivity | by compute]. Qed.

#[global] Opaque pad_len.

Lemma wide_buffer_split :
  wide_buffer = (wide_head ++ replicate pad_len "000"%byte) ++ wide_tail
  ∧ Z.of_nat (length (wide_head ++ replicate pad_len "000"%byte)) = U32_MOD.
Proof.
  split.
  - unfold wide_buffer. by rewrite app_assoc.
  - rewrite length_app, length_replicate, Nat2Z.inj_add, pad_len_Z.
    change (Z.of_nat (length wide_head)) with 32. lia.
Qed.

Lemma wide_buffer_length : Z.of_nat (length wide_buffer) = U32_MOD + 32.
Proof.
  destruct wide_buffer_split as [-> Hlen].
  rewrite length_app, Nat2Z.inj_add, Hlen. reflexivity.
Qed.

(** The header at [2^32] passes the scanner's checks. *)
Lemma wide_buffer_accepted :
  accepted wide_buffer (Z.of_nat (length wide_buffer)) U32_MOD.
Proof.
  unfold accepted. rewrite wide_buffer_length.
  destruct wide_buffer_split as [-> Hlen].
  pose proof (is_marker_app_r (wide_head ++ replicate pad_len "000"%byte)
                wide_tail 0 ltac:(lia)) as Hm.
  pose proof (header_ok_app_r (wide_head ++ replicate pad_len "000"%byte)
                wide_tail 0 ltac:(lia)) as Hok.
  rewrite Hlen, Z.add_0_r in Hm, Hok. rewrite Hm, Hok.
  repeat split; [by compute | lia].
Qed.

Lemma wide_buffer_head :
  is_marker wide_buffer 0 = true ∧ read_u32le wide_buffer 0x08 = 0.
Proof.
  unfold wide_buffer.
  rewrite is_marker_app_l, read_u32le_app_l by (change (length wide_head) with 32%nat; lia).
  split; reflexivity.
Qed.

(** *** The claims about the scanner *)

Lemma header_ok_fields d j :
  header_ok (header_at d j) = true ↔
  32 ≤ read_u32le d (j + 0x08) ∧ read_u32le d (j + 0x18) ≠ 0.
Proof.
  unfold header_ok, header_at. simpl.
  rewrite andb_true_iff, negb_true_iff, Z.leb_le, Z.eqb_neq. done.
Qed.

(** C1, as amended.  On a buffer whose match positions fit the 32-bit
    [lvz_off] field (fewer than [2^32 + 32] bytes), a marker at position [j]
    has a header at offset [j] in the scanner's output if and only if
    [j + 32 <= len], the word at [j + 0x08] is at least 32 and the word at
    [j + 0x18] is not zero. *)
Theorem scanner_validity_filter qsort d log j :
  sorts_by_offset qsort → offsets_fit_u32 d →
  0 ≤ j → is_marker d j = true →
  ∃ out log',
    scan_slave_headers qsort d log = Some (out, log')
    ∧ (header_at_offset out j ↔
         j + 32 ≤ Z.of_nat (length d)
         ∧ 32 ≤ read_u32le d (j + 0x08)
         ∧ read_u32le d (j + 0x18) ≠ 0).
Proof.
  intros [Hperm Hsorted] Hfit Hj Hm.
  destruct (scan_slave_headers_fit qsort Hperm Hsorted d log Hfit) as (log' & Hrun).
  eexists _, log'. split; [exact Hrun|].
  unfold header_at_offset, offsets_fit_u32 in *. split.
  - intros (h & Hh & Hoff).
    apply list_elem_of_fmap in Hh as (k & -> & Hk).
    apply elem_of_accepted_from in Hk as (Hk0 & _ & Hkn & Hok).
    simpl in Hoff. rewrite to_u32_small in Hoff by lia. subst k.
    apply header_ok_fields in Hok. tauto.
  - intros (Hn & Hok). apply header_ok_fields in Hok.
    exists (header_at d j). split.
    + apply list_elem_of_fmap. exists j. split; [done|].
      apply elem_of_accepted_from. by repeat split.
    + simpl. apply to_u32_small. lia.
Qed.

Lemma scanner_validity_filter_witness :
  ∃ out log',
    scan_slave_headers lib_qsort two_records None = Some (out, log')
    ∧ (header_at_offset out 32 ↔
         32 + 32 ≤ Z.of_nat (length two_records)
         ∧ 32 ≤ read_u32le two_records (32 + 0x08)
         ∧ read_u32le two_records (32 + 0x18) ≠ 0).
Proof.
  apply (scanner_validity_filter lib_qsort two_records None 32).
  - exact lib_qsort_sorts.
  - unfold offsets_fit_u32. vm_compute. reflexivity.
  - lia.
  - vm_compute. reflexivity.
Defined.

(** C1 fails as stated on a buffer of [2^32 + 32] bytes: the marker at 0 has
    [total_size = 0], yet the output has a header whose [lvz_off] is 0, the
    one found at position [2^32]. *)
Lemma scanner_validity_filter_wide_buffer :
  is_marker wide_buffer 0 = true
  ∧ read_u32le wide_buffer (0 + 0x08) < 32
  ∧ ∃ out log',
      scan_slave_headers lib_qsort wide_buffer None = Some (out, log')
      ∧ header_at_offset out 0.
Proof.
  destruct wide_buffer_head as [Hm Ht]. split; [done|]. split.
  { change (0 + 0x08) with 8. rewrite Ht. lia. }
  destruct (scan_slave_headers_spec lib_qsort wide_buffer None) as (log' & Hrun).
  eexists _, log'. split; [exact Hrun|].
  change 0 with (to_u32 U32_MOD) at 2.
  eapply (scan_headers_offsets lib_qsort lib_qsort_perm); [exact Hrun|].
  exact wide_buffer_accepted.
Qed.

(** C9, as amended.  On a buffer whose match positions fit 32 bits, every
    collected header lies inside the buffer, starts with the marker, has
    [total_size >= 32] and [continuation != 0], and its seven fields are the
    little-endian words at [lvz_off + 0x04 .. 0x1C]. *)
Theorem scanner_output_invariant qsort d log out log' h :
  sorts_by_offset qsort → offsets_fit_u32 d →
  scan_slave_headers qsort d log = Some (out, log') →
  h ∈ out →
  0 ≤ lvz_off h ∧ lvz_off h + 32 ≤ Z.of_nat (length d)
  ∧ byte_at d (lvz_off h) = "D"%byte ∧ byte_at d (lvz_off h + 1) = "L"%byte
  ∧ byte_at d (lvz_off h + 2) = "R"%byte ∧ byte_at d (lvz_off h + 3) = "W"%byte
  ∧ 32 ≤ total_size h ∧ continuation h ≠ 0
  ∧ wrld_type h = read_u32le d (lvz_off h + 0x04)
  ∧ total_size h = read_u32le d (lvz_off h + 0x08)
  ∧ global0 h = read_u32le d (lvz_off h + 0x0C)
  ∧ global1 h = read_u32le d (lvz_off h + 0x10)
  ∧ global_count h = read_u32le d (lvz_off h + 0x14)
  ∧ continuation h = read_u32le d (lvz_off h + 0x18)
  ∧ reserved h = read_u32le d (lvz_off h + 0x1C).
Proof.
  intros [Hperm Hsorted] Hfit Hrun Hh.
  destruct (scan_headers_accepted qsort Hperm d log out log' h Hrun Hh)
    as (j & (Hj0 & Hm & Hjn & Hok) & ->).
  unfold offsets_fit_u32 in Hfit. simpl.
  rewrite to_u32_small by lia.
  apply is_marker_bytes in Hm as (? & ? & ? & ?).
  apply header_ok_fields in Hok as [? ?].
  repeat split; auto.
Qed.

Lemma scanner_output_invariant_witness :
  let h := header_at two_records 0 in
  0 ≤ lvz_off h ∧ lvz_off h + 32 ≤ Z.of_nat (length two_records)
  ∧ byte_at two_records (lvz_off h) = "D"%byte
  ∧ byte_at two_records (lvz_off h + 1) = "L"%byte
  ∧ byte_at two_records (lvz_off h + 2) = "R"%byte
  ∧ byte_at two_records (lvz_off h + 3) = "W"%byte
  ∧ 32 ≤ total_size h ∧ continuation h ≠ 0
  ∧ wrld_type h = read_u32le two_records (lvz_off h + 0x04)
  ∧ total_size h = read_u32le two_records (lvz_off h + 0x08)
  ∧ global0 h = read_u32le two_records (lvz_off h + 0x0C)
  ∧ global1 h = read_u32le two_records (lvz_off h + 0x10)
  ∧ global_count h = read_u32le two_records (lvz_off h + 0x14)
  ∧ continuation h = read_u32le two_records (lvz_off h + 0x18)
  ∧ reserved h = read_u32le two_records (lvz_off h + 0x1C).
Proof.
  intros h.
  apply (scanner_output_invariant lib_qsort two_records None
           [h] None h).
  - exact lib_qsort_sorts.
  - unfold offsets_fit_u32. vm_compute. reflexivity.
  - vm_compute. reflexivity.
  - apply list_elem_of_singleton. reflexivity.
Defined.

(** C9 fails as stated on the buffer of [2^32 + 32] bytes: the collected
    header has [total_size >= 32] while the word at its [lvz_off + 0x08] is
    0. *)
Lemma scanner_output_invariant_wide_buffer :
  ∃ out log' h,
    scan_slave_headers lib_qsort wide_buffer None = Some (out, log')
    ∧ h ∈ out
    ∧ total_size h ≠ read_u32le wide_buffer (lvz_off h + 0x08).
Proof.
  destruct (scan_slave_headers_spec lib_qsort wide_buffer None) as (log' & Hrun).
  destruct (scan_headers_offsets lib_qsort lib_qsort_perm wide_buffer None _ log'
              U32_MOD Hrun wide_buffer_accepted) as (h & Hh & Hoff).
  eexists _, log', h. split; [exact Hrun|]. split; [exact Hh|].
  destruct (scan_headers_accepted lib_qsort lib_qsort_perm wide_buffer None _ log' h
              Hrun Hh) as (j & (_ & _ & _ & Hok) & Hhj).
  rewrite <- Hhj in Hok. unfold header_ok in Hok.
  apply andb_true_iff in Hok as [Hok _]. apply Z.leb_le in Hok.
  change (to_u32 U32_MOD) with 0 in Hoff. rewrite Hoff.
  destruct wide_buffer_head as [_ Ht]. change (0 + 0x08) with 8. rewrite Ht. lia.
Qed.

(** C10.  A loop turn that stopped at a match [j] with 32 bytes left goes on
    from [j + 4].  So when positions [j] and [j'] both pass the checks and
    [j'] lies inside the 32 bytes of the header at [j], from [j + 4] on, the
    scan collects both headers and the output has a header for each offset,
    the two headers themselves when the positions fit 32 bits: the
    collection can hold headers whose 32-byte regions overlap. *)
Theorem scanner_collects_nested qsort d log j j' :
  sorts_by_offset qsort →
  accepted d (Z.of_nat (length d)) j →
  accepted d (Z.of_nat (length d)) j' →
  j + 4 ≤ j' < j + 32 →
  let n := Z.of_nat (length d) in
  (∀ fuel i st,
      find_marker (S (Z.to_nat n)) d n i = Some j →
      scan_loop (S fuel) d n i st = scan_loop fuel d n (j + 4) (scan_visit d j st))
  ∧ ∃ st out log',
      scan_raw d log = Some st
      ∧ header_at d j ∈ ss_out st ∧ header_at d j' ∈ ss_out st
      ∧ scan_slave_headers qsort d log = Some (out, log')
      ∧ header_at_offset out (to_u32 j) ∧ header_at_offset out (to_u32 j')
      ∧ (offsets_fit_u32 d → header_at d j ∈ out ∧ header_at d j' ∈ out).
Proof.
  intros [Hperm Hsorted] Hj Hj' Hjj' n. split.
  - intros fuel i st Hfind. rewrite scan_loop_S, Hfind.
    destruct Hj as (_ & _ & Hjn & _).
    destruct (Z.ltb_spec n (j + 32)); [lia | done].
  - destruct (scan_raw_spec d log) as (st & Hraw & Hout).
    destruct (scan_slave_headers_spec qsort d log) as (log' & Hrun).
    assert (Hin : ∀ k, accepted d n k → header_at d k ∈ ss_out st).
    { intros k Hk. rewrite Hout. apply list_elem_of_fmap. exists k.
      split; [done | by apply elem_of_accepted_from]. }
    eexists st, _, log'. repeat split; [done | by apply Hin | by apply Hin | exact Hrun | ..].
    + by eapply (scan_headers_offsets qsort Hperm).
    + by eapply (scan_headers_offsets qsort Hperm).
    + rename select (offsets_fit_u32 d) into Hfit.
      destruct (scan_slave_headers_fit qsort Hperm Hsorted d log Hfit) as (log1 & Hfit').
      rewrite Hfit' in Hrun. injection Hrun as <- _. rewrite <- Hout. by apply Hin.
    + rename select (offsets_fit_u32 d) into Hfit.
      destruct (scan_slave_headers_fit qsort Hperm Hsorted d log Hfit) as (log1 & Hfit').
      rewrite Hfit' in Hrun. injection Hrun as <- _. rewrite <- Hout. by apply Hin.
Qed.

Lemma scanner_collects_nested_witness :
  ∃ st out log',
    scan_raw nested_records None = Some st
    ∧ header_at nested_records 0 ∈ ss_out st
    ∧ header_at nested_records 4 ∈ ss_out st
    ∧ scan_slave_headers lib_qsort nested_records None = Some (out, log')
    ∧ header_at_offset out (to_u32 0) ∧ header_at_offset out (to_u32 4)
    ∧ (offsets_fit_u32 nested_records →
       header_at nested_records 0 ∈ out ∧ header_at nested_records 4 ∈ out).
Proof.
  apply (scanner_collects_nested lib_qsort nested_records None 0 4).
  - exact lib_qsort_sorts.
  - unfold accepted. vm_compute. intuition discriminate.
  - unfold accepted. vm_compute. intuition discriminate.
  - lia.
Defined.

(** The two runs: the overlapping headers at 0 and 4 are both in the
    collection; of the two back-to-back records only the first is. *)
Example scan_nested_records_run :
  scan_slave_headers lib_qsort nested_records (Some []) =
    Some ([mkWrldHeader 0 0x57524C44 32 32 0 0 1 1;
           mkWrldHeader 4 32 32 0 0 1 1 0],
          Some [LogScanHit 0 (mkWrldHeader 0 0x57524C44 32 32 0 0 1 1);
                LogScanHit 1 (mkWrldHeader 4 32 32 0 0 1 1 0);
                LogScanTotal 2]).
Proof. vm_compute. reflexivity. Qed.

Example scan_two_records_run :
  scan_slave_headers lib_qsort two_records (Some []) =
    Some ([mkWrldHeader 0 7 40 1 2 3 64 0],
          Some [LogScanHit 0 (mkWrldHeader 0 7 40 1 2 3 64 0); LogScanTotal 1]).
Proof. vm_compute. reflexivity. Qed.

(** ** The decompression resolver *)

(** The framings are tried in the order zlib, gzip, raw: an attempt is made
    only when the ones before it have failed, and the first success is the
    result. *)
Lemma maybe_decompress_lvz_zlib z fuel input d :
  try_inflate z fuel input 15 = Some (TryOk d) →
  maybe_decompress_lvz z fuel input = Some d.
Proof. intros H. unfold maybe_decompress_lvz. by rewrite H. Qed.

Lemma maybe_decompress_lvz_gzip z fuel input rc d :
  try_inflate z fuel input 15 = Some (TryFail rc) →
  try_inflate z fuel input (16 + 15) = Some (TryOk d) →
  maybe_decompress_lvz z fuel input = Some d.
Proof. intros H1 H2. unfold maybe_decompress_lvz. by rewrite H1, H2. Qed.

Lemma maybe_decompress_lvz_raw z fuel input rc1 rc2 d :
  try_inflate z fuel input 15 = Some (TryFail rc1) →
  try_inflate z fuel input (16 + 15) = Some (TryFail rc2) →
  try_inflate z fuel input (-15) = Some (TryOk d) →
  maybe_decompress_lvz z fuel input = Some d.
Proof. intros H1 H2 H3. unfold maybe_decompress_lvz. by rewrite H1, H2, H3. Qed.

(** C5.  When the zlib, the gzip and the raw DEFLATE attempt all fail, the
    resolver returns the input bytes unchanged. *)
Theorem maybe_decompress_lvz_verbatim z fuel input rc1 rc2 rc3 :
  try_inflate z fuel input 15 = Some (TryFail rc1) →
  try_inflate z fuel input (16 + 15) = Some (TryFail rc2) →
  try_inflate z fuel input (-15) = Some (TryFail rc3) →
  maybe_decompress_lvz z fuel input = Some input.
Proof. intros H1 H2 H3. unfold maybe_decompress_lvz. by rewrite H1, H2, H3. Qed.

Lemma maybe_decompress_lvz_verbatim_witness :
  maybe_decompress_lvz reject_zlib 1 two_records = Some two_records.
Proof.
  apply (maybe_decompress_lvz_verbatim reject_zlib 1 two_records (-2) (-2) (-2));
    vm_compute; reflexivity.
Defined.

(** A failed attempt fails for one of two reasons: the decoder could not be
    set up, or a call returned something other than [Z_OK] and
    [Z_STREAM_END]. *)
Lemma try_inflate_fail_codes z fuel input wb rc :
  try_inflate z fuel input wb = Some (TryFail rc) → rc = -1 ∨ rc = -2.
Proof.
  unfold try_inflate. destruct (inflateInit2 z wb) as [strm|]; [|intros [= <-]; by left].
  generalize (inflate_start input strm). induction fuel as [|fuel IH]; intros st; [done|].
  simpl. destruct (inflate_iter st) as [st'|r] eqn:Hiter; [by apply IH|].
  intros [= ->]. unfold inflate_iter in Hiter.
  destruct (inflate z _ _ _) as [[[ret ?] ?] ?]. destruct ret; simplify_eq. by right.
Qed.

Lemma runs_state_full_reached :
  inflate_iter (inflate_start (z := runs_zlib) (replicate 3 "001"%byte) 0)
  = inl runs_state_full.
Proof. vm_compute. reflexivity. Qed.

(** C6, as amended.  An attempt enters its loop with capacity
    [3 * input_len + 1024] computed in [size_t], raised to 4096 when that is
    smaller; a loop turn that finds the buffer used up ([total == cap])
    replaces the capacity by [2 * cap + 8192] computed in [size_t], and any
    other turn leaves it alone. *)
Theorem try_inflate_capacity (z : zlib) (input : list byte) (strm : zstream z) :
  let in_len := Z.of_nat (length input) in
  is_cap (inflate_start input strm) = Z.max ((3 * in_len + 1024) mod SIZE_MOD) 4096
  ∧ (3 * in_len + 1024 < SIZE_MOD →
     is_cap (inflate_start input strm) = Z.max (3 * in_len + 1024) 4096)
  ∧ ∀ st st' : inflate_state z,
      inflate_iter st = inl st' →
      (is_total st = is_cap st →
         is_cap st' = (2 * is_cap st + 8192) mod SIZE_MOD
         ∧ (0 ≤ is_cap st → 2 * is_cap st + 8192 < SIZE_MOD →
            is_cap st' = 2 * is_cap st + 8192))
      ∧ (is_total st ≠ is_cap st → is_cap st' = is_cap st).
Proof.
  intros in_len.
  assert (Hcap : is_cap (inflate_start input strm)
                 = Z.max ((3 * in_len + 1024) mod SIZE_MOD) 4096).
  { unfold inflate_start, initial_cap. simpl. fold in_len.
    replace (in_len * 3 + 1024) with (3 * in_len + 1024) by lia.
    destruct (Z.ltb_spec ((3 * in_len + 1024) mod SIZE_MOD) 4096); lia. }
  split; [exact Hcap|]. split.
  { intros Hfit. rewrite Hcap, Z.mod_small; [done | lia]. }
  intros st st' Hiter.
  assert (Hst' : is_cap st' = grow_cap (is_cap st) (is_total st)).
  { unfold inflate_iter in Hiter.
    destruct (inflate z _ _ _) as [[[ret ?] ?] ?]. destruct ret; simplify_eq. done. }
  rewrite Hst'. unfold grow_cap. split.
  - intros ->. rewrite Z.eqb_refl.
    replace (is_cap st * 2 + 8192) with (2 * is_cap st + 8192) by lia.
    split; [done|]. intros. apply Z.mod_small. lia.
  - intros Hne. apply Z.eqb_neq in Hne. by rewrite Hne.
Qed.

Lemma try_inflate_capacity_witness :
  is_cap (inflate_start (z := runs_zlib) (replicate 2000 "000"%byte) 0) = 7024
  ∧ ∃ st', inflate_iter runs_state_full = inl st' ∧ is_cap st' = 16384.
Proof.
  pose proof (try_inflate_capacity runs_zlib (replicate 2000 "000"%byte) 0)
    as (_ & Hstart & Hiter).
  split.
  - rewrite Hstart; vm_compute; reflexivity.
  - destruct (inflate_iter runs_state_full) as [st'|r] eqn:Hrun;
      [|vm_compute in Hrun; discriminate].
    exists st'. split; [reflexivity|].
    destruct (Hiter runs_state_full st' Hrun) as [Hfull _].
    destruct (Hfull eq_refl) as [_ Hgrow].
    rewrite Hgrow; vm_compute; [reflexivity | discriminate | reflexivity].
Defined.

(** C6 fails as stated for an input shorter than 1024 bytes: an attempt on
    the empty input starts with 4096 bytes, not with [3 * 0 + 1024]. *)
Lemma try_inflate_capacity_short_input :
  is_cap (inflate_start (z := reject_zlib) [] tt) = 4096
  ∧ 4096 ≠ 3 * Z.of_nat (length (@nil byte)) + 1024.
Proof. split; [reflexivity | by compute]. Qed.

(** ** Record reconstruction *)

Lemma copy_loop_S fuel img file left total w :
  copy_loop (S fuel) img file left total w =
    if left =? 0 then Some (total, w)
    else
      let want := if CHUNK <? left then CHUNK else left in
      let '(data, w1) := fread img want w in
      let got := Z.of_nat (length data) in
      if got =? 0 then Some (total, w1)
      else
        let w2 := w_append file data w1 in
        if got <? want then Some (total + got, w2)
        else copy_loop fuel img file (left - got) (total + got) w2.
Proof. reflexivity. Qed.

Lemma CHUNK_pos : 0 < CHUNK.
Proof. by compute. Qed.

(** The copy loop ends within the fuel [copy_img_slice] gives it, whatever
    the payload holds; it appends to the output file and touches nothing
    else but the payload stream. *)
Lemma copy_loop_total img file fuel left total w cur :
  (Z.to_nat left < fuel)%nat →
  w_files w !! file = Some cur →
  ∃ n body w',
    copy_loop fuel img file left total w = Some (n, w')
    ∧ w_files w' = <[file := cur ++ body]> (w_files w)
    ∧ w_log w' = w_log w.
Proof.
  revert left total w cur. induction fuel as [|fuel IH]; intros left total w cur Hf Hcur; [lia|].
  rewrite copy_loop_S. pose proof CHUNK_pos as HC.
  destruct (Z.eqb_spec left 0) as [-> | Hl].
  { exists total, [], w. rewrite app_nil_r, insert_id by done. done. }
  set (want := if CHUNK <? left then CHUNK else left).
  unfold fread. simpl.
  set (data := take (Z.to_nat want) (drop (Z.to_nat (w_img_pos w)) img)).
  assert (Hgot : Z.of_nat (length data) ≤ Z.max want 0).
  { subst data. rewrite length_take. lia. }
  destruct (Z.eqb_spec (Z.of_nat (length data)) 0) as [H0 | H0].
  { eexists total, [], _. split; [done|]. simpl.
    rewrite app_nil_r, insert_id by done. done. }
  set (w2 := w_append file data _).
  assert (Hw2 : w_files w2 = <[file := cur ++ data]> (w_files w)).
  { subst w2. unfold w_append, w_set_file. simpl. by rewrite Hcur. }
  destruct (Z.ltb_spec (Z.of_nat (length data)) want) as [Hlt | Hge].
  { eexists _, data, w2. split; [done|]. split; [done|]. done. }
  assert (Hwant : 0 < want ≤ left).
  { subst want. destruct (Z.ltb_spec CHUNK left); lia. }
  destruct (IH (left - Z.of_nat (length data)) (total + Z.of_nat (length data)) w2
              (cur ++ data)) as (n & body & w' & Hrun & Hfiles & Hlog).
  { lia. }
  { rewrite Hw2. apply lookup_insert_eq. }
  exists n, (data ++ body), w'. split; [done|]. split.
  - rewrite Hfiles, Hw2, insert_insert_eq, app_assoc. done.
  - rewrite Hlog. done.
Qed.

(** The copy loop on a stream at position [pos] with [left] bytes to go:
    it appends the bytes of the payload from [pos], [left] of them or as many
    as there are, returns their number, and asks only for bytes of
    [[pos, pos + left)]. *)
Lemma copy_loop_spec img file fuel left total w cur :
  (Z.to_nat left < fuel)%nat →
  0 ≤ left → 0 ≤ w_img_pos w →
  w_files w !! file = Some cur →
  let body := take (Z.to_nat left) (drop (Z.to_nat (w_img_pos w)) img) in
  ∃ w' new,
    copy_loop fuel img file left total w = Some (total + Z.of_nat (length body), w')
    ∧ w_files w' = <[file := cur ++ body]> (w_files w)
    ∧ w_log w' = w_log w
    ∧ w_reads w' = w_reads w ++ new
    ∧ Forall (λ r, w_img_pos w ≤ r.1 ∧ 0 < r.2 ∧ r.1 + r.2 ≤ w_img_pos w + left) new.
Proof.
  revert left total w cur.
  induction fuel as [|fuel IH]; intros left total w cur Hf Hleft Hpos Hcur; [lia|].
  rewrite copy_loop_S. pose proof CHUNK_pos as HC. simpl.
  destruct (Z.eqb_spec left 0) as [-> | Hl].
  { exists w, []. simpl. rewrite Z.add_0_r, !app_nil_r, insert_id by done.
    repeat split; auto. }
  set (want := if CHUNK <? left then CHUNK else left).
  assert (Hwant : 0 < want ≤ left).
  { subst want. destruct (Z.ltb_spec CHUNK left); lia. }
  unfold fread. simpl.
  set (pos := w_img_pos w) in *.
  set (rest := drop (Z.to_nat pos) img).
  set (data := take (Z.to_nat want) rest).
  assert (Hdata : length data = Nat.min (Z.to_nat want) (length rest)).
  { subst data. apply length_take. }
  assert (Hreq : Forall (λ r : Z * Z, pos ≤ r.1 ∧ 0 < r.2 ∧ r.1 + r.2 ≤ pos + left)
                   [(pos, want)]).
  { repeat constructor; simpl; lia. }
  destruct (Z.eqb_spec (Z.of_nat (length data)) 0) as [H0 | H0].
  { assert (rest = []) as Hnil by (apply length_zero_iff_nil; lia).
    rewrite Hnil, take_nil. simpl.
    eexists _, [(pos, want)]. rewrite Z.add_0_r. split; [done|]. simpl.
    rewrite app_nil_r, insert_id by done. repeat split; auto. }
  set (w2 := w_append file data _).
  assert (Hw2 : w_files w2 = <[file := cur ++ data]> (w_files w)).
  { subst w2. unfold w_append, w_set_file. simpl. by rewrite Hcur. }
  destruct (Z.ltb_spec (Z.of_nat (length data)) want) as [Hlt | Hge].
  { assert (Hall : take (Z.to_nat left) rest = data).
    { subst data. rewrite !take_ge by lia. done. }
    rewrite Hall. eexists w2, [(pos, want)]. repeat split; auto. }
  assert (Hlen : Z.of_nat (length data) = want) by lia.
  destruct (IH (left - Z.of_nat (length data)) (total + Z.of_nat (length data)) w2
              (cur ++ data)) as (w' & new & Hrun & Hfiles & Hlog & Hreads & Hnew).
  { lia. } { lia. } { subst w2. simpl. lia. }
  { rewrite Hw2. apply lookup_insert_eq. }
  assert (Hbody : take (Z.to_nat left) rest
                  = data ++ take (Z.to_nat (left - Z.of_nat (length data)))
                              (drop (Z.to_nat (w_img_pos w2)) img)).
  { subst w2 data rest. simpl. fold pos.
    replace (Z.to_nat (pos + Z.of_nat (length (take (Z.to_nat want) (drop (Z.to_nat pos) img)))))
      with (Z.to_nat pos + Z.to_nat want)%nat by lia.
    rewrite <- drop_drop.
    replace (Z.to_nat left) with (Z.to_nat want + Z.to_nat (left - want))%nat at 1 by lia.
    rewrite <- (take_drop (Z.to_nat want) (drop (Z.to_nat pos) img)) at 1.
    rewrite take_app_add'; [|rewrite length_take; lia].
    do 2 f_equal. lia. }
  rewrite Hbody, length_app, Nat2Z.inj_add, Z.add_assoc.
  exists w', ((pos, want) :: new). split; [exact Hrun|].
  split; [by rewrite Hfiles, Hw2, insert_insert_eq, app_assoc|].
  split; [by rewrite Hlog|].
  split; [rewrite Hreads; subst w2; simpl; by rewrite <- app_assoc|].
  constructor; [simpl; lia|].
  eapply Forall_impl; [exact Hnew|]. subst w2. simpl. fold pos. intros [p q]. simpl. lia.
Qed.

Lemma copy_img_slice_spec img start end_ file w cur :
  0 ≤ start →
  w_files w !! file = Some cur →
  let left := if start <? end_ then end_ - start else 0 in
  let body := take (Z.to_nat left) (drop (Z.to_nat start) img) in
  ∃ w' new,
    copy_img_slice img start end_ file w = Some (Z.of_nat (length body), w')
    ∧ w_files w' = <[file := cur ++ body]> (w_files w)
    ∧ w_log w' = w_log w
    ∧ w_reads w' = w_reads w ++ new
    ∧ Forall (λ r, start ≤ r.1 ∧ 0 < r.2 ∧ r.1 + r.2 ≤ start + left) new.
Proof.
  intros Hstart Hcur left body. unfold copy_img_slice. fold left.
  assert (Hleft : 0 ≤ left) by (subst left; destruct (Z.ltb_spec start end_); lia).
  destruct (copy_loop_spec img file (S (Z.to_nat left)) left 0 (w_seek start w) cur)
    as (w' & new & Hrun & Hfiles & Hlog & Hreads & Hnew); [lia | lia | done | done |].
  exists w', new. simpl in *. rewrite Hrun. done.
Qed.

Lemma copy_img_slice_total img start end_ file w cur :
  w_files w !! file = Some cur →
  ∃ n body w',
    copy_img_slice img start end_ file w = Some (n, w')
    ∧ w_files w' = <[file := cur ++ body]> (w_files w)
    ∧ w_log w' = w_log w.
Proof.
  intros Hcur. unfold copy_img_slice.
  destruct (copy_loop_total img file
              (S (Z.to_nat (if start <? end_ then end_ - start else 0)))
              (if start <? end_ then end_ - start else 0) 0 (w_seek start w) cur)
    as (n & body & w' & Hrun & Hfiles & Hlog); [lia | done |].
  by exists n, body, w'.
Qed.

Lemma sink_good_iff s : sink_good s = true ↔ fopen_ok s = true ∧ header_fwrite s = 32.
Proof. unfold sink_good. rewrite andb_true_iff, Z.eqb_eq. done. Qed.

Lemma header_bytes_take h decomp : take 32 (header_bytes h decomp) = header_bytes h decomp.
Proof. unfold header_bytes. by rewrite take_take, Nat.min_id. Qed.

Lemma header_bytes_length h decomp :
  0 ≤ lvz_off h → lvz_off h + 32 ≤ Z.of_nat (length decomp) →
  length (header_bytes h decomp) = 32%nat.
Proof. intros. unfold header_bytes. rewrite length_take, length_drop. lia. Qed.

(** The state of the world once [write_wrld] has opened the sink and written
    the header. *)
Lemma write_wrld_good s h decomp img img_size file w :
  sink_good s = true →
  write_wrld s h decomp img img_size file w =
    let w1 := w_set_file file (header_bytes h decomp) w in
    let start := continuation h in
    let need := if 32 <=? total_size h then total_size h - 32 else 0 in
    if img_size <? start then Some (0, w_fprintf (LogBeyond start img_size) w1)
    else
      let '(end_, w2) :=
        if img_size <? start + need
        then (img_size, w_fprintf (LogClipped (start + need) img_size) w1)
        else (start + need, w1) in
      '(body, w3) ← copy_img_slice img start end_ file w2;
      Some (0, w_fprintf (LogBuild file body (32 + body) (total_size h)) w3).
Proof.
  intros [Hopen Hhdr]%sink_good_iff. unfold write_wrld.
  rewrite Hopen, Hhdr. simpl. rewrite header_bytes_take. done.
Qed.

(** C2.  A header whose body starts inside the payload and would end past it
    ([continuation <= payload_size < continuation + (total_size - 32)]) is
    reconstructed with the body range clipped to [payload_size]: the call
    succeeds, what it appends to the 32 header bytes is the payload from
    [continuation] to [payload_size] (to the end of the stream if that comes
    first), every read request stays below [payload_size], the clip is put in
    the log before the build line, and when the stream holds [payload_size]
    bytes the file is [32 + (payload_size - continuation)] bytes long. *)
Theorem write_wrld_clips s h decomp img img_size file w :
  sink_good s = true →
  0 ≤ continuation h ≤ img_size →
  continuation h + (total_size h - 32) > img_size →
  let body := take (Z.to_nat (img_size - continuation h))
                   (drop (Z.to_nat (continuation h)) img) in
  let body_len := Z.of_nat (length body) in
  ∃ w' reads,
    write_wrld s h decomp img img_size file w = Some (0, w')
    ∧ w_files w' = <[file := header_bytes h decomp ++ body]> (w_files w)
    ∧ w_log w' =
        fprintf (fprintf (w_log w)
                   (LogClipped (continuation h + (total_size h - 32)) img_size))
                (LogBuild file body_len (32 + body_len) (total_size h))
    ∧ w_reads w' = w_reads w ++ reads
    ∧ Forall (λ r, continuation h ≤ r.1 ∧ 0 < r.2 ∧ r.1 + r.2 ≤ img_size) reads
    ∧ (img_size ≤ Z.of_nat (length img) → body_len = img_size - continuation h)
    ∧ (img_size ≤ Z.of_nat (length img) →
       0 ≤ lvz_off h → lvz_off h + 32 ≤ Z.of_nat (length decomp) →
       Z.of_nat (length (header_bytes h decomp ++ body))
       = 32 + (img_size - continuation h)).
Proof.
  intros Hgood Hstart Hend body body_len.
  rewrite write_wrld_good by done. simpl.
  assert (Htot : 32 ≤ total_size h) by lia.
  destruct (Z.leb_spec 32 (total_size h)) as [_ | ?]; [|lia].
  destruct (Z.ltb_spec img_size (continuation h)) as [? | _]; [lia|].
  destruct (Z.ltb_spec img_size (continuation h + (total_size h - 32))) as [_ | ?]; [|lia].
  set (w1 := w_fprintf _ (w_set_file _ _ _)).
  destruct (copy_img_slice_spec img (continuation h) img_size file w1
              (header_bytes h decomp))
    as (w' & new & Hrun & Hfiles & Hlog & Hreads & Hnew); [lia | | ].
  { subst w1. simpl. apply lookup_insert_eq. }
  assert (Hleft : (if continuation h <? img_size then img_size - continuation h else 0)
                  = img_size - continuation h).
  { destruct (Z.ltb_spec (continuation h) img_size); lia. }
  rewrite Hleft in Hrun, Hfiles, Hnew. fold body in Hrun, Hfiles. fold body_len in Hrun.
  rewrite Hrun. simpl.
  assert (Hbody : img_size ≤ Z.of_nat (length img) → body_len = img_size - continuation h).
  { intros Himg. subst body_len body. rewrite length_take, length_drop. lia. }
  eexists _, new. split; [done|]. simpl. repeat split.
  - rewrite Hfiles. subst w1. simpl. by rewrite insert_insert_eq.
  - rewrite Hlog. done.
  - rewrite Hreads. done.
  - eapply Forall_impl; [exact Hnew|]. intros [p q]. simpl. lia.
  - exact Hbody.
  - intros Himg Hoff Hoff'. rewrite length_app, Nat2Z.inj_add.
    rewrite header_bytes_length by done. fold body_len. rewrite Hbody by done. lia.
Qed.

Lemma write_wrld_clips_witness :
  let h := mkWrldHeader 0 7 112 1 2 3 50 0 in
  let img := replicate 100 "042"%byte in
  let w := world_init (Some []) in
  let body := take (Z.to_nat (100 - 50)) (drop (Z.to_nat 50) img) in
  let body_len := Z.of_nat (length body) in
  ∃ w' reads,
    write_wrld (mkSink true 32) h two_records img 100 0 w = Some (0, w')
    ∧ w_files w' = <[0%nat := header_bytes h two_records ++ body]> (w_files w)
    ∧ w_log w' =
        fprintf (fprintf (w_log w) (LogClipped (50 + (112 - 32)) 100))
                (LogBuild 0 body_len (32 + body_len) 112)
    ∧ w_reads w' = w_reads w ++ reads
    ∧ Forall (λ r, 50 ≤ r.1 ∧ 0 < r.2 ∧ r.1 + r.2 ≤ 100) reads
    ∧ (100 ≤ Z.of_nat (length img) → body_len = 100 - 50)
    ∧ (100 ≤ Z.of_nat (length img) →
       0 ≤ 0 → 0 + 32 ≤ Z.of_nat (length two_records) →
       Z.of_nat (length (header_bytes h two_records ++ body)) = 32 + (100 - 50)).
Proof.
  intros h img w.
  apply (write_wrld_clips (mkSink true 32) h two_records img 100 0%nat w).
  - reflexivity.
  - simpl. lia.
  - simpl. lia.
Defined.

(** The run of the specification's example: payload of 100 bytes, body from
    50, [total_size = 112]; one read request, for 50 bytes at 50; 82 bytes
    written. *)
Example write_wrld_clips_run :
  let h := mkWrldHeader 0 7 112 1 2 3 50 0 in
  let img := replicate 100 "042"%byte in
  ∃ w', write_wrld (mkSink true 32) h two_records img 100 0 (world_init (Some []))
        = Some (0, w')
        ∧ w_reads w' = [(50, 50)]
        ∧ w_log w' = Some [LogClipped 130 100; LogBuild 0 50 82 112]
        ∧ length <$> (w_files w' !! 0%nat) = Some 82%nat.
Proof. eexists. vm_compute. repeat split; reflexivity. Qed.

(** C3.  A header whose body would start past the payload
    ([continuation > payload_size]) is reconstructed as the header alone:
    the call returns 0, the file holds the 32 header bytes, no read is made
    on the payload, the warning is put in the log, and the loop of [main]
    counts the record as written. *)
Theorem write_wrld_beyond_range s h decomp img img_size file w :
  sink_good s = true →
  img_size < continuation h →
  let w' := w_fprintf (LogBeyond (continuation h) img_size)
              (w_set_file file (header_bytes h decomp) w) in
  write_wrld s h decomp img img_size file w = Some (0, w')
  ∧ w_files w' !! file = Some (header_bytes h decomp)
  ∧ (0 ≤ lvz_off h → lvz_off h + 32 ≤ Z.of_nat (length decomp) →
     length (header_bytes h decomp) = 32%nat)
  ∧ w_reads w' = w_reads w
  ∧ w_img_pos w' = w_img_pos w
  ∧ w_log w' = fprintf (w_log w) (LogBeyond (continuation h) img_size)
  ∧ ∀ env hs written,
      sinks env file = s →
      write_all env decomp img img_size (h :: hs) file written w
      = write_all env decomp img img_size hs (S file) (written + 1) w'.
Proof.
  intros Hgood Hbeyond w'.
  assert (Hrun : write_wrld s h decomp img img_size file w = Some (0, w')).
  { rewrite write_wrld_good by done. simpl.
    destruct (Z.ltb_spec img_size (continuation h)); [done | lia]. }
  split; [exact Hrun|]. repeat split.
  - subst w'. simpl. apply lookup_insert_eq.
  - apply header_bytes_length.
  - intros env hs written Hs. simpl. rewrite Hs, Hrun. done.
Qed.

Lemma write_wrld_beyond_range_witness :
  let h := mkWrldHeader 0 7 112 1 2 3 150 0 in
  let img := replicate 100 "042"%byte in
  let w := world_init (Some []) in
  let w' := w_fprintf (LogBeyond 150 100) (w_set_file 0 (header_bytes h two_records) w) in
  write_wrld (mkSink true 32) h two_records img 100 0 w = Some (0, w')
  ∧ w_files w' !! 0%nat = Some (header_bytes h two_records)
  ∧ (0 ≤ 0 → 0 + 32 ≤ Z.of_nat (length two_records) →
     length (header_bytes h two_records) = 32%nat)
  ∧ w_reads w' = w_reads w
  ∧ w_img_pos w' = w_img_pos w
  ∧ w_log w' = fprintf (w_log w) (LogBeyond 150 100)
  ∧ ∀ env hs written,
      sinks env 0%nat = mkSink true 32 →
      write_all env two_records img 100 (h :: hs) 0 written w
      = write_all env two_records img 100 hs 1 (written + 1) w'.
Proof.
  intros h img w.
  apply (write_wrld_beyond_range (mkSink true 32) h two_records img 100 0%nat w).
  - reflexivity.
  - simpl. lia.
Defined.

(** ** The driver *)

(** [write_wrld] always returns.  It returns 0 exactly when the sink opens
    and takes the header; otherwise it returns -1 or -2 and puts one error
    line in the log.  It changes no other file, and log lines are only ever
    added. *)
Lemma write_wrld_outcome s h decomp img img_size file w :
  ∃ rc w',
    write_wrld s h decomp img img_size file w = Some (rc, w')
    ∧ (sink_good s = true → rc = 0
       ∧ ∃ body, w_files w' !! file = Some (header_bytes h decomp ++ body))
    ∧ (sink_good s = false → (rc = -1 ∨ rc = -2)
       ∧ ∀ ls, w_log w = Some ls →
               ∃ l, (l = LogCannotWrite file ∨ l = LogHeaderFailed file)
                    ∧ w_log w' = Some (ls ++ [l]))
    ∧ (∀ k, k ≠ file → w_files w' !! k = w_files w !! k)
    ∧ (∀ ls, w_log w = Some ls → ∃ ls', w_log w' = Some (ls ++ ls')).
Proof.
  destruct (sink_good s) eqn:Hgood.
  - rewrite write_wrld_good by done. simpl.
    set (w1 := w_set_file file (header_bytes h decomp) w).
    assert (Hw1 : ∀ k, k ≠ file → w_files w1 !! k = w_files w !! k).
    { intros k Hk. subst w1. simpl. by rewrite lookup_insert_ne. }
    destruct (Z.ltb_spec img_size (continuation h)) as [Hb | Hb].
    { eexists 0, _. split; [done|]. simpl. repeat split; try done.
      - exists []. rewrite app_nil_r. apply lookup_insert_eq.
      - intros ls ->. simpl. eauto. }
    set (need := if 32 <=? total_size h then total_size h - 32 else 0).
    set (c := if img_size <? continuation h + need
              then (img_size, w_fprintf (LogClipped (continuation h + need) img_size) w1)
              else (continuation h + need, w1)).
    assert (Hc : w_files c.2 = w_files w1
                 ∧ ∀ ls, w_log w = Some ls → ∃ ls', w_log c.2 = Some (ls ++ ls')).
    { subst c. destruct (img_size <? continuation h + need); simpl; split; try done.
      - intros ls ->. simpl. eauto.
      - intros ls ->. exists []. by rewrite app_nil_r. }
    destruct c as [end_ w2]. simpl in Hc. destruct Hc as [Hf2 Hl2].
    destruct (copy_img_slice_total img (continuation h) end_ file w2
                (header_bytes h decomp)) as (n & body & w3 & Hrun & Hf3 & Hl3).
    { rewrite Hf2. subst w1. simpl. apply lookup_insert_eq. }
    rewrite Hrun. simpl. eexists 0, _. split; [done|]. simpl. repeat split; try done.
    + exists body. rewrite Hf3. apply lookup_insert_eq.
    + intros k Hk. rewrite Hf3, lookup_insert_ne, Hf2 by done. by apply Hw1.
    + intros ls Hls. destruct (Hl2 ls Hls) as (ls' & Hls'). rewrite Hl3, Hls'. simpl.
      exists (ls' ++ [LogBuild file n (32 + n) (total_size h)]). by rewrite app_assoc.
  - unfold write_wrld. destruct (fopen_ok s) eqn:Hopen; simpl.
    + assert (Hhdr : (header_fwrite s =? 32) = false).
      { unfold sink_good in Hgood. by rewrite Hopen in Hgood. }
      rewrite Hhdr. simpl. eexists (-2), _. split; [done|]. simpl.
      repeat split; try done.
      * by right.
      * intros ls ->. exists (LogHeaderFailed file). split; [by right | done].
      * intros k Hk. by rewrite lookup_insert_ne.
      * intros ls ->. simpl. eauto.
    + eexists (-1), _. split; [done|]. simpl. repeat split; try done.
      * by left.
      * intros ls ->. exists (LogCannotWrite file). split; [by left | done].
      * intros ls ->. simpl. eauto.
Qed.

(** The loop of [main] always returns. *)
Lemma write_all_total env decomp img img_size hs i written w :
  is_Some (write_all env decomp img img_size hs i written w).
Proof.
  revert i written w. induction hs as [|h hs IH]; intros i written w; [by eexists|].
  simpl write_all.
  destruct (write_wrld_outcome (sinks env i) h decomp img img_size i w)
    as (rc & w1 & -> & _).
  simpl. destruct (rc =? 0); apply IH.
Qed.


Example write_all_faulty_run :
  let h := mkWrldHeader 0 7 40 1 2 3 64 0 in
  ∃ w', write_all faulty_env two_records (replicate 100 "042"%byte) 100
          [h; h; h; h] 0 0 (world_init (Some [])) = Some (2, w')
        ∧ w_log w' = Some [LogBuild 0 8 40 40; LogCannotWrite 1; LogFailed 1 (-1);
                           LogHeaderFailed 2; LogFailed 2 (-2); LogBuild 3 8 40 40]
        ∧ length <$> (w_files w' !! 3%nat) = Some 40%nat.
Proof. eexists. vm_compute. repeat split; reflexivity. Qed.

(** The collection the scanner returns does not depend on the log. *)
Lemma scan_slave_headers_log qsort d log :
  fst <$> scan_slave_headers qsort d log = fst <$> scan_slave_headers qsort d None.
Proof.
  destruct (scan_slave_headers_spec qsort d log) as (log1 & ->).
  destruct (scan_slave_headers_spec qsort d None) as (log2 & ->). done.
Qed.

Lemma exit_status_inj c c' : exit_status c = exit_status c' → c = c'.
Proof. destruct c, c'; simpl; intros; congruence. Qed.

(** In a goal about [main] with an index of 32 bytes or more: step over the
    length check and replace the scanner's call by the collection [Hscan]
    gives for it. *)
Ltac main_past_scan Hscan :=
  match goal with
  | |- context [Z.of_nat (length ?d) <? 32] =>
      destruct (Z.ltb_spec (Z.of_nat (length d)) 32); [lia|]
  end;
  match goal with
  | |- context [scan_slave_headers ?q ?d ?l] =>
      let Hl := fresh "Hl" in
      pose proof (scan_slave_headers_log q d l) as Hl;
      destruct (scan_slave_headers q d l) as [[? ?]|];
      rewrite Hscan in Hl; simpl in Hl; [|done]
  end.

(** C7.  [main] returns 0 on success, and 1, 2, 3, 4, 5 for a bad
    invocation, a missing payload file, a decompressed index shorter than 32
    bytes, no header found, and a payload file that cannot be opened; the six
    statuses differ from one another, so the five fatal ones are not 0. *)
Theorem main_exit_status z qsort fuel env c :
  arises z qsort fuel env c →
  (∃ w, main z qsort fuel env = Some (exit_status c, w))
  ∧ (exit_status c = 0 ↔ c = Success)
  ∧ (∀ c', exit_status c' = exit_status c → c' = c)
  ∧ NoDup (exit_status <$> [Success; BadInvocation; MissingPayload; IndexTooSmall;
                            NoHeaders; PayloadOpenFailure]).
Proof.
  intros Hc. split; [|split; [|split]].
  - unfold main. destruct Hc as [Hargc | Hargc Himg | raw decomp Hargc Himg Hlog Hlvz Hdec Hlen
      | raw decomp Hargc Himg Hlog Hlvz Hdec Hlen Hscan
      | raw decomp h hs Hargc Himg Hlog Hlvz Hdec Hlen Hscan Hopen
      | raw decomp h hs img Hargc Himg Hlog Hlvz Hdec Hlen Hscan Hopen].
    + apply Z.eqb_neq in Hargc. rewrite Hargc. simpl. eauto.
    + rewrite Hargc, Himg. simpl. eauto.
    + rewrite Hargc, Himg, Hlog, Hlvz, Hdec. simpl.
      destruct (Z.ltb_spec (Z.of_nat (length decomp)) 32); [eauto | lia].
    + rewrite Hargc, Himg, Hlog, Hlvz, Hdec. simpl.
      main_past_scan Hscan.
      injection Hl as ->. simpl. eauto.
    + rewrite Hargc, Himg, Hlog, Hlvz, Hdec. simpl.
      main_past_scan Hscan.
      injection Hl as ->. simpl. rewrite Hopen. eauto.
    + rewrite Hargc, Himg, Hlog, Hlvz, Hdec. simpl.
      main_past_scan Hscan.
      injection Hl as ->. cbn -[write_all]. rewrite Hopen.
      match goal with |- context [write_all ?e ?d ?i ?s ?l ?k ?n ?w] =>
        destruct (write_all_total e d i s l k n w) as ([written w'] & ->) end.
      simpl. eauto.
  - split; [|by intros ->]. destruct c; simpl; intros; congruence.
  - intros c'. apply exit_status_inj.
  - simpl. repeat constructor; rewrite ?elem_of_cons, ?elem_of_nil; lia.
Qed.

Lemma main_exit_status_witness :
  (∃ w, main reject_zlib lib_qsort 1 plain_env = Some (exit_status Success, w))
  ∧ (exit_status Success = 0 ↔ Success = Success)
  ∧ (∀ c', exit_status c' = exit_status Success → c' = Success)
  ∧ NoDup (exit_status <$> [Success; BadInvocation; MissingPayload; IndexTooSmall;
                            NoHeaders; PayloadOpenFailure]).
Proof.
  apply (main_exit_status reject_zlib lib_qsort 1 plain_env Success).
  eapply (arises_success _ _ _ _ two_records two_records);
    try (vm_compute; reflexivity).
  simpl. lia.
Defined.

(** One run for each status. *)
Example main_bad_invocation :
  fst <$> main reject_zlib lib_qsort 1
            (mkEnv 3 true true (Some two_records) None (λ _, mkSink true 32))
  = Some 1.
Proof. reflexivity. Qed.

Example main_missing_payload :
  fst <$> main reject_zlib lib_qsort 1
            (mkEnv 2 false true (Some two_records) None (λ _, mkSink true 32))
  = Some 2.
Proof. reflexivity. Qed.

Example main_index_too_small :
  fst <$> main reject_zlib lib_qsort 1
            (mkEnv 2 true true (Some DLRW) None (λ _, mkSink true 32))
  = Some 3.
Proof. vm_compute. reflexivity. Qed.

Example main_no_headers :
  fst <$> main reject_zlib lib_qsort 1
            (mkEnv 2 true true (Some (replicate 64 "000"%byte)) None
               (λ _, mkSink true 32))
  = Some 4.
Proof. vm_compute. reflexivity. Qed.

Example main_payload_open_failure :
  fst <$> main reject_zlib lib_qsort 1
            (mkEnv 2 true true (Some two_records) None (λ _, mkSink true 32))
  = Some 5.
Proof. vm_compute. reflexivity. Qed.

Example main_success :
  ∃ w, main reject_zlib lib_qsort 1 plain_env = Some (0, w)
       ∧ w_log w = Some [LogBanner; LogIo 64 64;
                         LogScanHit 0 (header_at two_records 0); LogScanTotal 1;
                         LogImgBytes 100; LogBuild 0 8 40 40; LogDone 1]
       ∧ length <$> (w_files w !! 0%nat) = Some 40%nat.
Proof. eexists. vm_compute. repeat split; reflexivity. Qed.

(* ================================================================= *)
(** * Further properties of the code *)

(** ** [read_u32le] and [cmp_by_lvz_off] *)

(** X1.  [read_u32le] is little-endian decoding: its value is
    [b0 + 256 b1 + 65536 b2 + 16777216 b3], it lies in [0, 2^32), and each of
    the four bytes is the corresponding base-256 digit of the value. *)
Theorem read_u32le_little_endian b off :
  let v := read_u32le b off in
  v = u8 (byte_at b off) + u8 (byte_at b (off + 1)) * 2 ^ 8
      + u8 (byte_at b (off + 2)) * 2 ^ 16 + u8 (byte_at b (off + 3)) * 2 ^ 24
  ∧ 0 ≤ v < 2 ^ 32
  ∧ u8 (byte_at b off) = v mod 256
  ∧ u8 (byte_at b (off + 1)) = (v / 2 ^ 8) mod 256
  ∧ u8 (byte_at b (off + 2)) = (v / 2 ^ 16) mod 256
  ∧ u8 (byte_at b (off + 3)) = (v / 2 ^ 24) mod 256.
Proof.
  intros v. subst v. rewrite read_u32le_value.
  pose proof (u8_range (byte_at b off)).
  pose proof (u8_range (byte_at b (off + 1))).
  pose proof (u8_range (byte_at b (off + 2))).
  pose proof (u8_range (byte_at b (off + 3))).
  generalize dependent (u8 (byte_at b off)).
  generalize dependent (u8 (byte_at b (off + 1))).
  generalize dependent (u8 (byte_at b (off + 2))).
  generalize dependent (u8 (byte_at b (off + 3))).
  intros b3 H3 b2 H2 b1 H1 b0 H0.
  change (2 ^ 8) with 256. change (2 ^ 16) with 65536.
  change (2 ^ 24) with 16777216. change (2 ^ 32) with 4294967296.
  repeat split; try lia.
  all: Z.to_euclidean_division_equations; lia.
Qed.

(** X2.  [cmp_by_lvz_off] is a comparison function as [qsort] needs one: it
    answers -1, 0 or 1, 0 exactly for equal offsets, the opposite when its
    arguments are swapped, and it is transitive. *)
Theorem cmp_by_lvz_off_order x y :
  (cmp_by_lvz_off x y = -1 ∨ cmp_by_lvz_off x y = 0 ∨ cmp_by_lvz_off x y = 1)
  ∧ (cmp_by_lvz_off x y = -1 ↔ lvz_off x < lvz_off y)
  ∧ (cmp_by_lvz_off x y = 0 ↔ lvz_off x = lvz_off y)
  ∧ (cmp_by_lvz_off x y = 1 ↔ lvz_off y < lvz_off x)
  ∧ cmp_by_lvz_off y x = - cmp_by_lvz_off x y
  ∧ ∀ z, cmp_by_lvz_off x y ≤ 0 → cmp_by_lvz_off y z ≤ 0 → cmp_by_lvz_off x z ≤ 0.
Proof.
  unfold cmp_by_lvz_off.
  repeat split; intros;
    repeat match goal with
           | |- context [?a <? ?b] => destruct (Z.ltb_spec a b)
           | H : context [?a <? ?b] |- _ => destruct (Z.ltb_spec a b)
           end; lia.
Qed.

(** ** More on [scan_slave_headers] *)

Lemma scan_hit_lines_snoc out h :
  scan_hit_lines (out ++ [h]) =
    scan_hit_lines out
    ++ (if Z.of_nat (length out) <? 50
        then [LogScanHit (Z.of_nat (length out)) h] else []).
Proof.
  unfold scan_hit_lines. rewrite imap_app. simpl.
  rewrite take_app, length_imap.
  destruct (Z.ltb_spec (Z.of_nat (length out)) 50) as [Hlt | Hge].
  - replace (50 - length out)%nat with (S (49 - length out)) by lia.
    simpl. rewrite Nat.add_0_r, take_nil. done.
  - replace (50 - length out)%nat with 0%nat by lia. done.
Qed.

Lemma fprintf_foldl_snoc log ls l :
  foldl fprintf log (ls ++ [l]) = fprintf (foldl fprintf log ls) l.
Proof. by rewrite foldl_app. Qed.

Lemma scan_visit_inv log d j st :
  scan_inv log st → scan_inv log (scan_visit d j st).
Proof.
  intros [Hhits Hlog]. unfold scan_visit, scan_inv.
  destruct (header_ok (header_at d j)); [|done]. simpl.
  unfold header_list_push. rewrite length_app. simpl. split; [lia|].
  unfold scan_log_of. rewrite scan_hit_lines_snoc, Hhits.
  destruct (Z.ltb_spec (Z.of_nat (length (ss_out st))) 50).
  - rewrite fprintf_foldl_snoc, Hlog. unfold scan_log_of. do 2 f_equal. lia.
  - by rewrite app_nil_r.
Qed.

Lemma scan_loop_inv log d n fuel i st st' :
  scan_loop fuel d n i st = Some st' → scan_inv log st → scan_inv log st'.
Proof.
  revert i st. induction fuel as [|fuel IH]; intros i st; [done|].
  rewrite scan_loop_S. destruct (find_marker _ d n i) as [j|]; [|done].
  destruct (n <? j + 32).
  - by intros [= <-].
  - intros Hrun Hinv. eapply IH; [exact Hrun|]. by apply scan_visit_inv.
Qed.

(** X3.  On every buffer [scan_slave_headers] returns, with the collection
    and exactly this log: one hit line for each of the first 50 headers the
    scan pushed, in scan order and numbered from 0, then the line with the
    size of the collection after sort and dedupe.  So at most 51 lines are
    added, whatever the number of headers. *)
Theorem scan_slave_headers_log_lines qsort d log :
  let raw := header_at d <$> accepted_from d (Z.of_nat (length d)) 0 in
  let out := finalize qsort raw in
  scan_slave_headers qsort d log =
    Some (out, fprintf (scan_log_of log raw) (LogScanTotal (Z.of_nat (length out))))
  ∧ (length (scan_hit_lines raw) = Nat.min 50 (length raw))
  ∧ ∀ ls, log = Some ls →
      fprintf (scan_log_of log raw) (LogScanTotal (Z.of_nat (length out)))
      = Some (ls ++ scan_hit_lines raw ++ [LogScanTotal (Z.of_nat (length out))]).
Proof.
  intros raw out. split; [|split].
  - unfold scan_slave_headers.
    destruct (scan_raw_spec d log) as (st & Hrun & Hout). rewrite Hrun. simpl.
    unfold scan_raw in Hrun.
    apply (scan_loop_inv log) in Hrun as [_ Hlog]; [|done].
    rewrite Hlog, Hout. done.
  - unfold scan_hit_lines. rewrite length_take, length_imap. done.
  - intros ls ->. unfold scan_log_of.
    generalize (scan_hit_lines raw). intros lines.
    assert (Hfold : ∀ l0, foldl fprintf (Some l0) lines = Some (l0 ++ lines)).
    { induction lines as [|l lines IH]; intros l0; simpl.
      - by rewrite app_nil_r.
      - rewrite IH, <- app_assoc. done. }
    rewrite Hfold. simpl. by rewrite <- app_assoc.
Qed.

(** X4.  A buffer with no marker that has 32 bytes after it, in particular
    every buffer shorter than 32 bytes, gives the empty collection and the
    single log line [LogScanTotal 0]. *)
Theorem scan_without_marker qsort d log :
  sorts_by_offset qsort →
  (∀ j, 0 ≤ j → j + 32 ≤ Z.of_nat (length d) → is_marker d j = false) →
  scan_slave_headers qsort d log = Some ([], fprintf log (LogScanTotal 0)).
Proof.
  intros [Hperm _] Hno.
  destruct (scan_slave_headers_spec qsort d log) as (log' & Hrun).
  assert (Hnil : accepted_from d (Z.of_nat (length d)) 0 = []).
  { apply filter_none. intros j _ (Hj & Hm & Hn & _). rewrite Hno in Hm; done. }
  unfold scan_slave_headers in *.
  destruct (scan_raw_spec d log) as (st & Hraw & Hout).
  rewrite Hraw. simpl. rewrite Hout, Hnil. simpl.
  assert (Hfin : finalize qsort [] = []).
  { unfold finalize. assert (qsort [] = []) as -> by (apply Permutation_nil_r, Hperm).
    done. }
  rewrite Hfin. simpl.
  unfold scan_raw in Hraw. apply (scan_loop_inv log) in Hraw as [_ Hlog]; [|done].
  rewrite Hlog, Hout, Hnil. done.
Qed.

Lemma scan_without_marker_witness :
  scan_slave_headers lib_qsort (replicate 40 "000"%byte) (Some [])
  = Some ([], fprintf (Some []) (LogScanTotal 0)).
Proof.
  apply (scan_without_marker lib_qsort (replicate 40 "000"%byte) (Some [])).
  - exact lib_qsort_sorts.
  - intros j _ _. apply not_true_is_false. intros Hm.
    apply is_marker_bytes in Hm as [Hm _]. unfold byte_at in Hm.
    destruct (replicate 40 "000"%byte !! Z.to_nat j) as [x|] eqn:Hlk; simpl in Hm;
      [apply lookup_replicate in Hlk as [-> _]|]; discriminate.
Defined.

(** X5.  Sort and dedupe only once: applied to its own result it changes
    nothing. *)
Theorem finalize_idempotent qsort hs :
  sorts_by_offset qsort →
  finalize qsort (finalize qsort hs) = finalize qsort hs.
Proof.
  intros [Hperm Hsorted].
  apply (finalize_ascending_id qsort Hperm Hsorted).
  by apply finalize_ascending.
Qed.

Lemma finalize_idempotent_witness :
  finalize lib_qsort (finalize lib_qsort dup_headers) = finalize lib_qsort dup_headers.
Proof. apply (finalize_idempotent lib_qsort dup_headers). exact lib_qsort_sorts. Defined.

Lemma accepted_gap d n j j' :
  accepted d n j → accepted d n j' → j < j' → j + 4 ≤ j'.
Proof.
  intros (_ & Hm & _) (_ & Hm' & _) Hlt.
  destruct (Z.le_gt_cases (j + 4) j') as [|Hgt]; [done|].
  rewrite (is_marker_no_overlap d j j') in Hm' by (done || lia). done.
Qed.

Lemma accepted_count d n l lo :
  StronglySorted Z.lt l → Forall (accepted d n) l → Forall (λ j, lo ≤ j) l →
  4 * Z.of_nat (length l) ≤ Z.max 0 (n - 28 - lo).
Proof.
  intros Hs. revert lo. induction Hs as [|j l Hs IH Hj]; intros lo Hacc Hlo; simpl.
  { lia. }
  apply Forall_cons_1 in Hacc as [Haj Hacc]. apply Forall_cons_1 in Hlo as [Hlo _].
  assert (Hnext : Forall (λ k, j + 4 ≤ k) l).
  { rewrite Forall_forall in Hj, Hacc |- *. intros k Hk.
    apply (accepted_gap d n); auto. }
  specialize (IH (j + 4) Hacc Hnext). destruct Haj as (_ & _ & Hn & _). lia.
Qed.

(** X6.  Markers cannot overlap and a header needs 32 bytes, so a buffer of
    [n] bytes gives at most [(n - 28) / 4] headers, none when [n < 32]. *)
Theorem scan_count_bound qsort d log out log' :
  sorts_by_offset qsort →
  scan_slave_headers qsort d log = Some (out, log') →
  4 * Z.of_nat (length out) ≤ Z.max 0 (Z.of_nat (length d) - 28).
Proof.
  intros [Hperm Hsorted] Hrun.
  destruct (scan_slave_headers_spec qsort d log) as (log1 & Hspec).
  rewrite Hspec in Hrun. injection Hrun as <- _.
  set (n := Z.of_nat (length d)).
  assert (Hlen : (length (finalize qsort (header_at d <$> accepted_from d n 0))
                  ≤ length (accepted_from d n 0))%nat).
  { rewrite finalize_refines.
    etrans; [apply sublist_length, dedupe_from_sublist|].
    rewrite (Permutation_length (Hperm _)), length_fmap. done. }
  pose proof (accepted_count d n (accepted_from d n 0) 0
                (accepted_from_ascending d n 0)) as Hcount.
  assert (4 * Z.of_nat (length (accepted_from d n 0)) ≤ Z.max 0 (n - 28 - 0)); [|lia].
  apply Hcount; apply Forall_forall; intros j Hj;
    apply elem_of_accepted_from in Hj; [done | by destruct Hj].
Qed.

Lemma scan_count_bound_witness :
  4 * Z.of_nat (length [header_at two_records 0])
  ≤ Z.max 0 (Z.of_nat (length two_records) - 28).
Proof.
  apply (scan_count_bound lib_qsort two_records None _ None).
  - exact lib_qsort_sorts.
  - vm_compute. reflexivity.
Defined.

Lemma header_at_app_l d e j :
  0 ≤ j → j + 32 ≤ Z.of_nat (length d) → header_at (d ++ e) j = header_at d j.
Proof.
  intros Hj Hn. unfold header_at. rewrite !read_u32le_app_l by lia. done.
Qed.

Lemma filter_ext_in {A} (P Q : A → Prop) `{!∀ x, Decision (P x)}
    `{!∀ x, Decision (Q x)} (l : list A) :
  (∀ x, x ∈ l → P x ↔ Q x) → filter P l = filter Q l.
Proof.
  induction l as [|x l IH]; intros Hext; [done|].
  rewrite !filter_cons.
  rewrite IH by (intros y Hy; apply Hext; by right).
  destruct (decide (P x)) as [HP | HP]; destruct (decide (Q x)) as [HQ | HQ];
    try done; exfalso; apply (Hext x ltac:(left)) in HP || apply (Hext x ltac:(left)) in HQ; done.
Qed.

Lemma accepted_app_l d e j :
  j + 32 ≤ Z.of_nat (length d) →
  accepted (d ++ e) (Z.of_nat (length (d ++ e))) j ↔ accepted d (Z.of_nat (length d)) j.
Proof.
  intros Hn. unfold accepted. rewrite length_app.
  split; intros (Hj & Hm & Hb & Hok); repeat split; try lia.
  - by rewrite is_marker_app_l in Hm by lia.
  - by rewrite header_at_app_l in Hok by lia.
  - by rewrite is_marker_app_l by lia.
  - by rewrite header_at_app_l by lia.
Qed.

(** Appending bytes only adds accepted positions, after the ones there
    were. *)
Lemma accepted_from_app d e :
  ∃ more, accepted_from (d ++ e) (Z.of_nat (length (d ++ e))) 0
          = accepted_from d (Z.of_nat (length d)) 0 ++ more.
Proof.
  set (n := Z.of_nat (length d)). set (N := Z.of_nat (length (d ++ e))).
  assert (HnN : n ≤ N) by (subst n N; rewrite length_app; lia).
  set (m := Z.max 0 (n - 31)).
  assert (Hsplit : ∀ k, m ≤ k → seqZ 0 k = seqZ 0 m ++ seqZ m (k - m)).
  { intros k Hk. replace k with (m + (k - m)) at 1 by lia.
    rewrite seqZ_app by lia. done. }
  unfold accepted_from. rewrite !Z.sub_0_r.
  rewrite (Hsplit N), (Hsplit n) by lia. rewrite !filter_app.
  exists (filter (accepted (d ++ e) N) (seqZ m (N - m))).
  rewrite (filter_none (accepted d n) (seqZ m (n - m))); cycle 1.
  { intros j Hj (_ & _ & Hb & _). apply elem_of_seqZ in Hj. lia. }
  rewrite app_nil_r. f_equal.
  apply filter_ext_in. intros j Hj. apply elem_of_seqZ in Hj.
  subst n N. apply accepted_app_l. lia.
Qed.

(** X7.  Scanning is stable under appended data: when the longer buffer's
    positions fit 32 bits, the collection of a buffer is a prefix of the
    collection of the buffer with more bytes after it, so the headers found
    keep their sequence numbers. *)
Theorem scan_append_prefix qsort d e log :
  sorts_by_offset qsort → offsets_fit_u32 (d ++ e) →
  ∃ out more log1 log2,
    scan_slave_headers qsort d log = Some (out, log1)
    ∧ scan_slave_headers qsort (d ++ e) log = Some (out ++ more, log2).
Proof.
  intros [Hperm Hsorted] Hfit.
  assert (Hfit' : offsets_fit_u32 d).
  { unfold offsets_fit_u32 in *. rewrite length_app in Hfit. lia. }
  destruct (scan_slave_headers_fit qsort Hperm Hsorted d log Hfit') as (log1 & Hd).
  destruct (scan_slave_headers_fit qsort Hperm Hsorted (d ++ e) log Hfit) as (log2 & Hde).
  destruct (accepted_from_app d e) as (more & Hmore).
  eexists _, (header_at (d ++ e) <$> more), log1, log2. split; [exact Hd|].
  assert (Heq : header_at (d ++ e) <$> accepted_from d (Z.of_nat (length d)) 0
                = header_at d <$> accepted_from d (Z.of_nat (length d)) 0).
  { apply list_fmap_ext. intros i j Hj. apply list_elem_of_lookup_2 in Hj.
    apply elem_of_accepted_from in Hj as (Hj0 & _ & Hn & _).
    by apply header_at_app_l. }
  rewrite Hde, Hmore, fmap_app, Heq. done.
Qed.

Lemma scan_append_prefix_witness :
  ∃ out more log1 log2,
    scan_slave_headers lib_qsort two_records None = Some (out, log1)
    ∧ scan_slave_headers lib_qsort (two_records ++ nested_records) None
      = Some (out ++ more, log2).
Proof.
  apply (scan_append_prefix lib_qsort two_records nested_records None).
  - exact lib_qsort_sorts.
  - unfold offsets_fit_u32. vm_compute. reflexivity.
Defined.


(** ** [header_list_push], [looks_like_zlib] and [try_inflate] *)

(** What [header_list_push] keeps true of the array. *)
Lemma header_array_push_inv (hl : HeaderArray.HeaderList) h :
  2 * HeaderArray.count hl < SIZE_MOD →
  (HeaderArray.cap hl = 0 ∧ HeaderArray.count hl = 0)
  ∨ (∃ k : nat, HeaderArray.cap hl = 128 * 2 ^ Z.of_nat k)
    ∧ 1 ≤ HeaderArray.count hl ≤ HeaderArray.cap hl
    ∧ HeaderArray.cap hl ≤ Z.max 128 (2 * (HeaderArray.count hl - 1)) →
  let hl' := HeaderArray.header_list_push hl h in
  (∃ k : nat, HeaderArray.cap hl' = 128 * 2 ^ Z.of_nat k)
  ∧ 1 ≤ HeaderArray.count hl' ≤ HeaderArray.cap hl'
  ∧ HeaderArray.cap hl' ≤ Z.max 128 (2 * (HeaderArray.count hl' - 1)).
Proof.
  intros Hfit Hinv hl'.
  assert (Hcount : HeaderArray.count hl' = HeaderArray.count hl + 1).
  { unfold hl', HeaderArray.header_list_push, HeaderArray.count. simpl.
    rewrite length_app. simpl. lia. }
  rewrite Hcount.
  unfold hl', HeaderArray.header_list_push. simpl.
  destruct Hinv as [[Hcap Hcnt] | ([k Hk] & Hcnt & Hmax)].
  - rewrite Hcap, Hcnt. simpl. split; [by exists 0%nat|]. lia.
  - destruct (Z.eqb_spec (HeaderArray.count hl) (HeaderArray.cap hl)) as [Heq | Hne].
    + destruct (Z.eqb_spec (HeaderArray.cap hl) 0) as [H0 | _]; [lia|].
      rewrite Z.mod_small by lia.
      split; [|lia]. exists (S k). rewrite Hk, Nat2Z.inj_succ, Z.pow_succ_r by lia. lia.
    + split; [by exists k|]. lia.
Qed.

(** X8.  Pushing the headers [hs] one after the other on an empty
    [HeaderList] leaves them in [items] in order, with [count <= cap], the
    capacity 128 times a power of two and at most [max 128 (2 (count - 1))],
    and an allocation of [32 * cap] bytes; nothing overflows as long as
    [64 * count] fits [size_t]. *)
Theorem header_list_push_all hs :
  64 * Z.of_nat (length hs) < SIZE_MOD →
  let hl := foldl HeaderArray.header_list_push HeaderArray.header_list_init hs in
  HeaderArray.items hl = foldl header_list_push [] hs
  ∧ HeaderArray.items hl = hs
  ∧ HeaderArray.count hl ≤ HeaderArray.cap hl
  ∧ HeaderArray.alloc_bytes hl = 32 * HeaderArray.cap hl
  ∧ (hs = [] → HeaderArray.cap hl = 0)
  ∧ (hs ≠ [] →
     (∃ k : nat, HeaderArray.cap hl = 128 * 2 ^ Z.of_nat k)
     ∧ HeaderArray.cap hl ≤ Z.max 128 (2 * (HeaderArray.count hl - 1))).
Proof.
  induction hs as [|h hs IH] using rev_ind; intros Hfit hl.
  { subst hl. simpl. unfold HeaderArray.count, HeaderArray.alloc_bytes. simpl.
    repeat split; done. }
  rewrite length_app in Hfit. simpl in Hfit.
  destruct IH as (Hlist & Hitems & Hcnt & _ & Hnil & Hcons); [lia|].
  subst hl. rewrite !foldl_app. cbn [foldl].
  set (hl0 := foldl HeaderArray.header_list_push HeaderArray.header_list_init hs) in *.
  assert (Hc0 : HeaderArray.count hl0 = Z.of_nat (length hs)).
  { unfold HeaderArray.count. by rewrite Hitems. }
  destruct (header_array_push_inv hl0 h) as (Hk & Hrange & Hmax); [lia | |].
  { destruct (decide (hs = [])) as [Hhs | Hhs].
    - left. split; [by apply Hnil|]. rewrite Hc0, Hhs. done.
    - right. destruct (Hcons Hhs) as [Hk Hmax]. split; [done|].
      assert (0 < length hs)%nat by (clear -Hhs; destruct hs; [done | simpl; lia]).
      lia. }
  assert (Hc1 : HeaderArray.count (HeaderArray.header_list_push hl0 h)
                = Z.of_nat (length hs) + 1).
  { unfold HeaderArray.header_list_push, HeaderArray.count. simpl.
    rewrite length_app, Hitems. simpl. lia. }
  assert (Hit : HeaderArray.items (HeaderArray.header_list_push hl0 h)
                = HeaderArray.items hl0 ++ [h]) by done.
  set (hl1 := HeaderArray.header_list_push hl0 h) in *.
  split; [by rewrite Hit, Hlist|].
  split; [by rewrite Hit, Hitems|].
  split; [lia|].
  split; [unfold HeaderArray.alloc_bytes; rewrite Z.mod_small; unfold SIZE_MOD in *; lia|].
  split; [by destruct hs|]. done.
Qed.

Lemma header_list_push_all_witness :
  let hl := foldl HeaderArray.header_list_push HeaderArray.header_list_init
              (replicate 129 (plain_header 0 0)) in
  HeaderArray.items hl = foldl header_list_push [] (replicate 129 (plain_header 0 0))
  ∧ HeaderArray.items hl = replicate 129 (plain_header 0 0)
  ∧ HeaderArray.count hl ≤ HeaderArray.cap hl
  ∧ HeaderArray.alloc_bytes hl = 32 * HeaderArray.cap hl
  ∧ (replicate 129 (plain_header 0 0) = [] → HeaderArray.cap hl = 0)
  ∧ (replicate 129 (plain_header 0 0) ≠ [] →
     (∃ k : nat, HeaderArray.cap hl = 128 * 2 ^ Z.of_nat k)
     ∧ HeaderArray.cap hl ≤ Z.max 128 (2 * (HeaderArray.count hl - 1))).
Proof.
  apply (header_list_push_all (replicate 129 (plain_header 0 0))).
  vm_compute. reflexivity.
Defined.

Example header_list_push_129 :
  HeaderArray.cap (foldl HeaderArray.header_list_push HeaderArray.header_list_init
                     (replicate 129 (plain_header 0 0))) = 256.
Proof. vm_compute. reflexivity. Qed.


(** X9.  [looks_like_zlib] accepts a buffer exactly when it has two bytes or
    more, the first is 0x78 and the second is 0x01, 0x9C or 0xDA.  What it
    accepts is a zlib header: method 8 (deflate), window 32 KiB, no preset
    dictionary, and the two bytes read as a big-endian number are a multiple
    of 31.  It does not accept every such header: 0x78 0x5E is one. *)
Theorem looks_like_zlib_header b :
  (looks_like_zlib b = true ↔
     2 ≤ Z.of_nat (length b) ∧ u8 (byte_at b 0) = 0x78
     ∧ (u8 (byte_at b 1) = 0x01 ∨ u8 (byte_at b 1) = 0x9C ∨ u8 (byte_at b 1) = 0xDA))
  ∧ (looks_like_zlib b = true →
     u8 (byte_at b 0) mod 16 = 8 ∧ u8 (byte_at b 0) / 16 = 7
     ∧ (u8 (byte_at b 1) / 32) mod 2 = 0
     ∧ (u8 (byte_at b 0) * 256 + u8 (byte_at b 1)) mod 31 = 0)
  ∧ (looks_like_zlib ["x"%byte; "^"%byte] = false
     ∧ (u8 "x"%byte * 256 + u8 "^"%byte) mod 31 = 0).
Proof.
  assert (Hiff : looks_like_zlib b = true ↔
     2 ≤ Z.of_nat (length b) ∧ u8 (byte_at b 0) = 0x78
     ∧ (u8 (byte_at b 1) = 0x01 ∨ u8 (byte_at b 1) = 0x9C ∨ u8 (byte_at b 1) = 0xDA)).
  { unfold looks_like_zlib.
    destruct (Z.ltb_spec (Z.of_nat (length b)) 2) as [Hlt | Hge].
    - split; [done | lia].
    - rewrite andb_true_iff, !orb_true_iff, !Z.eqb_eq. tauto. }
  split; [exact Hiff|]. split; [|split; reflexivity].
  intros (_ & -> & [-> | [-> | ->]])%Hiff; repeat split; reflexivity.
Qed.

(** X10.  A failed attempt of [try_inflate] returns -1 when [inflateInit2]
    does not return [Z_OK], and then without any call of [inflate]; it
    returns -2 otherwise, when a call of [inflate] returned something other
    than [Z_OK] and [Z_STREAM_END]. *)
Theorem try_inflate_failure z fuel input wb rc :
  try_inflate z fuel input wb = Some (TryFail rc) →
  (inflateInit2 z wb = None ∧ rc = -1
   ∧ ∀ fuel', try_inflate z fuel' input wb = Some (TryFail (-1)))
  ∨ (is_Some (inflateInit2 z wb) ∧ rc = -2
     ∧ ∃ st : inflate_state z, inflate_iter st = inr (TryFail (-2))).
Proof.
  unfold try_inflate. destruct (inflateInit2 z wb) as [strm|] eqn:Hinit.
  - intros Hrun. right. split; [by eexists|].
    revert Hrun. generalize (inflate_start input strm).
    induction fuel as [|fuel IH]; intros st; [done|].
    simpl. destruct (inflate_iter st) as [st'|r] eqn:Hiter; [by apply IH|].
    intros [= ->].
    assert (rc = -2) as ->.
    { unfold inflate_iter in Hiter.
      destruct (inflate z _ _ _) as [[[ret ?] ?] ?]. destruct ret; simplify_eq. done. }
    split; [done|]. by exists st.
  - intros [= <-]. left. done.
Qed.

Lemma try_inflate_failure_witness :
  (inflateInit2 reject_zlib 15 = None ∧ -2 = -1
   ∧ ∀ fuel', try_inflate reject_zlib fuel' two_records 15 = Some (TryFail (-1)))
  ∨ (is_Some (inflateInit2 reject_zlib 15) ∧ -2 = -2
     ∧ ∃ st : inflate_state reject_zlib, inflate_iter st = inr (TryFail (-2))).
Proof.
  apply (try_inflate_failure reject_zlib 1 two_records 15 (-2)).
  vm_compute. reflexivity.
Defined.

(** X11.  A turn of the inflate loop on a buffer in order ([total <= cap],
    [total] bytes written) whose grown capacity fits [unsigned]: the decoder
    is given room for at least one byte, and all the room there is; if it
    keeps to that room, the bytes it produced are appended to the output,
    [total] grows by their number and stays within the capacity, and on
    [Z_STREAM_END] the result is the output with them. *)
Theorem inflate_iter_appends (z : zlib) (st : inflate_state z) ret strm' next_in' produced :
  0 ≤ is_total st ≤ is_cap st →
  Z.of_nat (length (is_out st)) = is_total st →
  2 * is_cap st + 8192 < U32_MOD →
  let cap := grow_cap (is_cap st) (is_total st) in
  inflate z (is_strm st) (is_next_in st) (cap - is_total st)
    = (ret, strm', next_in', produced) →
  Z.of_nat (length produced) ≤ cap - is_total st →
  0 < cap - is_total st
  ∧ is_cap st ≤ cap
  ∧ match ret with
    | Z_OK =>
        inflate_iter st =
          inl (mkInflate cap (is_total st + Z.of_nat (length produced))
                 (is_out st ++ produced) strm' next_in')
        ∧ is_total st + Z.of_nat (length produced) ≤ cap
    | Z_STREAM_END => inflate_iter st = inr (TryOk (is_out st ++ produced))
    | Z_ERROR _ => inflate_iter st = inr (TryFail (-2))
    end.
Proof.
  intros Htot Hlen Hfit cap Hcall Hroom.
  assert (Hcap : cap = if is_total st =? is_cap st then 2 * is_cap st + 8192
                       else is_cap st).
  { subst cap. unfold grow_cap. destruct (is_total st =? is_cap st); [|done].
    rewrite Z.mod_small; unfold SIZE_MOD, U32_MOD in *; lia. }
  assert (Hpos : 0 < cap - is_total st ∧ is_cap st ≤ cap).
  { rewrite Hcap. destruct (Z.eqb_spec (is_total st) (is_cap st)); lia. }
  assert (Havail : to_u32 (cap - is_total st) = cap - is_total st).
  { apply to_u32_small. rewrite Hcap in *.
    destruct (Z.eqb_spec (is_total st) (is_cap st)); lia. }
  split; [apply Hpos|]. split; [apply Hpos|].
  unfold inflate_iter. fold cap. rewrite Havail, Hcall.
  assert (Hout : resize (Z.to_nat (is_total st)) "000"%byte (is_out st) = is_out st).
  { apply resize_all_alt. lia. }
  rewrite Hout.
  replace (cap - (cap - is_total st - Z.of_nat (length produced)))
    with (is_total st + Z.of_nat (length produced)) by lia.
  destruct ret; [split; [done | lia] | | done].
  do 2 f_equal. apply resize_all_alt. rewrite length_app. lia.
Qed.

Lemma inflate_iter_appends_witness :
  0 < grow_cap 4096 4096 - 4096
  ∧ 4096 ≤ grow_cap 4096 4096
  ∧ inflate_iter runs_state_full =
      inl (@mkInflate runs_zlib (grow_cap 4096 4096)
             (4096 + Z.of_nat (length (replicate (Z.to_nat 12288) "000"%byte)))
             (replicate 4096 "000"%byte ++ replicate (Z.to_nat 12288) "000"%byte) 8192 [])
  ∧ 4096 + Z.of_nat (length (replicate (Z.to_nat 12288) "000"%byte)) ≤ grow_cap 4096 4096.
Proof.
  apply (inflate_iter_appends runs_zlib runs_state_full Z_OK 8192 []
           (replicate (Z.to_nat 12288) "000"%byte)).
  - simpl. lia.
  - vm_compute. reflexivity.
  - vm_compute. reflexivity.
  - vm_compute. reflexivity.
  - vm_compute. discriminate.
Defined.


(** ** [copy_img_slice] and [write_wrld] *)

Lemma copy_loop_requests img file fuel left total w r w' :
  0 ≤ left →
  copy_loop fuel img file left total w = Some (r, w') →
  ∃ new,
    w_reads w' = w_reads w ++ new
    ∧ Forall (λ q, q.2 ≤ CHUNK) new
    ∧ Z.of_nat (length new) * CHUNK < left + CHUNK
    ∧ w_img_pos w' = w_img_pos w + (r - total).
Proof.
  revert left total w r w'. induction fuel as [|fuel IH]; intros left total w r w' Hleft; [done|].
  rewrite copy_loop_S. pose proof CHUNK_pos as HC.
  destruct (Z.eqb_spec left 0) as [-> | Hl].
  { intros [= <- <-]. exists []. rewrite app_nil_r. repeat split; first [done | simpl; lia]. }
  set (want := if CHUNK <? left then CHUNK else left).
  assert (Hwant : 0 < want ≤ left ∧ want ≤ CHUNK).
  { subst want. destruct (Z.ltb_spec CHUNK left); lia. }
  unfold fread. simpl.
  set (data := take (Z.to_nat want) (drop (Z.to_nat (w_img_pos w)) img)).
  assert (Hdata : Z.of_nat (length data) ≤ want).
  { subst data. rewrite length_take. lia. }
  destruct (Z.eqb_spec (Z.of_nat (length data)) 0) as [H0 | H0].
  { intros [= <- <-]. exists [(w_img_pos w, want)]. simpl.
    repeat split; first [done | by repeat constructor; simpl; lia | simpl; lia]. }
  destruct (Z.ltb_spec (Z.of_nat (length data)) want) as [Hlt | Hge].
  { intros [= <- <-]. exists [(w_img_pos w, want)]. simpl.
    repeat split; first [done | by repeat constructor; simpl; lia | simpl; lia]. }
  intros Hrun. apply IH in Hrun as (new & Hreads & Hsmall & Hcount & Hpos); [|lia].
  exists ((w_img_pos w, want) :: new). simpl in *.
  split; [by rewrite Hreads, <- app_assoc|].
  split; [constructor; [simpl; lia | done]|].
  split; [|lia].
  assert (Z.of_nat (length data) = want) by lia.
  destruct (Z.ltb_spec CHUNK left); subst want; [lia|].
  replace (left - Z.of_nat (length data)) with 0 in * by lia.
  destruct new as [|? new']; simpl in *; lia.
Qed.

(** X12.  [copy_img_slice] from a [start] that [off_t] can hold
    ([0 <= start < 2^63], where the seek succeeds) on an open output file: it
    appends the payload bytes from [start] to [end], or to the end of the
    stream if that comes first, returns their number and leaves the stream
    after them;
    it asks for at most 1 MiB at a time, only for bytes of [[start, end)],
    and makes no more requests than that needs; with [end <= start] it reads
    and writes nothing. *)
Theorem copy_img_slice_exact img start end_ file w cur :
  0 ≤ start < 2 ^ 63 →
  w_files w !! file = Some cur →
  let n := Z.min (Z.max 0 (end_ - start)) (Z.max 0 (Z.of_nat (length img) - start)) in
  ∃ w' reads,
    copy_img_slice img start end_ file w = Some (n, w')
    ∧ w_files w' = <[file := cur ++ take (Z.to_nat n) (drop (Z.to_nat start) img)]> (w_files w)
    ∧ w_log w' = w_log w
    ∧ w_img_pos w' = start + n
    ∧ w_reads w' = w_reads w ++ reads
    ∧ Forall (λ q, start ≤ q.1 ∧ 0 < q.2 ≤ CHUNK ∧ q.1 + q.2 ≤ Z.max start end_) reads
    ∧ Z.of_nat (length reads) * CHUNK < Z.max 0 (end_ - start) + CHUNK
    ∧ (end_ ≤ start → reads = []).
Proof.
  intros [Hstart _] Hcur n.
  destruct (copy_img_slice_spec img start end_ file w cur Hstart Hcur)
    as (w' & new & Hrun & Hfiles & Hlog & Hreads & Hnew).
  set (left := if start <? end_ then end_ - start else 0) in *.
  assert (Hleft : left = Z.max 0 (end_ - start)).
  { subst left. destruct (Z.ltb_spec start end_); lia. }
  assert (Hbody : take (Z.to_nat left) (drop (Z.to_nat start) img)
                  = take (Z.to_nat n) (drop (Z.to_nat start) img)).
  { destruct (Z.le_gt_cases left (Z.of_nat (length img) - start)) as [Hle | Hgt].
    - f_equal. lia.
    - rewrite !take_ge; [done | rewrite length_drop; lia | rewrite length_drop; lia]. }
  assert (Hn : Z.of_nat (length (take (Z.to_nat left) (drop (Z.to_nat start) img))) = n).
  { rewrite length_take, length_drop. lia. }
  rewrite Hn in Hrun. rewrite Hbody in Hfiles.
  unfold copy_img_slice in Hrun. fold left in Hrun.
  pose proof Hrun as Hreq.
  apply copy_loop_requests in Hreq as (new' & Hreads' & Hsmall & Hcount & Hpos); [|lia].
  simpl in Hreads', Hpos.
  assert (new' = new) as -> by (rewrite Hreads in Hreads'; by apply app_inv_head in Hreads').
  exists w', new. unfold copy_img_slice. fold left. rewrite Hrun.
  repeat split; try done.
  - lia.
  - rewrite Forall_forall in Hnew, Hsmall |- *. intros q Hq.
    specialize (Hnew q Hq). specialize (Hsmall q Hq). simpl in Hnew. lia.
  - lia.
  - intros Hempty. assert (left = 0) as Hl0 by lia. rewrite Hl0 in Hcount.
    destruct new; [done | simpl in Hcount; pose proof CHUNK_pos; lia].
Qed.

Lemma copy_img_slice_exact_witness :
  let img := replicate 100 "042"%byte in
  let w := w_set_file 0 [] (world_init None) in
  let n := Z.min (Z.max 0 (130 - 50)) (Z.max 0 (Z.of_nat (length img) - 50)) in
  ∃ w' reads,
    copy_img_slice img 50 130 0 w = Some (n, w')
    ∧ w_files w' = <[0%nat := [] ++ take (Z.to_nat n) (drop (Z.to_nat 50) img)]> (w_files w)
    ∧ w_log w' = w_log w
    ∧ w_img_pos w' = 50 + n
    ∧ w_reads w' = w_reads w ++ reads
    ∧ Forall (λ q, 50 ≤ q.1 ∧ 0 < q.2 ≤ CHUNK ∧ q.1 + q.2 ≤ Z.max 50 130) reads
    ∧ Z.of_nat (length reads) * CHUNK < Z.max 0 (130 - 50) + CHUNK
    ∧ (130 ≤ 50 → reads = []).
Proof.
  intros img w.
  apply (copy_img_slice_exact img 50 130 0%nat w []).
  - lia.
  - reflexivity.
Defined.


(** The file a good sink is left with, in every case of the body range. *)
Lemma write_wrld_file s h decomp img img_size file w :
  sink_good s = true → 0 ≤ continuation h →
  ∃ w', write_wrld s h decomp img img_size file w = Some (0, w')
        ∧ w_files w' = <[file := wrld_file h decomp img img_size]> (w_files w)
        ∧ (∀ ls, w_log w = Some ls → ∃ ls', w_log w' = Some (ls ++ ls')).
Proof.
  intros Hgood Hstart. rewrite write_wrld_good by done. simpl.
  unfold wrld_file, wrld_body. fold (wrld_need h).
  destruct (Z.ltb_spec img_size (continuation h)) as [Hb | Hb].
  { eexists. split; [done|]. simpl. split; [|intros ls ->; simpl; eauto].
    unfold w_set_file. simpl. by rewrite app_nil_r. }
  assert (Hneed : 0 ≤ wrld_need h).
  { unfold wrld_need. destruct (Z.leb_spec 32 (total_size h)); lia. }
  set (w1 := w_set_file file (header_bytes h decomp) w).
  set (c := if img_size <? continuation h + wrld_need h
            then (img_size, w_fprintf (LogClipped (continuation h + wrld_need h) img_size) w1)
            else (continuation h + wrld_need h, w1)).
  assert (Hc : c.1 = Z.min (continuation h + wrld_need h) img_size
               ∧ w_files c.2 = w_files w1 ∧ w_reads c.2 = w_reads w1
               ∧ ∀ ls, w_log w = Some ls → ∃ ls', w_log c.2 = Some (ls ++ ls')).
  { subst c. destruct (Z.ltb_spec img_size (continuation h + wrld_need h)); simpl.
    - repeat split; [lia|]. intros ls ->. simpl. eauto.
    - repeat split; [lia|]. intros ls ->. exists []. by rewrite app_nil_r. }
  destruct c as [end_ w2]. simpl in Hc. destruct Hc as (-> & Hf2 & _ & Hl2).
  destruct (copy_img_slice_spec img (continuation h)
              (Z.min (continuation h + wrld_need h) img_size) file w2
              (header_bytes h decomp)) as (w3 & new & Hrun & Hf3 & Hl3 & _).
  { done. } { rewrite Hf2. subst w1. simpl. apply lookup_insert_eq. }
  rewrite Hrun. simpl. eexists. split; [done|]. simpl. split.
  - rewrite Hf3, Hf2. subst w1. simpl. rewrite insert_insert_eq. do 3 f_equal.
    destruct (Z.ltb_spec (continuation h)
                (Z.min (continuation h + wrld_need h) img_size)); lia.
  - intros ls Hls. destruct (Hl2 ls Hls) as (ls' & Hls'). rewrite Hl3, Hls'. simpl.
    eexists. by rewrite <- app_assoc.
Qed.

(** X13.  The ordinary case of [write_wrld]: a sink that works and a body
    range that lies inside the payload.  The file is the 32 header bytes
    followed by the [total_size - 32] payload bytes from [continuation], the
    log gets the build line alone (no warning), and the bytes written are
    [total_size] as the header announces.  A [total_size] below 32 counts as
    an empty body. *)
Theorem write_wrld_in_range s h decomp img img_size file w :
  sink_good s = true →
  0 ≤ lvz_off h → lvz_off h + 32 ≤ Z.of_nat (length decomp) →
  0 ≤ continuation h →
  continuation h + wrld_need h ≤ img_size → img_size ≤ Z.of_nat (length img) →
  let body := take (Z.to_nat (wrld_need h)) (drop (Z.to_nat (continuation h)) img) in
  ∃ w',
    write_wrld s h decomp img img_size file w = Some (0, w')
    ∧ w_files w' = <[file := header_bytes h decomp ++ body]> (w_files w)
    ∧ w_log w' = fprintf (w_log w)
                   (LogBuild file (wrld_need h) (32 + wrld_need h) (total_size h))
    ∧ Z.of_nat (length (header_bytes h decomp ++ body)) = 32 + wrld_need h
    ∧ (32 ≤ total_size h →
       Z.of_nat (length (header_bytes h decomp ++ body)) = total_size h)
    ∧ (total_size h < 32 → body = []).
Proof.
  intros Hgood Hoff Hoff' Hstart Hend Himg body.
  assert (Hneed : 0 ≤ wrld_need h).
  { unfold wrld_need. destruct (Z.leb_spec 32 (total_size h)); lia. }
  rewrite write_wrld_good by done. simpl. fold (wrld_need h).
  destruct (Z.ltb_spec img_size (continuation h)) as [? | _]; [lia|].
  destruct (Z.ltb_spec img_size (continuation h + wrld_need h)) as [? | _]; [lia|].
  set (w1 := w_set_file file (header_bytes h decomp) w).
  destruct (copy_img_slice_spec img (continuation h) (continuation h + wrld_need h)
              file w1 (header_bytes h decomp))
    as (w3 & new & Hrun & Hf3 & Hl3 & _); [done | apply lookup_insert_eq |].
  assert (Hleft : (if continuation h <? continuation h + wrld_need h
                   then continuation h + wrld_need h - continuation h else 0)
                  = wrld_need h).
  { destruct (Z.ltb_spec (continuation h) (continuation h + wrld_need h)); lia. }
  rewrite Hleft in Hrun, Hf3. fold body in Hrun, Hf3.
  assert (Hbody : Z.of_nat (length body) = wrld_need h).
  { subst body. rewrite length_take, length_drop. lia. }
  rewrite Hbody in Hrun. rewrite Hrun. simpl.
  assert (Hlen : Z.of_nat (length (header_bytes h decomp ++ body)) = 32 + wrld_need h).
  { rewrite length_app, Nat2Z.inj_add, Hbody, header_bytes_length by done. lia. }
  eexists. split; [done|]. simpl. repeat split.
  - rewrite Hf3. subst w1. simpl. by rewrite insert_insert_eq.
  - by rewrite Hl3.
  - exact Hlen.
  - intros Htot. rewrite Hlen. unfold wrld_need.
    destruct (Z.leb_spec 32 (total_size h)); lia.
  - intros Htot. subst body. unfold wrld_need.
    destruct (Z.leb_spec 32 (total_size h)); [lia | done].
Qed.

Lemma write_wrld_in_range_witness :
  let h := mkWrldHeader 0 7 40 1 2 3 64 0 in
  let img := replicate 100 "042"%byte in
  let w := world_init (Some []) in
  let body := take (Z.to_nat (wrld_need h)) (drop (Z.to_nat (continuation h)) img) in
  ∃ w',
    write_wrld (mkSink true 32) h two_records img 100 0 w = Some (0, w')
    ∧ w_files w' = <[0%nat := header_bytes h two_records ++ body]> (w_files w)
    ∧ w_log w' = fprintf (w_log w)
                   (LogBuild 0 (wrld_need h) (32 + wrld_need h) (total_size h))
    ∧ Z.of_nat (length (header_bytes h two_records ++ body)) = 32 + wrld_need h
    ∧ (32 ≤ total_size h →
       Z.of_nat (length (header_bytes h two_records ++ body)) = total_size h)
    ∧ (total_size h < 32 → body = []).
Proof.
  intros h img w.
  apply (write_wrld_in_range (mkSink true 32) h two_records img 100 0%nat w);
    vm_compute; first [reflexivity | discriminate].
Defined.

(** X14.  [write_wrld] always returns, with 0, -1 or -2: 0 exactly when the
    output file opens and the header write returns 32, -1 exactly when the
    file does not open, -2 exactly when it opens and the header write falls
    short.  Nothing about the payload makes it fail.  When it fails it has
    not touched the payload stream, and with -1 it has not touched any
    file. *)
Theorem write_wrld_return_code s h decomp img img_size file w :
  ∃ rc w',
    write_wrld s h decomp img img_size file w = Some (rc, w')
    ∧ (rc = 0 ∨ rc = -1 ∨ rc = -2)
    ∧ (rc = 0 ↔ fopen_ok s = true ∧ header_fwrite s = 32)
    ∧ (rc = -1 ↔ fopen_ok s = false)
    ∧ (rc = -2 ↔ fopen_ok s = true ∧ header_fwrite s ≠ 32)
    ∧ (rc ≠ 0 → w_reads w' = w_reads w ∧ w_img_pos w' = w_img_pos w)
    ∧ (rc = -1 → w_files w' = w_files w)
    ∧ (rc = -2 →
       w_files w' = <[file := take (Z.to_nat (header_fwrite s)) (header_bytes h decomp)]>
                      (w_files w)).
Proof.
  destruct (fopen_ok s) eqn:Hopen; [destruct (Z.eqb_spec (header_fwrite s) 32) as [Hh | Hh]|].
  - assert (Hgood : sink_good s = true) by (apply sink_good_iff; done).
    destruct (write_wrld_outcome s h decomp img img_size file w)
      as (rc & w' & Hrun & Hok & _).
    destruct (Hok Hgood) as [-> _].
    exists 0, w'. split; [done|]. repeat split; try done; try lia; auto.
  - unfold write_wrld. rewrite Hopen. simpl.
    apply Z.eqb_neq in Hh as Hh'. rewrite Hh'. simpl.
    eexists (-2), _. split; [done|]. simpl.
    repeat split; try done; try lia; auto; intros []; done.
  - unfold write_wrld. rewrite Hopen. simpl.
    eexists (-1), _. split; [done|]. simpl.
    repeat split; try done; try lia; auto; intros []; done.
Qed.


(** ** The loop of [main] and [main] *)

Lemma write_all_S env decomp img img_size h hs i written w :
  write_all env decomp img img_size (h :: hs) i written w =
    '(rc, w1) ← write_wrld (sinks env i) h decomp img img_size i w;
    if rc =? 0 then write_all env decomp img img_size hs (S i) (written + 1) w1
    else write_all env decomp img img_size hs (S i) written
           (w_fprintf (LogFailed i rc) w1).
Proof. reflexivity. Qed.

(** With sinks that all work the loop writes every record: file [i + k] is
    the record of the [k]-th header, no other file is touched, and the count
    grows by the number of headers. *)
Lemma write_all_files env decomp img img_size hs i written w :
  (∀ k, sink_good (sinks env k) = true) →
  Forall (λ h, 0 ≤ continuation h) hs →
  ∃ w',
    write_all env decomp img img_size hs i written w
      = Some (written + Z.of_nat (length hs), w')
    ∧ (∀ k, w_files w' !! k =
            if bool_decide (i ≤ k < i + length hs)%nat
            then (λ h, wrld_file h decomp img img_size) <$> hs !! (k - i)%nat
            else w_files w !! k)
    ∧ (∀ ls, w_log w = Some ls → ∃ ls', w_log w' = Some (ls ++ ls')).
Proof.
  intros Hgood. revert i written w.
  induction hs as [|h hs IH]; intros i written w Hcont.
  { exists w. simpl. split; [f_equal; f_equal; lia|]. split.
    - intros k. rewrite bool_decide_eq_false_2; [done | lia].
    - intros ls ->. exists []. by rewrite app_nil_r. }
  apply Forall_cons_1 in Hcont as [Hh Hcont].
  rewrite write_all_S.
  destruct (write_wrld_file (sinks env i) h decomp img img_size i w (Hgood i) Hh)
    as (w1 & Hrun & Hf1 & Hl1).
  rewrite Hrun. simpl.
  destruct (IH (S i) (written + 1) w1 Hcont) as (w' & Hall & Hfiles & Hlog).
  exists w'. split; [rewrite Hall; f_equal; f_equal; simpl; lia|]. split.
  - intros k. rewrite Hfiles. simpl.
    destruct (decide (k = i)) as [-> | Hk].
    + rewrite bool_decide_eq_false_2 by lia. rewrite bool_decide_eq_true_2 by lia.
      rewrite Nat.sub_diag, Hf1, lookup_insert_eq. done.
    + case_bool_decide as H1; case_bool_decide as H2; try lia.
      * replace (k - i)%nat with (S (k - S i)) by lia. done.
      * rewrite Hf1, lookup_insert_ne by done. done.
  - intros ls Hls. destruct (Hl1 ls Hls) as (ls1 & Hls1).
    destruct (Hlog _ Hls1) as (ls2 & Hls2). exists (ls1 ++ ls2).
    by rewrite Hls2, app_assoc.
Qed.

Lemma write_wrld_dom s h decomp img img_size file w rc w' :
  write_wrld s h decomp img img_size file w = Some (rc, w') →
  ∀ k, is_Some (w_files w' !! k) →
       is_Some (w_files w !! k) ∨ (k = file ∧ fopen_ok s = true).
Proof.
  intros Hrun k Hk. destruct (decide (k = file)) as [-> | Hne].
  - destruct (fopen_ok s) eqn:Hopen; [by right|]. left.
    unfold write_wrld in Hrun. rewrite Hopen in Hrun. simpl in Hrun.
    by injection Hrun as <- <-.
  - left. destruct (write_wrld_outcome s h decomp img img_size file w)
      as (rc1 & w1 & Hrun1 & _ & _ & Hframe & _).
    rewrite Hrun in Hrun1. injection Hrun1 as <- <-. by rewrite <- Hframe.
Qed.

(** The count of the loop and the files it leaves, whatever the sinks do. *)
Lemma write_all_count env decomp img img_size hs i written w :
  ∃ w',
    write_all env decomp img img_size hs i written w
      = Some (written + Z.of_nat (length (filter (λ k, sink_good (sinks env k) = true)
                                                 (seq i (length hs)))), w')
    ∧ (∀ k, is_Some (w_files w' !! k) →
            is_Some (w_files w !! k)
            ∨ ((i ≤ k < i + length hs)%nat ∧ fopen_ok (sinks env k) = true))
    ∧ (∀ ls, w_log w = Some ls → ∃ ls', w_log w' = Some (ls ++ ls')).
Proof.
  revert i written w. induction hs as [|h hs IH]; intros i written w.
  { exists w. simpl. split; [f_equal; f_equal; lia|]. split; [by left|].
    intros ls ->. exists []. by rewrite app_nil_r. }
  rewrite write_all_S.
  destruct (write_wrld_outcome (sinks env i) h decomp img img_size i w)
    as (rc & w1 & Hrun & Hok & Hbad & _ & Hl1).
  pose proof (write_wrld_dom _ _ _ _ _ _ _ _ _ Hrun) as Hdom.
  rewrite Hrun. simpl.
  assert (Hstep : ∀ written1 w2,
            (w_files w2 = w_files w1) →
            (∀ ls, w_log w = Some ls → ∃ ls', w_log w2 = Some (ls ++ ls')) →
            written1 = written + (if sink_good (sinks env i) then 1 else 0) →
            ∃ w', write_all env decomp img img_size hs (S i) written1 w2
                  = Some (written + Z.of_nat (length (filter
                             (λ k, sink_good (sinks env k) = true)
                             (seq i (length (h :: hs))))), w')
                ∧ (∀ k, is_Some (w_files w' !! k) →
                     is_Some (w_files w !! k)
                     ∨ ((i ≤ k < i + length (h :: hs))%nat
                        ∧ fopen_ok (sinks env k) = true))
                ∧ (∀ ls, w_log w = Some ls → ∃ ls', w_log w' = Some (ls ++ ls'))).
  { intros written1 w2 Hf2 Hl2 ->.
    destruct (IH (S i) (written + (if sink_good (sinks env i) then 1 else 0)) w2)
      as (w' & Hall & Hfiles & Hlog).
    exists w'. split; [|split].
    - rewrite Hall. f_equal. f_equal. simpl. rewrite filter_cons.
      destruct (sink_good (sinks env i)) eqn:Hg.
      + rewrite decide_True by done. simpl. lia.
      + rewrite decide_False by done. lia.
    - intros k Hk. destruct (Hfiles k Hk) as [Hin | [Hr Ho]].
      + rewrite Hf2 in Hin. destruct (Hdom k Hin) as [? | [-> ?]]; [by left|].
        right. simpl. split; [lia | done].
      + right. simpl. split; [lia | done].
    - intros ls Hls. destruct (Hl2 ls Hls) as (ls1 & Hls1).
      destruct (Hlog _ Hls1) as (ls2 & Hls2). exists (ls1 ++ ls2).
      by rewrite Hls2, app_assoc. }
  destruct (sink_good (sinks env i)) eqn:Hg.
  - destruct (Hok eq_refl) as [-> _]. simpl. apply Hstep; [done | done | lia].
  - destruct (Hbad eq_refl) as [Hrc _].
    assert ((rc =? 0) = false) as -> by (apply Z.eqb_neq; lia).
    apply Hstep; [done | | lia].
    intros ls Hls. destruct (Hl1 ls Hls) as (ls1 & Hls1). simpl. rewrite Hls1. simpl.
    eexists. by rewrite <- app_assoc.
Qed.

Lemma main_at_scan z qsort fuel env raw decomp :
  reaches_scan z fuel env raw decomp →
  main z qsort fuel env =
    '(headers, log) ← scan_slave_headers qsort decomp (log_at_scan raw decomp);
    if bool_decide (length headers = 0%nat)
    then Some (4, world_init (fprintf log LogNoHeaders))
    else
      match img_file env with
      | None => Some (5, world_init (fprintf log LogCannotOpenImg))
      | Some img =>
          let img_size := Z.of_nat (length img) in
          '(written, w) ← write_all env decomp img img_size headers 0 0
                            (world_init (fprintf log (LogImgBytes img_size)));
          Some (0, w_fprintf (LogDone written) w)
      end.
Proof.
  intros (Hargc & Himg & Hlog & Hlvz & Hdec & Hlen).
  unfold main, log_at_scan. rewrite Hargc, Himg, Hlog, Hlvz, Hdec.
  cbn -[write_all scan_slave_headers].
  destruct (Z.ltb_spec (Z.of_nat (length decomp)) 32); [lia | done].
Qed.


Lemma header_at_continuation d j : 0 ≤ continuation (header_at d j).
Proof. simpl. apply read_u32le_range. Qed.

Lemma foldl_fprintf_some lines l0 :
  foldl fprintf (Some l0) lines = Some (l0 ++ lines).
Proof.
  revert l0. induction lines as [|l lines IH]; intros l0; simpl.
  - by rewrite app_nil_r.
  - rewrite IH, <- app_assoc. done.
Qed.

(** An open log stays open through the scan, and only grows. *)
Lemma scan_slave_headers_log_some qsort d ls out log' :
  scan_slave_headers qsort d (Some ls) = Some (out, log') →
  ∃ ls', log' = Some (ls ++ ls').
Proof.
  unfold scan_slave_headers.
  destruct (scan_raw d (Some ls)) as [st|] eqn:Hraw; [|done]. simpl.
  intros [= <- <-]. unfold scan_raw in Hraw.
  apply (scan_loop_inv (Some ls)) in Hraw as [_ Hlog]; [|done].
  rewrite Hlog. unfold scan_log_of. rewrite foldl_fprintf_some. simpl.
  eexists. by rewrite <- app_assoc.
Qed.

Lemma log_at_scan_some raw decomp : ∃ l, log_at_scan raw decomp = Some l.
Proof. unfold log_at_scan. destruct (is_marker decomp 0); simpl; eauto. Qed.

(** X15.  End to end.  When the run gets as far as the scan, the positions
    of the index fit 32 bits, at least one is accepted, the payload opens and
    every output file can be written, [main] exits with 0 and leaves exactly
    one file per accepted position, numbered from 0 in ascending order of
    position: the 32 bytes at the position followed by the body for the
    header read there.  The last log line gives their number. *)
Theorem main_extracts_records z qsort fuel env raw decomp img :
  sorts_by_offset qsort →
  reaches_scan z fuel env raw decomp →
  offsets_fit_u32 decomp →
  let positions := accepted_from decomp (Z.of_nat (length decomp)) 0 in
  positions ≠ [] →
  img_file env = Some img →
  (∀ k, sink_good (sinks env k) = true) →
  ∃ w ls,
    main z qsort fuel env = Some (0, w)
    ∧ (∀ k, w_files w !! k =
            (λ j, take 32 (drop (Z.to_nat j) decomp)
                  ++ wrld_body (header_at decomp j) img (Z.of_nat (length img)))
            <$> positions !! k)
    ∧ w_log w = Some (ls ++ [LogDone (Z.of_nat (length positions))]).
Proof.
  intros [Hperm Hsorted] Hreach Hfit positions Hpos Himg Hsinks.
  rewrite (main_at_scan _ _ _ _ _ _ Hreach).
  destruct (scan_slave_headers_fit qsort Hperm Hsorted decomp
              (log_at_scan raw decomp) Hfit) as (log' & Hscan).
  rewrite Hscan. cbn -[write_all]. fold positions.
  rewrite bool_decide_eq_false_2; cycle 1.
  { rewrite length_fmap. by destruct positions. }
  rewrite Himg.
  set (w0 := world_init _).
  destruct (write_all_files env decomp img (Z.of_nat (length img))
              (header_at decomp <$> positions) 0 0 w0 Hsinks)
    as (w' & Hall & Hfiles & Hlog).
  { apply Forall_fmap, Forall_forall. intros j _. apply header_at_continuation. }
  rewrite Hall. cbn -[write_all].
  assert (Hlog0 : ∃ l0, w_log w0 = Some l0).
  { subst w0. simpl. destruct (log_at_scan_some raw decomp) as (l & Hl).
    rewrite Hl in Hscan.
    apply scan_slave_headers_log_some in Hscan as (ls' & ->). simpl. eauto. }
  destruct Hlog0 as (l0 & Hl0). destruct (Hlog l0 Hl0) as (ls' & Hls').
  eexists _, (l0 ++ ls'). split; [done|]. simpl. split.
  - intros k. rewrite Hfiles. rewrite length_fmap.
    case_bool_decide as Hk.
    + rewrite Nat.sub_0_r, list_lookup_fmap.
      destruct (positions !! k) as [j|] eqn:Hj; [|done]. simpl. f_equal.
      unfold wrld_file, header_bytes. simpl.
      apply list_elem_of_lookup_2, elem_of_accepted_from in Hj as (Hj0 & _ & Hjn & _).
      unfold offsets_fit_u32 in Hfit. rewrite to_u32_small by lia. done.
    + subst w0. simpl. rewrite lookup_empty.
      rewrite (lookup_ge_None_2 positions k) by lia. done.
  - rewrite Hls'. simpl. rewrite length_fmap. do 3 f_equal.
Qed.

Lemma main_extracts_records_witness :
  let positions := accepted_from two_records (Z.of_nat (length two_records)) 0 in
  ∃ w ls,
    main reject_zlib lib_qsort 1 plain_env = Some (0, w)
    ∧ (∀ k, w_files w !! k =
            (λ j, take 32 (drop (Z.to_nat j) two_records)
                  ++ wrld_body (header_at two_records j) (replicate 100 "042"%byte)
                       (Z.of_nat (length (replicate 100 "042"%byte))))
            <$> positions !! k)
    ∧ w_log w = Some (ls ++ [LogDone (Z.of_nat (length positions))]).
Proof.
  apply (main_extracts_records reject_zlib lib_qsort 1 plain_env two_records
           two_records (replicate 100 "042"%byte)).
  - exact lib_qsort_sorts.
  - unfold reaches_scan. vm_compute. repeat split; try reflexivity. discriminate.
  - unfold offsets_fit_u32. vm_compute. reflexivity.
  - vm_compute. discriminate.
  - reflexivity.
  - reflexivity.
Defined.


(** X16.  A run that ends with a nonzero status has created no output file
    and has not read the payload. *)
Theorem main_fatal_no_files z qsort fuel env rc w :
  main z qsort fuel env = Some (rc, w) → rc ≠ 0 →
  w_files w = ∅ ∧ w_reads w = [] ∧ w_img_pos w = 0.
Proof.
  unfold main. intros Hrun Hrc.
  destruct (negb (argc env =? 2)); [by injection Hrun as <- <-|].
  destruct (negb (img_exists env)); [by injection Hrun as <- <-|].
  destruct (negb (log_opens env)); [by injection Hrun as <- <-|].
  destruct (lvz_file env) as [raw|]; [|by injection Hrun as <- <-].
  destruct (maybe_decompress_lvz z fuel raw) as [decomp|]; [|done].
  cbn -[write_all scan_slave_headers] in Hrun.
  destruct (Z.of_nat (length decomp) <? 32); [by injection Hrun as <- <-|].
  destruct (scan_slave_headers qsort decomp _) as [[headers log]|]; [|done].
  cbn -[write_all] in Hrun.
  destruct (bool_decide (length headers = 0%nat)); [by injection Hrun as <- <-|].
  destruct (img_file env) as [img|]; [|by injection Hrun as <- <-].
  destruct (write_all _ _ _ _ _ _ _ _) as [[written w1]|]; [|done].
  simpl in Hrun. injection Hrun as <- <-. done.
Qed.

Lemma main_fatal_no_files_witness :
  let w := world_init (fprintf (fprintf (fprintf (Some [LogBanner]) (LogIo 64 64))
                                  (LogScanHit 0 (header_at two_records 0)))
                         (LogScanTotal 1)) in
  let w := world_init (fprintf (w_log w) LogCannotOpenImg) in
  w_files w = ∅ ∧ w_reads w = [] ∧ w_img_pos w = 0.
Proof.
  intros w0 w.
  apply (main_fatal_no_files reject_zlib lib_qsort 1
           (mkEnv 2 true true (Some two_records) None (λ _, mkSink true 32)) 5 w).
  - vm_compute. reflexivity.
  - discriminate.
Defined.

(** X17.  Once headers are found and the payload opens, [main] exits with 0
    whatever happens to the records: the last log line counts the records
    whose file opened and took the header, a file exists only for a record
    whose file opened, and if no file can be opened the run still exits with
    0, with a count of 0 and no file. *)
Theorem main_status_ignores_failures z qsort fuel env raw decomp h hs img :
  reaches_scan z fuel env raw decomp →
  fst <$> scan_slave_headers qsort decomp None = Some (h :: hs) →
  img_file env = Some img →
  let n := Z.of_nat (length (filter (λ k, sink_good (sinks env k) = true)
                                    (seq 0 (length (h :: hs))))) in
  ∃ w ls,
    main z qsort fuel env = Some (0, w)
    ∧ w_log w = Some (ls ++ [LogDone n])
    ∧ 0 ≤ n ≤ Z.of_nat (length (h :: hs))
    ∧ (∀ k, is_Some (w_files w !! k) →
            (k < length (h :: hs))%nat ∧ fopen_ok (sinks env k) = true)
    ∧ ((∀ k, fopen_ok (sinks env k) = false) → n = 0 ∧ w_files w = ∅).
Proof.
  intros Hreach Hscan Himg n.
  rewrite (main_at_scan _ _ _ _ _ _ Hreach).
  destruct (log_at_scan_some raw decomp) as (l0 & Hl0). rewrite Hl0.
  pose proof (scan_slave_headers_log qsort decomp (Some l0)) as Hlog.
  rewrite Hscan in Hlog.
  destruct (scan_slave_headers qsort decomp (Some l0)) as [[headers log']|] eqn:Hrun;
    [|done].
  simpl in Hlog. injection Hlog as ->.
  apply scan_slave_headers_log_some in Hrun as (l1 & ->).
  cbn -[write_all]. rewrite Himg.
  rewrite bool_decide_eq_false_2 by lia.
  set (w0 := world_init _).
  destruct (write_all_count env decomp img (Z.of_nat (length img)) (h :: hs) 0 0 w0)
    as (w' & Hall & Hdom & Hlogs).
  rewrite Hall. cbn -[write_all filter seq length].
  destruct (Hlogs _ eq_refl) as (l2 & Hl2).
  assert (Hn : 0 ≤ n ≤ Z.of_nat (length (h :: hs))).
  { subst n. split; [lia|].
    pose proof (length_filter (λ k, sink_good (sinks env k) = true)
                  (seq 0 (length (h :: hs)))) as Hle.
    rewrite length_seq in Hle. lia. }
  assert (Hfiles : ∀ k, is_Some (w_files w' !! k) →
                        (k < length (h :: hs))%nat ∧ fopen_ok (sinks env k) = true).
  { intros k Hk. destruct (Hdom k Hk) as [[x Hx] | [Hr Ho]].
    - subst w0. simpl in Hx. by rewrite lookup_empty in Hx.
    - split; [lia | done]. }
  eexists _, _. split; [done|]. simpl. rewrite Hl2. simpl.
  split; [done|]. split; [exact Hn|]. split; [exact Hfiles|].
  intros Hnone. split.
  - subst n. rewrite filter_none; [done|]. intros k _ Hg.
    apply sink_good_iff in Hg as [Hg _]. rewrite Hnone in Hg. done.
  - apply map_empty. intros k. apply eq_None_not_Some. intros Hk.
    apply Hfiles in Hk as [_ Hk]. rewrite Hnone in Hk. done.
Qed.

Lemma main_status_ignores_failures_witness :
  let env := mkEnv 2 true true (Some two_records) (Some (replicate 100 "042"%byte))
               (λ _, mkSink false 32) in
  let n := Z.of_nat (length (filter (λ k, sink_good (sinks env k) = true)
                                    (seq 0 (length [header_at two_records 0])))) in
  ∃ w ls,
    main reject_zlib lib_qsort 1 env = Some (0, w)
    ∧ w_log w = Some (ls ++ [LogDone n])
    ∧ 0 ≤ n ≤ Z.of_nat (length [header_at two_records 0])
    ∧ (∀ k, is_Some (w_files w !! k) →
            (k < length [header_at two_records 0])%nat ∧ fopen_ok (sinks env k) = true)
    ∧ ((∀ k, fopen_ok (sinks env k) = false) → n = 0 ∧ w_files w = ∅).
Proof.
  intros env.
  apply (main_status_ignores_failures reject_zlib lib_qsort 1 env two_records
           two_records (header_at two_records 0) [] (replicate 100 "042"%byte)).
  - unfold reaches_scan. vm_compute. repeat split; try reflexivity. discriminate.
  - vm_compute. reflexivity.
  - reflexivity.
Defined.

(** X18.  The run on an index without a marker: when the resolved index has
    32 bytes or more and no marker with 32 bytes after it, [main] exits with
    4; it has created no file, and the log says that the data does not start
    with the marker, that the collection is empty and that no header was
    found. *)
Theorem main_no_marker z qsort fuel env raw decomp :
  sorts_by_offset qsort →
  reaches_scan z fuel env raw decomp →
  (∀ j, 0 ≤ j → j + 32 ≤ Z.of_nat (length decomp) → is_marker decomp j = false) →
  main z qsort fuel env =
    Some (4, world_init
               (Some [LogBanner;
                      LogIo (Z.of_nat (length raw)) (Z.of_nat (length decomp));
                      LogNoDLRW; LogScanTotal 0; LogNoHeaders])).
Proof.
  intros [Hperm Hsorted] Hreach Hno.
  rewrite (main_at_scan _ _ _ _ _ _ Hreach).
  assert (Hnil : accepted_from decomp (Z.of_nat (length decomp)) 0 = []).
  { apply filter_none. intros j _ (Hj & Hm & Hn & _). rewrite Hno in Hm; done. }
  assert (H0 : is_marker decomp 0 = false).
  { apply Hno; [lia|]. by destruct Hreach as (_ & _ & _ & _ & _ & Hlen). }
  unfold log_at_scan. rewrite H0. simpl fprintf.
  set (L := Some [LogBanner; LogIo (Z.of_nat (length raw)) (Z.of_nat (length decomp));
                  LogNoDLRW]).
  unfold scan_slave_headers.
  destruct (scan_raw_spec decomp L) as (st & Hraw & Hout).
  rewrite Hraw. cbn -[write_all].
  unfold scan_raw in Hraw. apply (scan_loop_inv L) in Hraw as [_ Hlog]; [|done].
  rewrite Hlog, Hout, Hnil. simpl.
  assert (Hfin : finalize qsort [] = []).
  { unfold finalize. assert (qsort [] = []) as -> by (apply Permutation_nil_r, Hperm).
    done. }
  rewrite Hfin. simpl. done.
Qed.

Lemma main_no_marker_witness :
  main reject_zlib lib_qsort 1
    (mkEnv 2 true true (Some (replicate 40 "000"%byte)) None (λ _, mkSink true 32))
  = Some (4, world_init
               (Some [LogBanner;
                      LogIo (Z.of_nat (length (replicate 40 "000"%byte)))
                            (Z.of_nat (length (replicate 40 "000"%byte)));
                      LogNoDLRW; LogScanTotal 0; LogNoHeaders])).
Proof.
  apply (main_no_marker reject_zlib lib_qsort 1
           (mkEnv 2 true true (Some (replicate 40 "000"%byte)) None
              (λ _, mkSink true 32))
           (replicate 40 "000"%byte) (replicate 40 "000"%byte)).
  - exact lib_qsort_sorts.
  - unfold reaches_scan. vm_compute. repeat split; try reflexivity. discriminate.
  - intros j _ _. apply not_true_is_false. intros Hm.
    apply is_marker_bytes in Hm as [Hm _]. unfold byte_at in Hm.
    destruct (replicate 40 "000"%byte !! Z.to_nat j) as [x|] eqn:Hlk; simpl in Hm;
      [apply lookup_replicate in Hlk as [-> _]|]; discriminate.
Defined.

(** ** Paths *)

Lemma strrchr_None s c : strrchr s c = None ↔ c ∉ s.
Proof.
  induction s as [|x s IH]; simpl.
  - split; [intros _; apply not_elem_of_nil | done].
  - destruct (strrchr s c) as [n|].
    + split; [done|]. intros Hn. exfalso.
      assert (c ∉ s) as Hs by (intros Hin; apply Hn; by right).
      apply IH in Hs. done.
    + case_bool_decide as Hx.
      * split; [done|]. intros Hn. exfalso. apply Hn. subst. by left.
      * split; [|done]. intros _ Hin. apply elem_of_cons in Hin as [->|Hin]; [done|].
        by apply IH in Hin.
Qed.

Lemma strrchr_app a b c : c ∉ b → strrchr (a ++ c :: b) c = Some (length a).
Proof.
  intros Hb. induction a as [|x a IH]; simpl.
  - apply strrchr_None in Hb. rewrite Hb. by rewrite bool_decide_eq_true_2.
  - by rewrite IH.
Qed.

Lemma strrchr_Some s c n :
  strrchr s c = Some n → s = take n s ++ c :: drop (S n) s ∧ c ∉ drop (S n) s.
Proof.
  revert n. induction s as [|x s IH]; intros n; simpl; [done|].
  destruct (strrchr s c) as [m|] eqn:Hs.
  - intros [= <-]. destruct (IH m eq_refl) as [Heq Hnot]. simpl.
    split; [by rewrite <- Heq | done].
  - case_bool_decide as Hx; [|done]. intros [= <-]. subst x. simpl.
    rewrite drop_0. split; [done|]. by apply strrchr_None.
Qed.

Lemma clamp_small n outsz : n < outsz → clamp n outsz = n.
Proof. intros Hn. unfold clamp. destruct (Z.leb_spec outsz n); [lia | done]. Qed.

Lemma clamp_bound n outsz :
  1 ≤ outsz ≤ SIZE_MOD → 0 ≤ n → 0 ≤ clamp n outsz < outsz.
Proof.
  intros Hsz Hn. unfold clamp. destruct (Z.leb_spec outsz n); [|lia].
  rewrite Z.mod_small; lia.
Qed.

Lemma snprintf_fits outsz text :
  Z.of_nat (length text) < outsz → snprintf outsz text = text.
Proof. intros Hlen. unfold snprintf. apply take_ge. lia. Qed.

Lemma snprintf_length outsz text :
  1 ≤ outsz → Z.of_nat (length (snprintf outsz text)) < outsz.
Proof. intros Hsz. unfold snprintf. rewrite length_take. lia. Qed.

Lemma path_dirname_split dir file outsz :
  path_sep ∉ file → Z.of_nat (length dir) < outsz →
  path_dirname (dir ++ path_sep :: file) outsz = dir.
Proof.
  intros Hfile Hlen. unfold path_dirname. rewrite strrchr_app by done.
  rewrite clamp_small by done. rewrite Nat2Z.id. by rewrite take_app_length.
Qed.

Lemma path_dirname_bare file outsz :
  path_sep ∉ file → path_dirname file outsz = [].
Proof. intros Hfile. unfold path_dirname. apply strrchr_None in Hfile. by rewrite Hfile. Qed.

Lemma path_stem_file dir file outsz :
  path_sep ∉ file → path_stem (dir ++ path_sep :: file) outsz = path_stem file outsz.
Proof.
  intros Hfile. unfold path_stem. rewrite strrchr_app by done.
  pose proof Hfile as Hnone. apply strrchr_None in Hnone. rewrite Hnone.
  replace (S (length dir)) with (length (dir ++ [path_sep])) by (rewrite length_app; simpl; lia).
  replace (dir ++ path_sep :: file) with ((dir ++ [path_sep]) ++ file)
    by (by rewrite <- app_assoc).
  by rewrite drop_app_length.
Qed.

Lemma path_stem_ext stem ext outsz :
  path_sep ∉ stem → path_sep ∉ ext → "."%byte ∉ ext →
  Z.of_nat (length stem) < outsz →
  path_stem (stem ++ "."%byte :: ext) outsz = stem.
Proof.
  intros Hstem Hext Hdot Hlen. unfold path_stem.
  assert (Hnone : strrchr (stem ++ "."%byte :: ext) path_sep = None).
  { apply strrchr_None. intros Hin. apply elem_of_app in Hin as [Hin|Hin]; [done|].
    apply elem_of_cons in Hin as [Hin|Hin]; [discriminate | done]. }
  rewrite Hnone, strrchr_app by done.
  rewrite clamp_small by done. rewrite Nat2Z.id. by rewrite take_app_length.
Qed.

Lemma path_stem_plain file outsz :
  path_sep ∉ file → "."%byte ∉ file → Z.of_nat (length file) < outsz →
  path_stem file outsz = file.
Proof.
  intros Hsep Hdot Hlen. unfold path_stem.
  apply strrchr_None in Hsep, Hdot. rewrite Hsep, Hdot.
  rewrite clamp_small by done. rewrite Nat2Z.id. by rewrite take_ge.
Qed.
Lemma path_dirname_length inp outsz :
  1 ≤ outsz ≤ SIZE_MOD → Z.of_nat (length (path_dirname inp outsz)) < outsz.
Proof.
  intros Hsz. unfold path_dirname. destruct (strrchr inp path_sep) as [last|]; simpl; [|lia].
  rewrite length_take. pose proof (clamp_bound (Z.of_nat last) outsz Hsz). lia.
Qed.

Lemma path_stem_length inp outsz :
  1 ≤ outsz ≤ SIZE_MOD → Z.of_nat (length (path_stem inp outsz)) < outsz.
Proof.
  intros Hsz. unfold path_stem. cbv zeta. rewrite length_take.
  match goal with |- context [clamp ?n outsz] =>
    pose proof (clamp_bound n outsz Hsz) as Hc end.
  destruct (strrchr _ "."%byte); lia.
Qed.

(** X19.  A path [dir/stem.ext] is taken apart where it was put together:
    when neither [stem] nor [ext] holds a separator, [ext] holds no dot and
    both parts fit their buffers, [path_dirname] gives [dir] and [path_stem]
    gives [stem] (which may itself hold dots: the stem ends at the last
    one). *)
Theorem path_dirname_stem_split dir stem ext n m :
  path_sep ∉ stem → path_sep ∉ ext → "."%byte ∉ ext →
  Z.of_nat (length dir) < n → Z.of_nat (length stem) < m →
  path_dirname (dir ++ path_sep :: stem ++ "."%byte :: ext) n = dir
  ∧ path_stem (dir ++ path_sep :: stem ++ "."%byte :: ext) m = stem.
Proof.
  intros Hstem Hext Hdot Hn Hm.
  assert (Hfile : path_sep ∉ stem ++ "."%byte :: ext).
  { intros Hin. apply elem_of_app in Hin as [Hin|Hin]; [done|].
    apply elem_of_cons in Hin as [Hin|Hin]; [discriminate | done]. }
  split.
  - by apply path_dirname_split.
  - rewrite path_stem_file by done. by apply path_stem_ext.
Qed.

Lemma path_dirname_stem_split_witness :
  path_dirname ([ "a"%byte; "/"%byte; "b"%byte ] ++ path_sep ::
                [ "c"%byte; "."%byte; "d"%byte ] ++ "."%byte :: [ "l"%byte ]) 1024
    = [ "a"%byte; "/"%byte; "b"%byte ]
  ∧ path_stem ([ "a"%byte; "/"%byte; "b"%byte ] ++ path_sep ::
               [ "c"%byte; "."%byte; "d"%byte ] ++ "."%byte :: [ "l"%byte ]) 512
    = [ "c"%byte; "."%byte; "d"%byte ].
Proof.
  apply (path_dirname_stem_split [ "a"%byte; "/"%byte; "b"%byte ]
           [ "c"%byte; "."%byte; "d"%byte ] [ "l"%byte ] 1024 512).
  - intros Hin. repeat (apply elem_of_cons in Hin as [Hin|Hin]; [discriminate|]).
    by apply elem_of_nil in Hin.
  - intros Hin. repeat (apply elem_of_cons in Hin as [Hin|Hin]; [discriminate|]).
    by apply elem_of_nil in Hin.
  - intros Hin. repeat (apply elem_of_cons in Hin as [Hin|Hin]; [discriminate|]).
    by apply elem_of_nil in Hin.
  - simpl. lia.
  - simpl. lia.
Defined.

(** X20.  No path function writes past its buffer: for a buffer of [outsz]
    bytes, [outsz] at least 1, each result is shorter than [outsz], so that
    it fits with its terminating NUL; and the directory part is a prefix of
    the path it was taken from. *)
Theorem path_results_fit fe inp a b outsz :
  1 ≤ outsz ≤ SIZE_MOD →
  Z.of_nat (length (path_dirname inp outsz)) < outsz
  ∧ Z.of_nat (length (path_stem inp outsz)) < outsz
  ∧ Z.of_nat (length (path_join outsz a b)) < outsz
  ∧ Z.of_nat (length (derive_img_path fe inp outsz)) < outsz
  ∧ Z.of_nat (length (out_dir_default inp outsz)) < outsz
  ∧ path_dirname inp outsz `prefix_of` inp.
Proof.
  intros Hsz. split; [by apply path_dirname_length|].
  split; [by apply path_stem_length|].
  split; [apply snprintf_length; lia|].
  split.
  { unfold derive_img_path. cbv zeta.
    repeat match goal with
           | |- context [if ?c then _ else _] => destruct c
           end; apply snprintf_length; lia. }
  split.
  { unfold out_dir_default. cbv zeta. case_bool_decide; apply snprintf_length; lia. }
  unfold path_dirname. destruct (strrchr inp path_sep); [apply prefix_take | apply prefix_nil].
Qed.

Lemma path_results_fit_witness :
  Z.of_nat (length (path_dirname (replicate 9 "/"%byte) 4)) < 4
  ∧ Z.of_nat (length (path_stem (replicate 9 "/"%byte) 4)) < 4
  ∧ Z.of_nat (length (path_join 4 (replicate 9 "a"%byte) (replicate 9 "b"%byte))) < 4
  ∧ Z.of_nat (length (derive_img_path (λ _, false) (replicate 9 "/"%byte) 4)) < 4
  ∧ Z.of_nat (length (out_dir_default (replicate 9 "/"%byte) 4)) < 4
  ∧ path_dirname (replicate 9 "/"%byte) 4 `prefix_of` replicate 9 "/"%byte.
Proof.
  apply (path_results_fit (λ _, false) (replicate 9 "/"%byte) (replicate 9 "a"%byte)
           (replicate 9 "b"%byte) 4).
  unfold SIZE_MOD. lia.
Defined.

(** X21.  The payload is looked for beside the index, under the index's name
    with the extension replaced: for an index [dir/stem.ext] whose parts fit
    the buffers, [derive_img_path] gives [dir/stem.IMG] when that exists,
    else [dir/stem.img] when that exists, else [dir/stem.IMG]; so the file
    it names exists exactly when one of the two does (no other spelling of
    the extension is tried). *)
Theorem derive_img_path_replaces_extension fe dir stem ext outsz :
  dir ≠ [] → path_sep ∉ stem → path_sep ∉ ext → "."%byte ∉ ext →
  Z.of_nat (length dir) < 1024 → Z.of_nat (length stem) < 512 →
  Z.of_nat (length dir) + Z.of_nat (length stem) + 5 < outsz →
  let upper := dir ++ path_sep :: stem ++ EXT_UPPER in
  let lower := dir ++ path_sep :: stem ++ EXT_LOWER in
  let img_path := derive_img_path fe (dir ++ path_sep :: stem ++ "."%byte :: ext) outsz in
  img_path = (if fe upper then upper else if fe lower then lower else upper)
  ∧ fe img_path = fe upper || fe lower.
Proof.
  intros Hdir Hstem Hext Hdot Hn Hm Hout upper lower img_path.
  subst img_path. unfold derive_img_path. cbv zeta.
  assert (Hfile : path_sep ∉ stem ++ "."%byte :: ext).
  { intros Hin. apply elem_of_app in Hin as [Hin|Hin]; [done|].
    apply elem_of_cons in Hin as [Hin|Hin]; [discriminate | done]. }
  rewrite path_dirname_split, path_stem_file, path_stem_ext by done.
  rewrite bool_decide_eq_false_2 by done.
  assert (Hu : snprintf outsz (dir ++ [path_sep] ++ stem ++ EXT_UPPER) = upper).
  { apply snprintf_fits. unfold upper, lower. rewrite !length_app. simpl. rewrite length_app. simpl. lia. }
  assert (Hl : snprintf outsz (dir ++ [path_sep] ++ stem ++ EXT_LOWER) = lower).
  { apply snprintf_fits. unfold upper, lower. rewrite !length_app. simpl. rewrite length_app. simpl. lia. }
  rewrite Hu, Hl.
  destruct (fe upper) eqn:Eu; [by rewrite Eu|].
  destruct (fe lower) eqn:El; [by rewrite El|]. by rewrite Eu.
Qed.

Lemma derive_img_path_replaces_extension_witness :
  let fe := λ p : list byte, bool_decide (last p = Some "g"%byte) in
  let upper := [ "d"%byte ] ++ path_sep :: [ "s"%byte ] ++ EXT_UPPER in
  let lower := [ "d"%byte ] ++ path_sep :: [ "s"%byte ] ++ EXT_LOWER in
  let img_path := derive_img_path fe ([ "d"%byte ] ++ path_sep :: [ "s"%byte ] ++
                                      "."%byte :: [ "l"%byte; "v"%byte; "z"%byte ]) 1024 in
  img_path = (if fe upper then upper else if fe lower then lower else upper)
  ∧ fe img_path = fe upper || fe lower.
Proof.
  intros fe.
  apply (derive_img_path_replaces_extension fe [ "d"%byte ] [ "s"%byte ]
           [ "l"%byte; "v"%byte; "z"%byte ] 1024).
  - discriminate.
  - intros Hin. repeat (apply elem_of_cons in Hin as [Hin|Hin]; [discriminate|]).
    by apply elem_of_nil in Hin.
  - intros Hin. repeat (apply elem_of_cons in Hin as [Hin|Hin]; [discriminate|]).
    by apply elem_of_nil in Hin.
  - intros Hin. repeat (apply elem_of_cons in Hin as [Hin|Hin]; [discriminate|]).
    by apply elem_of_nil in Hin.
  - simpl. lia.
  - simpl. lia.
  - simpl. lia.
Defined.

(** X22.  An index directly under the root directory is treated as one in
    the current directory: the separator before a name that holds no other
    separator is dropped, for the payload path and for the output
    directory. *)
Theorem root_separator_dropped fe file outsz :
  path_sep ∉ file →
  derive_img_path fe (path_sep :: file) outsz = derive_img_path fe file outsz
  ∧ out_dir_default (path_sep :: file) outsz = out_dir_default file outsz.
Proof.
  intros Hfile.
  assert (Hd : path_dirname (path_sep :: file) 1024 = []).
  { apply (path_dirname_split [] file 1024); [done | simpl; lia]. }
  assert (Hd' : path_dirname file 1024 = []) by by apply path_dirname_bare.
  assert (Hs : path_stem (path_sep :: file) 512 = path_stem file 512).
  { by apply (path_stem_file [] file 512). }
  unfold derive_img_path, out_dir_default. by rewrite Hd, Hd', Hs.
Qed.

Lemma root_separator_dropped_witness :
  derive_img_path (λ _, false) (path_sep :: [ "x"%byte; "."%byte; "l"%byte ]) 1024
    = derive_img_path (λ _, false) [ "x"%byte; "."%byte; "l"%byte ] 1024
  ∧ out_dir_default (path_sep :: [ "x"%byte; "."%byte; "l"%byte ]) 1024
    = out_dir_default [ "x"%byte; "."%byte; "l"%byte ] 1024.
Proof.
  apply (root_separator_dropped (λ _, false) [ "x"%byte; "."%byte; "l"%byte ] 1024).
  intros Hin. repeat (apply elem_of_cons in Hin as [Hin|Hin]; [discriminate|]).
  by apply elem_of_nil in Hin.
Defined.
(** ** File names *)

Lemma u8_digit d : 0 ≤ d < 10 → u8 (digit d) = 48 + d.
Proof.
  intros Hd.
  assert (d = 0 ∨ d = 1 ∨ d = 2 ∨ d = 3 ∨ d = 4 ∨ d = 5 ∨ d = 6 ∨ d = 7 ∨ d = 8 ∨ d = 9)
    as Hcases by lia.
  repeat (destruct Hcases as [-> | Hcases]; [reflexivity|]). by subst.
Qed.

Lemma decimal_value_snoc s b :
  decimal_value (s ++ [b]) = 10 * decimal_value s + (u8 b - 48).
Proof. unfold decimal_value. by rewrite foldl_app. Qed.

Lemma decimal_value_zeros k s :
  decimal_value (replicate k "0"%byte ++ s) = decimal_value s.
Proof. unfold decimal_value. induction k as [|k IH]; [done|]. simpl. exact IH. Qed.

Lemma decimal_spec fuel n :
  0 ≤ n < 10 ^ Z.of_nat fuel → (1 ≤ fuel)%nat →
  decimal_value (decimal fuel n) = n
  ∧ Forall is_digit (decimal fuel n)
  ∧ (1 ≤ length (decimal fuel n) ≤ fuel)%nat.
Proof.
  revert n. induction fuel as [|fuel IH]; intros n Hn Hfuel; [lia|].
  simpl decimal. destruct (Z.ltb_spec n 10) as [Hsmall|Hbig].
  - split; [|split].
    + unfold decimal_value. simpl. rewrite u8_digit; lia.
    + apply Forall_singleton. unfold is_digit. rewrite u8_digit; lia.
    + simpl. lia.
  - assert (Hq : 0 ≤ n / 10 < 10 ^ Z.of_nat fuel).
    { split; [apply Z.div_pos; lia|]. apply Z.div_lt_upper_bound; [lia|].
      rewrite Nat2Z.inj_succ, Z.pow_succ_r in Hn; lia. }
    assert (Hf : (1 ≤ fuel)%nat).
    { destruct fuel; [|lia]. simpl in Hq. assert (1 ≤ n / 10) by
        (apply Z.div_le_lower_bound; lia). lia. }
    destruct (IH _ Hq Hf) as (Hval & Hdig & Hlen).
    pose proof (Z.mod_pos_bound n 10 ltac:(lia)) as Hmod.
    split; [|split].
    + rewrite decimal_value_snoc, Hval, u8_digit by done.
      pose proof (Z.div_mod n 10 ltac:(lia)). lia.
    + apply Forall_app. split; [done|]. apply Forall_singleton.
      unfold is_digit. rewrite u8_digit; lia.
    + rewrite length_app. simpl. lia.
Qed.

Lemma decimal_length fuel n k :
  0 ≤ n < 10 ^ Z.of_nat fuel → (1 ≤ fuel)%nat → (1 ≤ k)%nat →
  (length (decimal fuel n) ≤ k)%nat ↔ n < 10 ^ Z.of_nat k.
Proof.
  revert n k. induction fuel as [|fuel IH]; intros n k Hn Hfuel Hk; [lia|].
  simpl decimal. destruct (Z.ltb_spec n 10) as [Hsmall|Hbig].
  - simpl. split; [|lia]. intros _.
    assert (10 ^ 1 ≤ 10 ^ Z.of_nat k) by (apply Z.pow_le_mono_r; lia). lia.
  - assert (Hq : 0 ≤ n / 10 < 10 ^ Z.of_nat fuel).
    { split; [apply Z.div_pos; lia|]. apply Z.div_lt_upper_bound; [lia|].
      rewrite Nat2Z.inj_succ, Z.pow_succ_r in Hn; lia. }
    rewrite length_app. simpl.
    assert (Hf : (1 ≤ fuel)%nat).
    { destruct fuel; [|lia]. simpl in Hq. assert (1 ≤ n / 10) by
        (apply Z.div_le_lower_bound; lia). lia. }
    destruct (decimal_spec fuel (n / 10) Hq Hf) as (_ & _ & Hlen).
    destruct k as [|[|k]]; [lia| |].
    + split; [lia|]. simpl. lia.
    + specialize (IH (n / 10) (S k) Hq Hf ltac:(lia)).
      rewrite (Nat2Z.inj_succ (S k)), Z.pow_succ_r by lia.
      pose proof (Z.div_mod n 10 ltac:(lia)) as Hdm.
      pose proof (Z.mod_pos_bound n 10 ltac:(lia)) as Hmod.
      split.
      * intros Hle. assert (n / 10 < 10 ^ Z.of_nat (S k)) by (apply IH; lia). lia.
      * intros Hlt. assert (length (decimal fuel (n / 10)) ≤ S k)%nat; [|lia].
        apply IH. apply Z.div_lt_upper_bound; lia.
Qed.

Lemma size_fits_20_digits : SIZE_MOD < 10 ^ Z.of_nat 20.
Proof. unfold SIZE_MOD. simpl. lia. Qed.

Lemma fmt_04zu_spec i :
  0 ≤ i < SIZE_MOD →
  decimal_value (fmt_04zu i) = i
  ∧ Forall is_digit (fmt_04zu i)
  ∧ (4 ≤ length (fmt_04zu i) ≤ 20)%nat
  ∧ (length (fmt_04zu i) = 4%nat ↔ i < 10000).
Proof.
  intros Hi. pose proof size_fits_20_digits as H20.
  assert (Hr : 0 ≤ i < 10 ^ Z.of_nat 20) by lia.
  destruct (decimal_spec 20 i Hr ltac:(lia)) as (Hval & Hdig & Hlen).
  pose proof (decimal_length 20 i 4 Hr ltac:(lia) ltac:(lia)) as H4.
  change (10 ^ Z.of_nat 4) with 10000 in H4.
  unfold fmt_04zu. cbv zeta. rewrite decimal_value_zeros.
  split; [done|]. split.
  { apply Forall_app. split; [|done]. apply Forall_replicate. unfold is_digit.
    change (u8 "0"%byte) with 48. lia. }
  rewrite length_app, length_replicate. split; [lia|]. split.
  - intros Hl. apply H4. lia.
  - intros Hl. apply H4 in Hl. lia.
Qed.

Lemma wrld_name_fits i :
  0 ≤ i < SIZE_MOD → wrld_name i = WRLD_PREFIX ++ fmt_04zu i ++ WRLD_SUFFIX.
Proof.
  intros Hi. destruct (fmt_04zu_spec i Hi) as (_ & _ & Hlen & _).
  unfold wrld_name. apply snprintf_fits. rewrite !length_app. simpl. lia.
Qed.

Lemma wrld_name_length i :
  0 ≤ i < SIZE_MOD → (14 ≤ length (wrld_name i) ≤ 30)%nat.
Proof.
  intros Hi. destruct (fmt_04zu_spec i Hi) as (_ & _ & Hlen & _).
  rewrite wrld_name_fits by done. rewrite !length_app. simpl. lia.
Qed.

Lemma wrld_name_inj i j :
  0 ≤ i < SIZE_MOD → 0 ≤ j < SIZE_MOD → wrld_name i = wrld_name j → i = j.
Proof.
  intros Hi Hj Heq. rewrite !wrld_name_fits in Heq by done.
  apply app_inv_head, app_inv_tail in Heq.
  destruct (fmt_04zu_spec i Hi) as (<- & _). destruct (fmt_04zu_spec j Hj) as (<- & _).
  by rewrite Heq.
Qed.

(** X23.  The name of record [i] is [wrld_], the decimal digits of [i]
    padded with zeros to four, and [.wrld]: the digits read back give [i],
    there are four of them exactly when [i < 10000], and the name is never
    cut by its buffer of 256 bytes. *)
Theorem wrld_name_digits i :
  0 ≤ i < SIZE_MOD →
  ∃ ds, wrld_name i = WRLD_PREFIX ++ ds ++ WRLD_SUFFIX
        ∧ decimal_value ds = i
        ∧ Forall (λ b, 48 ≤ u8 b ≤ 57) ds
        ∧ (4 ≤ length ds ≤ 20)%nat
        ∧ (length ds = 4%nat ↔ i < 10000).
Proof.
  intros Hi. exists (fmt_04zu i). split; [by apply wrld_name_fits|].
  by apply fmt_04zu_spec.
Qed.

Lemma wrld_name_digits_witness :
  ∃ ds, wrld_name 12345 = WRLD_PREFIX ++ ds ++ WRLD_SUFFIX
        ∧ decimal_value ds = 12345
        ∧ Forall (λ b, 48 ≤ u8 b ≤ 57) ds
        ∧ (4 ≤ length ds ≤ 20)%nat
        ∧ (length ds = 4%nat ↔ 12345 < 10000).
Proof. apply (wrld_name_digits 12345). unfold SIZE_MOD. lia. Defined.

(** X24.  Records do not share a file: for an output directory that fits
    its buffer of 1024 bytes, the paths [main] builds for two different
    record numbers differ, neither is cut by its buffer, and none of them is
    the path of the log. *)
Theorem out_path_injective out_dir i j :
  Z.of_nat (length out_dir) < 1024 →
  0 ≤ i < SIZE_MOD → 0 ≤ j < SIZE_MOD →
  (out_path out_dir i = out_path out_dir j → i = j)
  ∧ out_path out_dir i ≠ log_path out_dir
  ∧ out_dir `prefix_of` out_path out_dir i
  ∧ wrld_name i `suffix_of` out_path out_dir i.
Proof.
  intros Hdir Hi Hj. unfold out_path, log_path, path_join.
  pose proof (wrld_name_length i Hi) as Hli. pose proof (wrld_name_length j Hj) as Hlj.
  generalize (negb (bool_decide (out_dir = []))
              && negb (bool_decide (last out_dir = Some path_sep))).
  intros c. set (s := if c then [path_sep] else []).
  assert (Hs : (length s ≤ 1)%nat) by (subst s; destruct c; simpl; lia).
  assert (Hfit : ∀ outsz name, 1400 ≤ outsz ∨ outsz = 1200 → (length name ≤ 30)%nat →
                 snprintf outsz (out_dir ++ s ++ name) = out_dir ++ s ++ name).
  { intros outsz name Hsz Hname. apply snprintf_fits. rewrite !length_app. lia. }
  rewrite !Hfit by (first [lia | simpl; lia]).
  split; [|split; [|split]].
  - intros Heq. apply app_inv_head, app_inv_head in Heq. by apply wrld_name_inj.
  - intros Heq. apply app_inv_head, app_inv_head in Heq.
    rewrite wrld_name_fits in Heq by done.
    destruct (fmt_04zu_spec i Hi) as (_ & Hdig & Hlen & _).
    destruct (fmt_04zu i) as [|d ds]; [simpl in Hlen; lia|].
    apply Forall_cons in Hdig as [Hd _]. unfold is_digit in Hd.
    assert (d = "i"%byte) as -> by (unfold WRLD_PREFIX, LOG_NAME in Heq; simpl in Heq; congruence). change (u8 "i"%byte) with 105 in Hd. lia.
  - by apply prefix_app_r.
  - rewrite app_assoc. by apply suffix_app_r.
Qed.

Lemma out_path_injective_witness :
  (out_path OUT_WRLD 7 = out_path OUT_WRLD 70 → 7 = 70)
  ∧ out_path OUT_WRLD 7 ≠ log_path OUT_WRLD
  ∧ OUT_WRLD `prefix_of` out_path OUT_WRLD 7
  ∧ wrld_name 7 `suffix_of` out_path OUT_WRLD 7.
Proof.
  apply (out_path_injective OUT_WRLD 7 70).
  - simpl. lia.
  - unfold SIZE_MOD. lia.
  - unfold SIZE_MOD. lia.
Defined.

(** X25.  [path_join] puts one separator between its parts unless the first
    part is empty or ends with one already; and when the second part holds
    no separator, [path_dirname] gives the first part back. *)
Theorem path_join_dirname outsz n a b :
  path_sep ∉ b →
  Z.of_nat (length a) + 1 + Z.of_nat (length b) < outsz →
  Z.of_nat (length a) < n →
  (a = [] → path_join outsz a b = b)
  ∧ (last a = Some path_sep → path_join outsz a b = a ++ b)
  ∧ (a ≠ [] → last a ≠ Some path_sep →
     path_join outsz a b = a ++ path_sep :: b
     ∧ path_dirname (path_join outsz a b) n = a).
Proof.
  intros Hb Hlen Hn. unfold path_join. split; [|split].
  - intros ->. simpl. apply snprintf_fits. simpl in Hlen. lia.
  - intros Hlast. rewrite (bool_decide_eq_true_2 _ Hlast), andb_false_r. simpl.
    apply snprintf_fits. rewrite length_app. lia.
  - intros Ha Hlast.
    rewrite (bool_decide_eq_false_2 _ Ha), (bool_decide_eq_false_2 _ Hlast). simpl.
    rewrite snprintf_fits by (rewrite length_app; simpl; lia).
    split; [done|]. by apply path_dirname_split.
Qed.

Lemma path_join_dirname_witness :
  (OUT_WRLD = [] → path_join 1400 OUT_WRLD LOG_NAME = LOG_NAME)
  ∧ (last OUT_WRLD = Some path_sep → path_join 1400 OUT_WRLD LOG_NAME = OUT_WRLD ++ LOG_NAME)
  ∧ (OUT_WRLD ≠ [] → last OUT_WRLD ≠ Some path_sep →
     path_join 1400 OUT_WRLD LOG_NAME = OUT_WRLD ++ path_sep :: LOG_NAME
     ∧ path_dirname (path_join 1400 OUT_WRLD LOG_NAME) 1024 = OUT_WRLD).
Proof.
  apply (path_join_dirname 1400 1024 OUT_WRLD LOG_NAME).
  - intros Hin. unfold LOG_NAME in Hin.
    repeat (apply elem_of_cons in Hin as [Hin|Hin]; [discriminate|]).
    by apply elem_of_nil in Hin.
  - simpl. lia.
  - simpl. lia.
Defined.
